(** * Lights Out solver (src/puzzle/lights_out.py): embedding and verification

    The class [LightsOutSolver] is embedded method by method.  The field
    [self.size] becomes the explicit first argument [size]; [self.n] is
    [size * size].  Python integers are [Z]; positions inside a list are
    [nat].  Python lists are [list], read with stdpp's lookup [!!] and
    written with [<[ i := x ]>]; an index that Python would reject is made
    explicit through [py_index] and the [IndexError] outcome.  The numpy
    arrays of [_build_transition_matrix] and [_solve_gf2] are dense
    [list (list Z)] matrices. *)

From Stdlib Require Import ZArith Lia List Permutation Sorted.
From stdpp Require Import base numbers option list gmap.

Local Open Scope Z_scope.

(** ** Python outcomes and list indexing *)

(** The only exception the embedded methods can raise is the [IndexError]
    of a list subscript. *)
Inductive outcome (A : Type) : Type :=
| Ok (a : A)
| IndexError.
Arguments Ok {A} a.
Arguments IndexError {A}.

(** [lst[i]] for a list of length [len]: [0 <= i < len] addresses position
    [i], [-len <= i < 0] addresses position [len + i], anything else raises. *)
Definition py_index (len : nat) (i : Z) : option nat :=
  if (0 <=? i) && (i <? Z.of_nat len) then Some (Z.to_nat i)
  else if (- Z.of_nat len <=? i) && (i <? 0) then Some (Z.to_nat (Z.of_nat len + i))
  else None.

(** ** Index conversion *)

Definition _pos_to_idx (size row col : Z) : Z := row * size + col.

Definition _idx_to_pos (size idx : Z) : Z * Z := (idx / size, idx mod size).

(** ** The toggle list

    Both [_build_transition_matrix] (lines 38-46) and [apply_move]
    (lines 148-156) build the same local list [toggles]. *)
Definition toggles (size row col : Z) : list (Z * Z) :=
  [(row, col)]
    ++ (if 0 <? row then [(row - 1, col)] else [])
    ++ (if row <? size - 1 then [(row + 1, col)] else [])
    ++ (if 0 <? col then [(row, col - 1)] else [])
    ++ (if col <? size - 1 then [(row, col + 1)] else []).

(** ** apply_move on grid values *)

Abbreviation grid := (list (list Z)) (only parsing).

(** [new_grid[r][c] = 1 - new_grid[r][c]] *)
Definition toggle (g : grid) (rc : Z * Z) : outcome grid :=
  match py_index (length g) (fst rc) with
  | None => IndexError
  | Some r =>
      match g !! r with
      | None => IndexError
      | Some rw =>
          match py_index (length rw) (snd rc) with
          | None => IndexError
          | Some c =>
              match rw !! c with
              | None => IndexError
              | Some v => Ok (<[r := <[c := 1 - v]> rw]> g)
              end
          end
      end
  end.

(** [for r, c in toggles: ...], stopping at the first exception. *)
Fixpoint toggle_each (g : grid) (ts : list (Z * Z)) : outcome grid :=
  match ts with
  | [] => Ok g
  | rc :: ts' =>
      match toggle g rc with
      | Ok g' => toggle_each g' ts'
      | IndexError => IndexError
      end
  end.

(** The value returned by [apply_move] as a function of the value of its
    argument (the deep copy is the identity on values). *)
Definition apply_move (size : Z) (g : grid) (row col : Z) : outcome grid :=
  toggle_each g (toggles size row col).

(** Pressing a list of moves one after the other, as the test
    [test_solve_generated_puzzle] does. *)
Fixpoint apply_moves (size : Z) (g : grid) (ms : list (Z * Z)) : outcome grid :=
  match ms with
  | [] => Ok g
  | m :: ms' =>
      match apply_move size g (fst m) (snd m) with
      | Ok g' => apply_moves size g' ms'
      | IndexError => IndexError
      end
  end.

(** [all(cell == 0 for row in grid for cell in row)] *)
Definition is_solved (g : grid) : bool :=
  forallb (fun rw => forallb (fun cell => cell =? 0) rw) g.

(** ** apply_move on a store of row objects

    The rows of a grid are mutable list objects.  A store maps a location
    to the contents of the row object living there; allocation appends.  A
    grid is the list of the locations of its rows (the outer list is never
    written by [apply_move]). *)

Abbreviation loc := nat (only parsing).
Abbreviation store := (list (list Z)) (only parsing).

Definition row_at (h : store) (l : loc) : list Z := default [] (h !! l).

Definition read_grid (h : store) (g : list loc) : grid := map (row_at h) g.

(** [new_grid = [row[:] for row in grid]] *)
Fixpoint copy_rows (h : store) (g : list loc) : store * list loc :=
  match g with
  | [] => (h, [])
  | l :: g' =>
      let '(h', ls) := copy_rows (h ++ [row_at h l]) g' in
      (h', length h :: ls)
  end.

Definition toggle_heap (g : list loc) (h : store) (rc : Z * Z) : outcome store :=
  match py_index (length g) (fst rc) with
  | None => IndexError
  | Some r =>
      match g !! r with
      | None => IndexError
      | Some l =>
          match py_index (length (row_at h l)) (snd rc) with
          | None => IndexError
          | Some c =>
              match row_at h l !! c with
              | None => IndexError
              | Some v => Ok (<[l := <[c := 1 - v]> (row_at h l)]> h)
              end
          end
      end
  end.

(** The store is returned together with the outcome: after an exception it
    is the store at the moment of the raise. *)
Fixpoint toggle_each_heap (g : list loc) (h : store) (ts : list (Z * Z))
  : store * outcome unit :=
  match ts with
  | [] => (h, Ok tt)
  | rc :: ts' =>
      match toggle_heap g h rc with
      | Ok h' => toggle_each_heap g h' ts'
      | IndexError => (h, IndexError)
      end
  end.

Definition apply_move_heap (size : Z) (h : store) (g : list loc) (row col : Z)
  : store * outcome (list loc) :=
  let '(h1, new_grid) := copy_rows h g in
  match toggle_each_heap new_grid h1 (toggles size row col) with
  | (h2, Ok _) => (h2, Ok new_grid)
  | (h2, IndexError) => (h2, IndexError)
  end.

(** ** Dense integer matrices *)

Definition zget (l : list Z) (j : nat) : Z := default 0 (l !! j).

Definition row_of (M : list (list Z)) (r : nat) : list Z := default [] (M !! r).

Definition mget (M : list (list Z)) (r c : nat) : Z := zget (row_of M r) c.

Definition cell (g : grid) (r c : nat) : Z := mget g r c.

(** [np.zeros((r, c), dtype=int)] *)
Definition np_zeros2 (r c : nat) : list (list Z) := replicate r (replicate c 0).

(** [A[i, j] = v] at positions inside the array; for [size >= 1] the
    indices used by the builder are inside it (lemma
    [toggles_idx_in_range]). *)
Definition mset (A : list (list Z)) (i j : nat) (v : Z) : list (list Z) :=
  alter (fun rw => <[j := v]> rw) i A.

(** ** _build_transition_matrix *)

Definition build_row (size : Z) (A : list (list Z)) (i : nat) : list (list Z) :=
  let '(row, col) := _idx_to_pos size (Z.of_nat i) in
  foldl (fun A rc => mset A i (Z.to_nat (_pos_to_idx size (fst rc) (snd rc))) 1)
        A (toggles size row col).

Definition _build_transition_matrix (size : Z) : list (list Z) :=
  let n := Z.to_nat (size * size) in
  foldl (build_row size) (np_zeros2 n n) (seq 0 n).

(** ** _solve_gf2

    The model covers the shape the method is called with: [A] has [len(b)]
    rows of [len(b)] entries.  Entries are numpy [int64]; the wrap-around of
    the row addition is written out. *)

Definition int64 (z : Z) : Z := (z + 2 ^ 63) mod 2 ^ 64 - 2 ^ 63.

(** [np.hstack([A, b.reshape(-1, 1)])] *)
Definition hstack (A : list (list Z)) (b : list Z) : list (list Z) :=
  zip_with (fun rw bi => rw ++ [bi]) A b.

(** The pivot search: the first [r] in [range(row, n)] with [M[r, col] == 1]. *)
Definition find_pivot (M : list (list Z)) (col row n : nat) : option nat :=
  List.find (fun r => mget M r col =? 1) (seq row (n - row)).

(** [M[[row, pivot]] = M[[pivot, row]]] *)
Definition swap_rows (M : list (list Z)) (i j : nat) : list (list Z) :=
  <[i := row_of M j]> (<[j := row_of M i]> M).

(** [(M[r] + M[row]) % 2] *)
Definition add_mod2 (r1 r2 : list Z) : list Z :=
  zip_with (fun a b => int64 (a + b) mod 2) r1 r2.

Definition eliminate_row (col row : nat) (M : list (list Z)) (r : nat)
  : list (list Z) :=
  if negb (r =? row)%nat && (mget M r col =? 1)
  then <[r := add_mod2 (row_of M r) (row_of M row)]> M
  else M.

Definition eliminate (M : list (list Z)) (col row n : nat) : list (list Z) :=
  foldl (eliminate_row col row) M (seq 0 n).

(** One iteration of [for col in range(n)]; the state is [(M, row)]. *)
Definition elim_step (n : nat) (st : list (list Z) * nat) (col : nat)
  : list (list Z) * nat :=
  match find_pivot (fst st) col (snd st) n with
  | None => st
  | Some pivot => (eliminate (swap_rows (fst st) (snd st) pivot) col (snd st) n,
                   S (snd st))
  end.

Definition forward_elimination (n : nat) (M : list (list Z))
  : list (list Z) * nat :=
  foldl (elim_step n) (M, 0%nat) (seq 0 n).

(** The same loop with a ghost list recording, in order, the columns in
    which a pivot was found. *)
Definition elim_step_trace (n : nat) (st : list (list Z) * nat * list nat)
  (col : nat) : list (list Z) * nat * list nat :=
  match find_pivot (fst (fst st)) col (snd (fst st)) n with
  | None => st
  | Some pivot =>
      (eliminate (swap_rows (fst (fst st)) (snd (fst st)) pivot) col
                 (snd (fst st)) n,
       S (snd (fst st)), snd st ++ [col])
  end.

Definition forward_elimination_trace (n : nat) (M : list (list Z))
  : list (list Z) * nat * list nat :=
  foldl (elim_step_trace n) (M, 0%nat, []) (seq 0 n).

Definition pivot_columns (n : nat) (M : list (list Z)) : list nat :=
  snd (forward_elimination_trace n M).

(** [M[r, -1]] and [M[r, :-1]] *)
Definition aug (rw : list Z) : Z := List.last rw 0.
Definition coeffs (rw : list Z) : list Z := List.removelast rw.

(** The loop of lines 119-121: true when it executes [return None]. *)
Definition inconsistent (M : list (list Z)) (row n : nat) : bool :=
  existsb (fun r => (aug (row_of M r) =? 1)
                    && forallb (fun v => v =? 0) (coeffs (row_of M r)))
          (seq row (n - row)).

(** [np.where(v == 1)[0]] *)
Definition np_where_eq1 (v : list Z) : list nat :=
  filter (fun j => zget v j = 1) (seq 0 (length v)).

Definition back_step (M : list (list Z)) (row : nat) (x : list Z) (i : nat)
  : list Z :=
  if (i <? row)%nat then
    match np_where_eq1 (coeffs (row_of M i)) with
    | [] => x
    | p :: _ => <[p := aug (row_of M i)]> x
    end
  else x.

Definition back_substitution (M : list (list Z)) (row n : nat) : list Z :=
  foldl (back_step M row) (replicate n 0) (seq 0 n).

Definition _solve_gf2 (A : list (list Z)) (b : list Z) : option (list Z) :=
  let n := length b in
  let '(M, row) := forward_elimination n (hstack A b) in
  if inconsistent M row n then None
  else Some (back_substitution M row n).

(** ** solve *)

Definition enumerate {A : Type} (l : list A) : list (nat * A) :=
  zip (seq 0 (length l)) l.

Definition collect_moves (size : Z) (solution : list Z) : list (Z * Z) :=
  foldl (fun moves ip =>
           if snd ip =? 1 then moves ++ [_idx_to_pos size (Z.of_nat (fst ip))]
           else moves)
        [] (enumerate solution).

Definition solve (size : Z) (g : grid) : option (list (Z * Z)) :=
  let b := concat g in
  let A := _build_transition_matrix size in
  match _solve_gf2 A b with
  | None => None
  | Some solution => Some (collect_moves size solution)
  end.

(** ** generate_random_puzzle

    numpy's global generator is outside the repository: it is a parameter.
    [np_random_seed s] is the generator state after [np.random.seed(s)], for
    a seed numpy accepts (it raises on the others before any grid is built);
    [np_random_randint lo hi st] is the value drawn by
    [np.random.randint(lo, hi)] from state [st], with the next state, for
    [lo < hi]. *)
Section RandomSource.
Variable rng : Type.
Variable np_random_seed : Z -> rng.
Variable np_random_randint : Z -> Z -> rng -> Z * rng.

(** The body of [for _ in range(num_moves)], iterated [k] times. *)
Fixpoint random_presses (size : Z) (k : nat) (g : grid) (st : rng)
  : outcome grid * rng :=
  match k with
  | O => (Ok g, st)
  | S k' =>
      let '(row, st1) := np_random_randint 0 size st in
      let '(col, st2) := np_random_randint 0 size st1 in
      match apply_move size g row col with
      | Ok g' => random_presses size k' g' st2
      | IndexError => (IndexError, st2)
      end
  end.

(** [st] is the state of the global generator when the method is called. *)
Definition generate_random_puzzle (size : Z) (seed : option Z) (st : rng)
  : outcome grid * rng :=
  let st0 := match seed with Some s => np_random_seed s | None => st end in
  let g0 := replicate (Z.to_nat size) (replicate (Z.to_nat size) 0) in
  let '(num_moves, st1) := np_random_randint 1 (size * size + 1) st0 in
  random_presses size (Z.to_nat num_moves) g0 st1.
End RandomSource.

(** ** Vocabulary of the statements *)

Definition square (size : Z) (g : grid) : Prop :=
  length g = Z.to_nat size /\ Forall (fun rw => length rw = Z.to_nat size) g.

Definition is_bit (v : Z) : Prop := v = 0 \/ v = 1.

Definition bits (g : grid) : Prop := Forall (Forall is_bit) g.


(** Cells are in range for a grid of side [size]. *)
Definition in_range (size : Z) (rc : Z * Z) : Prop :=
  0 <= fst rc < size /\ 0 <= snd rc < size.

(** The grid with the single cell [(r, c)] replaced by [1 - ] itself. *)
Definition flip_cell (g : grid) (r c : nat) : grid :=
  <[r := <[c := 1 - cell g r c]> (row_of g r)]> g.

Definition flip (v : Z) : Z := 1 - v.

(** How many entries of a toggle list address the cell [(r, c)]. *)
Fixpoint hits (ts : list (Z * Z)) (r c : nat) : nat :=
  match ts with
  | [] => 0%nat
  | t :: ts' =>
      Nat.add (if (fst t =? Z.of_nat r) && (snd t =? Z.of_nat c) then 1%nat else 0%nat)
              (hits ts' r c)
  end.

(** [(r, c)] is the pressed cell [(row, col)] or one of its orthogonal
    neighbours (up, down, left, right). *)
Definition self_or_neighbour (row col r c : Z) : Prop :=
  (r = row /\ c = col)
  \/ (r = row - 1 /\ c = col) \/ (r = row + 1 /\ c = col)
  \/ (r = row /\ c = col - 1) \/ (r = row /\ c = col + 1).

Definition self_or_neighbourb (row col r c : Z) : bool :=
  ((row =? r) && (col =? c))
  || ((row - 1 =? r) && (col =? c)) || ((row + 1 =? r) && (col =? c))
  || ((row =? r) && (col - 1 =? c)) || ((row =? r) && (col + 1 =? c)).

(** Every row location of [g] is allocated in [h]. *)
Definition allocated (h : store) (g : list loc) : Prop :=
  Forall (fun l => (l < length h)%nat) g.

(** Coordinates Python's list subscript accepts for a list of length
    [size]: the in-range ones and the negative ones that wrap around. *)
Definition subscriptable (size : Z) (rc : Z * Z) : Prop :=
  - size <= fst rc < size /\ - size <= snd rc < size.

(** An [r] by [c] matrix. *)
Definition shape (r c : nat) (M : list (list Z)) : Prop :=
  length M = r /\ Forall (fun rw => length rw = c) M.

(** Whether some entry of a toggle list flattens to the linear index [j]. *)
Definition flattens_to (size : Z) (ts : list (Z * Z)) (j : nat) : bool :=
  existsb (fun rc => (Z.to_nat (_pos_to_idx size (fst rc) (snd rc)) =? j)%nat) ts.

(** The toggle list of the cell with linear index [i]. *)
Definition toggles_of (size : Z) (i : nat) : list (Z * Z) :=
  toggles size (fst (_idx_to_pos size (Z.of_nat i)))
          (snd (_idx_to_pos size (Z.of_nat i))).

(** ** Linear systems over GF(2) *)

(** [sumZ n f] is [f 0 + ... + f (n - 1)]. *)
Fixpoint sumZ (n : nat) (f : nat -> Z) : Z :=
  match n with
  | O => 0
  | S n' => sumZ n' f + f n'
  end.

(** The vector [x] satisfies, modulo 2, the equation whose [n] coefficients
    and right-hand side are the entries of the augmented row [rw]. *)
Definition row_sat (n : nat) (x : list Z) (rw : list Z) : Prop :=
  sumZ n (fun j => zget rw j * zget x j) mod 2 = zget rw n mod 2.

(** [x] solves the augmented system [M] of [n] equations. *)
Definition sat (n : nat) (M : list (list Z)) (x : list Z) : Prop :=
  forall r, (r < n)%nat -> row_sat n x (row_of M r).

(** [A x = b] over GF(2). *)
Definition solves (A : list (list Z)) (b x : list Z) : Prop :=
  forall r, (r < length b)%nat ->
            sumZ (length b) (fun j => mget A r j * zget x j) mod 2 = zget b r mod 2.

(** The state of the elimination before column [c] is processed: [k] pivots
    have been found, in the columns [pivs]; each pivot column is a unit
    vector, and a 1 in a processed column only occurs in a pivot row, at or
    after its pivot. *)
Definition reduced (n c : nat) (M : list (list Z)) (k : nat) (pivs : list nat)
  : Prop :=
  shape n (S n) M /\ bits M /\ length pivs = k /\ (k <= n)%nat
  /\ (forall i p, pivs !! i = Some p ->
                  (p < c)%nat /\ mget M i p = 1
                  /\ forall r, (r < n)%nat -> r <> i -> mget M r p = 0)
  /\ (forall r j, (r < n)%nat -> (j < c)%nat -> mget M r j = 1 ->
                  exists p, pivs !! r = Some p /\ (p <= j)%nat).

(** How many times the cell [(r, c)] is toggled by a list of moves. *)
Fixpoint presses (size : Z) (ms : list (Z * Z)) (r c : nat) : nat :=
  match ms with
  | [] => 0%nat
  | m :: ms' =>
      Nat.add (hits (toggles size (fst m) (snd m)) r c) (presses size ms' r c)
  end.

(** Some press vector [x] satisfies [A x = b] for the flattened grid. *)
Definition solvable (size : Z) (g : grid) : Prop :=
  exists x, length x = Z.to_nat (size * size)
            /\ solves (_build_transition_matrix size) (concat g) x.

(** A small linear congruential generator, an instance of the random
    source for the examples. *)
Definition lcg_seed (s : Z) : Z := s mod 2 ^ 31.

Definition lcg_randint (lo hi : Z) (st : Z) : Z * Z :=
  (lo + st mod (hi - lo), (st * 1103515245 + 12345) mod 2 ^ 31).

(** ** print_grid

    A Python [str] is the list of its Unicode code points. *)

Definition FULL_BLOCK : Z := 9608.   (* U+2588, the glyph of a lit cell *)
Definition LIGHT_SHADE : Z := 9617.  (* U+2591, the glyph of a dark cell *)
Definition SPACE : Z := 32.
Definition NEWLINE : Z := 10.

(** [sep.join(parts)] *)
Fixpoint str_join (sep : list Z) (parts : list (list Z)) : list Z :=
  match parts with
  | [] => []
  | p :: ps =>
      match ps with
      | [] => p
      | _ :: _ => p ++ sep ++ str_join sep ps
      end
  end.

(** ["█" if cell else "░"]: an integer is true when it is not 0. *)
Definition glyph (cell : Z) : Z := if cell =? 0 then LIGHT_SHADE else FULL_BLOCK.

Definition print_row (row : list Z) : list Z :=
  str_join [SPACE] (map (fun cell => [glyph cell]) row).

Definition print_grid (g : grid) : list Z :=
  str_join [NEWLINE] (map print_row g).

(** * Robot controller (src/robot/controller.py) *)

(** The [Direction] enum; [Direction.all] is its iteration order. *)
Module Direction.
Inductive t : Type := NORTH | SOUTH | EAST | WEST.

Definition value (d : t) : Z * Z :=
  match d with
  | NORTH => (0, -1)
  | SOUTH => (0, 1)
  | EAST => (1, 0)
  | WEST => (-1, 0)
  end.

Definition all : list t := [NORTH; SOUTH; EAST; WEST].
End Direction.

(** The [Position] dataclass; [__eq__] and [__hash__] compare the two
    coordinates, which is equality of the record. *)
Module Position.
Record t : Type := mk { x : Z; y : Z }.

Definition move (self : t) (direction : Direction.t) : t :=
  mk (x self + fst (Direction.value direction))
     (y self + snd (Direction.value direction)).

Definition manhattan_distance (self other : t) : Z :=
  Z.abs (x self - x other) + Z.abs (y self - y other).
End Position.

#[global] Instance Direction_eq_dec : EqDecision Direction.t.
Proof. solve_decision. Defined.

#[global] Instance Position_eq_dec : EqDecision Position.t.
Proof. solve_decision. Defined.

#[global] Instance Position_countable : Countable Position.t :=
  inj_countable' (fun p => (Position.x p, Position.y p))
                 (fun xy => Position.mk (fst xy) (snd xy))
                 (fun p => match p with Position.mk _ _ => eq_refl end).

(** The exceptions the controller raises. *)
Inductive robot_error : Type := RuntimeError | ValueError.

(** The [energy] field is a Python float: the type of floats, the initial
    value [100.0] and the operation [e - 1.0] are parameters.  Python sets of
    positions are [gset]s. *)
Section Robot.
Variable float : Type.
Variable energy_initial : float.
Variable energy_decrement : float -> float.

Record RobotState : Type := mkState {
  position : Position.t;
  direction : Direction.t;
  energy : float;
  trail : list Position.t;
  checkpoints_solved : gset Position.t
}.

(** The fields of [RobotController]; [state] is [None] before [spawn]. *)
Record RobotController : Type := mkController {
  grid_width : Z;
  grid_height : Z;
  checkpoints : gset Position.t;
  state : option RobotState
}.

(** [RobotController(grid_size, checkpoints)] *)
Definition controller_init (grid_size : Z * Z) (cps : list Position.t)
  : RobotController :=
  mkController (fst grid_size) (snd grid_size) (list_to_set cps) None.

Definition with_state (c : RobotController) (s : option RobotState)
  : RobotController :=
  mkController (grid_width c) (grid_height c) (checkpoints c) s.

(** [RobotState(position=start_pos, direction=direction)] with the defaults
    and [__post_init__]: an empty trail becomes [[position]]. *)
Definition spawn (c : RobotController) (start_pos : Position.t)
  (d : Direction.t) : RobotController * RobotState :=
  let s := mkState start_pos d energy_initial [start_pos] ∅ in
  (with_state c (Some s), s).

Definition is_valid_position (c : RobotController) (pos : Position.t) : bool :=
  (0 <=? Position.x pos) && (Position.x pos <? grid_width c)
  && (0 <=? Position.y pos) && (Position.y pos <? grid_height c).

(** [move]: the controller after the call, with the returned state or the
    exception raised.  The direction is assigned before the bounds check. *)
Definition move (c : RobotController) (d : Direction.t)
  : RobotController * (robot_error + RobotState) :=
  match state c with
  | None => (c, inl RuntimeError)
  | Some s =>
      let s1 := mkState (position s) d (energy s) (trail s)
                        (checkpoints_solved s) in
      let new_pos := Position.move (position s1) d in
      if negb (is_valid_position c new_pos)
      then (with_state c (Some s1), inl ValueError)
      else
        let s2 := mkState new_pos d (energy_decrement (energy s1))
                          (trail s1 ++ [new_pos]) (checkpoints_solved s1) in
        (with_state c (Some s2), inr s2)
  end.

(** [for direction in path: controller.move(direction)], stopping at the
    first exception (the loop of [test_pathfinding]). *)
Fixpoint move_all (c : RobotController) (path : list Direction.t)
  : RobotController * option robot_error :=
  match path with
  | [] => (c, None)
  | d :: path' =>
      match move c d with
      | (c', inl e) => (c', Some e)
      | (c', inr _) => move_all c' path'
      end
  end.

Definition check_checkpoint (c : RobotController) : bool :=
  match state c with
  | None => false
  | Some s =>
      bool_decide (position s ∈ checkpoints c)
      && negb (bool_decide (position s ∈ checkpoints_solved s))
  end.

Definition solve_checkpoint (c : RobotController)
  : RobotController * (robot_error + unit) :=
  match state c with
  | None => (c, inl RuntimeError)
  | Some s =>
      (with_state c
         (Some (mkState (position s) (direction s) (energy s) (trail s)
                        ({[position s]} ∪ checkpoints_solved s))),
       inr tt)
  end.

(** *** get_path_to: breadth-first search *)

(** The [for direction in Direction] loop for one dequeued entry: either
    the path returned from inside the loop, or the queue and the visited
    set after it. *)
Fixpoint expand (c : RobotController) (target current : Position.t)
  (path : list Direction.t) (dirs : list Direction.t)
  (queue : list (Position.t * list Direction.t)) (visited : gset Position.t)
  : list Direction.t + list (Position.t * list Direction.t) * gset Position.t :=
  match dirs with
  | [] => inr (queue, visited)
  | d :: dirs' =>
      let next_pos := Position.move current d in
      if bool_decide (next_pos ∈ visited) || negb (is_valid_position c next_pos)
      then expand c target current path dirs' queue visited
      else
        let new_path := path ++ [d] in
        if bool_decide (next_pos = target) then inl new_path
        else expand c target current path dirs'
                    (queue ++ [(next_pos, new_path)]) ({[next_pos]} ∪ visited)
  end.

(** The [while queue] loop; [None] when the fuel runs out before the loop
    ends. *)
Fixpoint bfs_loop (fuel : nat) (c : RobotController) (target : Position.t)
  (queue : list (Position.t * list Direction.t)) (visited : gset Position.t)
  : option (list Direction.t) :=
  match fuel with
  | O => None
  | S fuel' =>
      match queue with
      | [] => Some []
      | (current, path) :: rest =>
          match expand c target current path Direction.all rest visited with
          | inl found => Some found
          | inr (queue', visited') => bfs_loop fuel' c target queue' visited'
          end
      end
  end.

Definition get_path_to (fuel : nat) (c : RobotController) (target : Position.t)
  : robot_error + option (list Direction.t) :=
  match state c with
  | None => inl RuntimeError
  | Some s =>
      let start := position s in
      if bool_decide (start = target) then inr (Some [])
      else inr (bfs_loop fuel c target [(start, [])] {[start]})
  end.
End Robot.

Arguments position {float} _.
Arguments direction {float} _.
Arguments energy {float} _.
Arguments trail {float} _.
Arguments checkpoints_solved {float} _.
Arguments grid_width {float} _.
Arguments grid_height {float} _.
Arguments checkpoints {float} _.
Arguments state {float} _.
Arguments mkState {float} _ _ _ _ _.
Arguments mkController {float} _ _ _ _.
Arguments with_state {float} _ _.
Arguments spawn {float} _ _ _ _.
Arguments is_valid_position {float} _ _.
Arguments move {float} _ _ _.
Arguments move_all {float} _ _ _.
Arguments check_checkpoint {float} _.
Arguments solve_checkpoint {float} _.
Arguments expand {float} _ _ _ _ _ _ _.
Arguments bfs_loop {float} _ _ _ _ _.
Arguments get_path_to {float} _ _ _.

(** Floats whose values stay integral, for the examples: [100.0] is [100]
    and [e - 1.0] is [e - 1]. *)
Definition Zspawn := @spawn Z 100.
Definition Zmove := @move Z (fun e => e - 1).
Definition Zmove_all := @move_all Z (fun e => e - 1).

(** *** get_trail_visualization *)

Definition DOT : Z := 46.        (* "." *)
Definition LETTER_C : Z := 67.   (* "C" *)
Definition PLUS : Z := 43.       (* "+" *)
Definition LETTER_N : Z := 78.   (* "N" *)

(** [grid[pos.y][pos.x] = symbol]; only executed for positions inside the
    grid, for which both subscripts are in range. *)
Definition draw (g : list (list Z)) (pos : Position.t) (symbol : Z)
  : list (list Z) :=
  mset g (Z.to_nat (Position.y pos)) (Z.to_nat (Position.x pos)) symbol.

(** [for cp in self.checkpoints], in the iteration order of the set. *)
Definition draw_checkpoints {float : Type} (c : RobotController float)
  (g : list (list Z)) : list (list Z) :=
  foldl (fun g cp => if is_valid_position c cp then draw g cp LETTER_C else g)
        g (elements (checkpoints c)).

(** [for i, pos in enumerate(self.state.trail)] *)
Definition draw_trail {float : Type} (c : RobotController float)
  (tr : list Position.t) (g : list (list Z)) : list (list Z) :=
  foldl (fun g ip =>
           if is_valid_position c (snd ip)
           then draw g (snd ip)
                     (if (fst ip =? length tr - 1)%nat then LETTER_N else PLUS)
           else g)
        g (enumerate tr).

Definition trail_grid {float : Type} (c : RobotController float)
  : list (list Z) :=
  let g := replicate (Z.to_nat (grid_height c))
                     (replicate (Z.to_nat (grid_width c)) DOT) in
  let g := draw_checkpoints c g in
  match state c with
  | Some s => draw_trail c (trail s) g
  | None => g
  end.

Definition get_trail_visualization {float : Type} (c : RobotController float)
  : list Z :=
  str_join [NEWLINE]
           (map (fun row => str_join [SPACE] (map (fun ch => [ch]) row))
                (trail_grid c)).

(** ** Vocabulary of the statements about the robot *)

(** The character an intermediate picture has at a position: [grid[p.y][p.x]]. *)
Definition symbol_at (g : list (list Z)) (p : Position.t) : Z :=
  mget g (Z.to_nat (Position.y p)) (Z.to_nat (Position.x p)).


(** The position reached from [p] by a list of steps. *)
Definition walk (p : Position.t) (path : list Direction.t) : Position.t :=
  foldl Position.move p path.

(** Every step of the walk lands inside the grid. *)
Fixpoint valid_walk {float : Type} (c : RobotController float)
  (p : Position.t) (path : list Direction.t) : Prop :=
  match path with
  | [] => True
  | d :: path' =>
      is_valid_position c (Position.move p d) = true
      /\ valid_walk c (Position.move p d) path'
  end.

(** The positions a walk passes through, after each step. *)
Fixpoint walk_positions (p : Position.t) (path : list Direction.t)
  : list Position.t :=
  match path with
  | [] => []
  | d :: path' => Position.move p d :: walk_positions (Position.move p d) path'
  end.

(** All the cells of the grid, column by column. *)
Definition cell_list {float : Type} (c : RobotController float)
  : list Position.t :=
  flat_map (fun i => map (fun j => Position.mk (Z.of_nat i) (Z.of_nat j))
                         (seq 0 (Z.to_nat (grid_height c))))
           (seq 0 (Z.to_nat (grid_width c))).

(** How many cells of the grid are not in the visited set. *)
Definition unvisited {float : Type} (c : RobotController float)
  (visited : gset Position.t) : nat :=
  length (filter (fun p => p ∉ visited) (cell_list c)).

(** Every neighbour of [p] inside the grid has been visited. *)
Definition closed_cell {float : Type} (c : RobotController float)
  (visited : gset Position.t) (p : Position.t) : Prop :=
  forall d, is_valid_position c (Position.move p d) = true ->
            Position.move p d ∈ visited.

(** The state of the breadth-first search while the paths of length [L] are
    being extended: every queued path is a walk inside the grid from [start]
    to its position and is as long as the Manhattan distance; the queue holds
    paths of length [L] followed by paths of length [L + 1]; every cell at
    distance at most [L] has been visited; a visited cell is queued or has
    all its neighbours visited; the target has not been visited. *)
Definition bfs_inv {float : Type} (c : RobotController float)
  (start target : Position.t) (L : nat)
  (queue : list (Position.t * list Direction.t)) (visited : gset Position.t)
  : Prop :=
  (start ∈ visited) /\ (target ∉ visited)
  /\ Forall (fun e => walk start (snd e) = fst e
                      /\ valid_walk c start (snd e)
                      /\ Z.of_nat (length (snd e))
                         = Position.manhattan_distance start (fst e)
                      /\ (fst e ∈ visited)) queue
  /\ (exists q1 q2, queue = q1 ++ q2
                    /\ Forall (fun e => length (snd e) = L) q1
                    /\ Forall (fun e => length (snd e) = S L) q2
                    /\ (q1 = [] -> q2 = []))
  /\ (forall q, is_valid_position c q = true ->
                Position.manhattan_distance start q <= Z.of_nat L -> q ∈ visited)
  /\ (forall p, p ∈ visited ->
                (exists pa, (p, pa) ∈ queue) \/ closed_cell c visited p).

(** * Facts *)

(** ** Sanity checks on the tests' inputs *)

Example test_apply_move :
  apply_move 3 [[0;0;0];[0;0;0];[0;0;0]] 1 1 = Ok [[0;1;0];[1;1;1];[0;1;0]].
Proof. reflexivity. Qed.

Example test_is_solved :
  is_solved [[0;0;0];[0;0;0];[0;0;0]] = true
  /\ is_solved [[1;0;0];[0;0;0];[0;0;0]] = false.
Proof. split; reflexivity. Qed.

Example test_solve_simple_puzzle :
  solve 3 [[0;0;0];[0;1;0];[0;0;0]] = Some [(0,1);(1,0);(1,1);(1,2);(2,1)].
Proof. vm_compute. reflexivity. Qed.

(** ** Indexing *)

Lemma py_index_in_range (len : nat) (i : Z) :
  0 <= i < Z.of_nat len -> py_index len i = Some (Z.to_nat i).
Proof.
  intros H. unfold py_index.
  destruct (Z.leb_spec 0 i); [|lia].
  destruct (Z.ltb_spec i (Z.of_nat len)); [|lia].
  reflexivity.
Qed.

Lemma py_index_negative (len : nat) (i : Z) :
  - Z.of_nat len <= i < 0 -> py_index len i = Some (Z.to_nat (Z.of_nat len + i)).
Proof.
  intros H. unfold py_index.
  destruct (Z.leb_spec 0 i); [lia|]. cbn [andb].
  destruct (Z.leb_spec (- Z.of_nat len) i); [|lia].
  destruct (Z.ltb_spec i 0); [|lia].
  reflexivity.
Qed.

Lemma py_index_outside (len : nat) (i : Z) :
  i < - Z.of_nat len \/ Z.of_nat len <= i -> py_index len i = None.
Proof.
  intros H. unfold py_index.
  destruct (Z.leb_spec 0 i), (Z.ltb_spec i (Z.of_nat len)),
    (Z.leb_spec (- Z.of_nat len) i), (Z.ltb_spec i 0); cbn; try reflexivity; lia.
Qed.

Lemma py_index_Some_lt (len : nat) (i : Z) (k : nat) :
  py_index len i = Some k -> (k < len)%nat.
Proof.
  unfold py_index.
  destruct (Z.leb_spec 0 i), (Z.ltb_spec i (Z.of_nat len)),
    (Z.leb_spec (- Z.of_nat len) i), (Z.ltb_spec i 0); cbn;
    intros [= <-]; lia.
Qed.

(** ** Cells of a matrix *)

Lemma zget_lookup (l : list Z) (j : nat) (v : Z) : l !! j = Some v -> zget l j = v.
Proof. unfold zget. intros ->. reflexivity. Qed.

Lemma zget_ge (l : list Z) (j : nat) : (length l <= j)%nat -> zget l j = 0.
Proof. unfold zget. intros H. rewrite lookup_ge_None_2; [reflexivity|lia]. Qed.

Lemma row_of_lookup (M : list (list Z)) (r : nat) (rw : list Z) :
  M !! r = Some rw -> row_of M r = rw.
Proof. unfold row_of. intros ->. reflexivity. Qed.

Lemma zget_insert (l : list Z) (i j : nat) (v : Z) :
  zget (<[i := v]> l) j = if decide (i = j /\ (i < length l)%nat) then v else zget l j.
Proof.
  unfold zget. destruct (decide (i = j)) as [->|Hne].
  - destruct (decide (j < length l)%nat) as [Hlt|Hge].
    + rewrite list_lookup_insert_eq by lia. rewrite decide_True by auto. reflexivity.
    + rewrite list_insert_ge by lia. rewrite decide_False by (intros [_ ?]; lia).
      reflexivity.
  - rewrite list_lookup_insert_ne by auto.
    rewrite decide_False by (intros [? _]; auto). reflexivity.
Qed.

Lemma row_of_insert (M : list (list Z)) (i r : nat) (rw : list Z) :
  row_of (<[i := rw]> M) r
  = if decide (i = r /\ (i < length M)%nat) then rw else row_of M r.
Proof.
  unfold row_of. destruct (decide (i = r)) as [->|Hne].
  - destruct (decide (r < length M)%nat) as [Hlt|Hge].
    + rewrite list_lookup_insert_eq by lia. rewrite decide_True by auto. reflexivity.
    + rewrite list_insert_ge by lia. rewrite decide_False by (intros [_ ?]; lia).
      reflexivity.
  - rewrite list_lookup_insert_ne by auto.
    rewrite decide_False by (intros [? _]; auto). reflexivity.
Qed.

(** ** Grid shape *)

Lemma square_row (size : Z) (g : grid) (r : nat) :
  square size g -> (r < Z.to_nat size)%nat ->
  exists rw, g !! r = Some rw /\ length rw = Z.to_nat size.
Proof.
  intros [Hl Hr] Hlt.
  destruct (lookup_lt_is_Some_2 g r) as [rw Hrw]; [lia|].
  exists rw. split; [assumption|].
  rewrite Forall_lookup in Hr. eauto.
Qed.

Lemma grid_ext (size : Z) (g1 g2 : grid) :
  square size g1 -> square size g2 ->
  (forall r c, (r < Z.to_nat size)%nat -> (c < Z.to_nat size)%nat ->
               cell g1 r c = cell g2 r c) ->
  g1 = g2.
Proof.
  intros H1 H2 Hc. apply list_eq_same_length with (Z.to_nat size);
    [apply H2 | apply H1 |].
  intros r x y Hr Hx Hy.
  destruct (square_row size g1 r H1 Hr) as (rw1 & E1 & L1).
  destruct (square_row size g2 r H2 Hr) as (rw2 & E2 & L2).
  assert (x = rw1) by congruence. assert (y = rw2) by congruence. subst.
  apply list_eq_same_length with (Z.to_nat size); [assumption..|].
  intros c u v Hcl Hu Hv.
  specialize (Hc r c Hr Hcl). unfold cell, mget in Hc.
  rewrite (row_of_lookup _ _ _ E1), (row_of_lookup _ _ _ E2) in Hc.
  rewrite (zget_lookup _ _ _ Hu), (zget_lookup _ _ _ Hv) in Hc. assumption.
Qed.

(** ** One toggle *)

Lemma cell_flip_cell (g : grid) (r c r' c' : nat) :
  cell (flip_cell g r c) r' c'
  = if decide (r = r' /\ c = c' /\ (r < length g)%nat
               /\ (c < length (row_of g r))%nat)
    then 1 - cell g r c else cell g r' c'.
Proof.
  unfold flip_cell, cell, mget. rewrite row_of_insert.
  destruct (decide (r = r' /\ (r < length g)%nat)) as [[-> Hr]|Hn].
  - rewrite zget_insert.
    destruct (decide (c = c' /\ (c < length (row_of g r'))%nat)) as [[-> Hc]|Hn].
    + rewrite decide_True by auto. reflexivity.
    + rewrite decide_False by (intros (_ & ? & _ & ?); auto). reflexivity.
  - rewrite decide_False by (intros (? & _ & ? & _); auto). reflexivity.
Qed.

Lemma square_flip_cell (size : Z) (g : grid) (r c : nat) :
  square size g -> square size (flip_cell g r c).
Proof.
  intros [Hl Hr]. unfold flip_cell. split.
  - rewrite length_insert. assumption.
  - destruct (decide (r < length g)%nat) as [Hlt|Hge].
    + apply Forall_insert; [assumption|].
      rewrite length_insert.
      destruct (lookup_lt_is_Some_2 g r Hlt) as [rw Hrw].
      rewrite (row_of_lookup _ _ _ Hrw).
      rewrite Forall_lookup in Hr. eauto.
    + rewrite list_insert_ge by lia. assumption.
Qed.

Lemma toggle_in_range (size : Z) (g : grid) (rc : Z * Z) :
  square size g -> in_range size rc ->
  toggle g rc = Ok (flip_cell g (Z.to_nat (fst rc)) (Z.to_nat (snd rc))).
Proof.
  intros Hsq [Hr Hc]. unfold toggle.
  destruct (square_row size g (Z.to_nat (fst rc)) Hsq) as (rw & Hrw & Hlen); [lia|].
  rewrite py_index_in_range by (destruct Hsq; lia).
  rewrite Hrw. rewrite py_index_in_range by lia.
  destruct (lookup_lt_is_Some_2 rw (Z.to_nat (snd rc))) as [v Hv]; [lia|].
  rewrite Hv. unfold flip_cell, cell, mget.
  rewrite (row_of_lookup _ _ _ Hrw), (zget_lookup _ _ _ Hv). reflexivity.
Qed.

Lemma flip_involutive (v : Z) : flip (flip v) = v.
Proof. unfold flip. lia. Qed.

Lemma iter_flip_even (k : nat) (v : Z) :
  Nat.iter k flip v = if Nat.even k then v else flip v.
Proof.
  induction k as [|k IH].
  - reflexivity.
  - rewrite Nat.even_succ, <- Nat.negb_even.
    change (Nat.iter (S k) flip v) with (flip (Nat.iter k flip v)). rewrite IH.
    destruct (Nat.even k); cbn [negb]; [reflexivity|apply flip_involutive].
Qed.

(** The cells of the grid after a list of in-range toggles. *)
Lemma toggle_each_in_range (size : Z) (ts : list (Z * Z)) :
  forall g : grid,
    square size g -> Forall (in_range size) ts ->
    exists g', toggle_each g ts = Ok g' /\ square size g'
               /\ forall r c, (r < Z.to_nat size)%nat -> (c < Z.to_nat size)%nat ->
                              cell g' r c = Nat.iter (hits ts r c) flip (cell g r c).
Proof.
  induction ts as [|t ts IH]; intros g Hsq Hall.
  - exists g. cbn. auto.
  - inversion Hall as [|? ? Ht Hts]; subst.
    cbn [toggle_each]. rewrite (toggle_in_range size) by assumption.
    destruct (IH (flip_cell g (Z.to_nat (fst t)) (Z.to_nat (snd t))))
      as (g' & Hg' & Hsq' & Hcell); [apply square_flip_cell; assumption|assumption|].
    exists g'. split; [assumption|]. split; [assumption|].
    intros r c Hr Hc. rewrite (Hcell r c Hr Hc). rewrite cell_flip_cell.
    cbn [hits]. destruct Ht as [Htr Htc].
    destruct (square_row size g (Z.to_nat (fst t)) Hsq) as (rw & Hrw & Hlen); [lia|].
    rewrite (row_of_lookup _ _ _ Hrw).
    destruct (decide _) as [(E1 & E2 & _)|Hn].
    + subst r c. rewrite !Z2Nat.id, !Z.eqb_refl by lia. cbn [andb].
      rewrite Nat.add_comm. rewrite Nat.iter_add. reflexivity.
    + destruct (Z.eqb_spec (fst t) (Z.of_nat r)) as [E1|E1];
        destruct (Z.eqb_spec (snd t) (Z.of_nat c)) as [E2|E2]; cbn [andb];
        try reflexivity.
      exfalso. apply Hn. destruct Hsq. repeat split; lia.
Qed.

(** ** The toggle list *)

Ltac split_eqb :=
  repeat match goal with
         | |- context [Z.eqb ?a ?b] => destruct (Z.eqb_spec a b); try lia
         | |- context [Z.ltb ?a ?b] => destruct (Z.ltb_spec a b); try lia
         end.

Lemma self_or_neighbourb_spec (row col r c : Z) :
  self_or_neighbourb row col r c = true <-> self_or_neighbour row col r c.
Proof.
  unfold self_or_neighbourb, self_or_neighbour.
  split_eqb; cbn; split; intros H; try discriminate; try lia; try reflexivity.
Qed.

Lemma self_or_neighbourb_sym (row col r c : Z) :
  self_or_neighbourb row col r c = self_or_neighbourb r c row col.
Proof. unfold self_or_neighbourb. split_eqb; reflexivity. Qed.

Lemma toggles_in_range (size row col : Z) :
  in_range size (row, col) -> Forall (in_range size) (toggles size row col).
Proof.
  intros [Hr Hc]. cbn [fst snd] in *. unfold toggles.
  repeat (apply Forall_app; split);
    repeat match goal with |- context [Z.ltb ?a ?b] => destruct (Z.ltb_spec a b) end;
    repeat constructor; cbn [fst snd]; lia.
Qed.

Lemma hits_toggles (size row col : Z) (r c : nat) :
  in_range size (row, col) ->
  Z.of_nat r < size -> Z.of_nat c < size ->
  hits (toggles size row col) r c
  = if self_or_neighbourb row col (Z.of_nat r) (Z.of_nat c) then 1%nat else 0%nat.
Proof.
  intros [Hr Hc] Hrs Hcs. cbn [fst snd] in *.
  unfold toggles, self_or_neighbourb.
  destruct (Z.ltb_spec 0 row), (Z.ltb_spec row (size - 1)),
    (Z.ltb_spec 0 col), (Z.ltb_spec col (size - 1));
    cbn [hits app fst snd]; split_eqb; reflexivity.
Qed.

(** ** apply_move on values *)

Lemma apply_move_cells (size : Z) (g : grid) (row col : Z) :
  square size g -> in_range size (row, col) ->
  exists g', apply_move size g row col = Ok g' /\ square size g'
             /\ forall r c, (r < Z.to_nat size)%nat -> (c < Z.to_nat size)%nat ->
                            cell g' r c
                            = if self_or_neighbourb row col (Z.of_nat r) (Z.of_nat c)
                              then 1 - cell g r c else cell g r c.
Proof.
  intros Hsq Hin. unfold apply_move.
  destruct (toggle_each_in_range size (toggles size row col) g Hsq
              (toggles_in_range size row col Hin)) as (g' & Hg' & Hsq' & Hcell).
  exists g'. split; [assumption|]. split; [assumption|].
  intros r c Hr Hc. rewrite (Hcell r c Hr Hc).
  rewrite (hits_toggles size row col r c Hin) by lia.
  destruct (self_or_neighbourb _ _ _ _); reflexivity.
Qed.

Lemma bits_cells (size : Z) (g : grid) :
  square size g ->
  bits g <-> (forall r c, (r < Z.to_nat size)%nat -> (c < Z.to_nat size)%nat ->
                          is_bit (cell g r c)).
Proof.
  intros Hsq. unfold bits. split.
  - intros Hb r c Hr Hc.
    destruct (square_row size g r Hsq Hr) as (rw & Hrw & Hlen).
    destruct (lookup_lt_is_Some_2 rw c) as [v Hv]; [lia|].
    unfold cell, mget. rewrite (row_of_lookup _ _ _ Hrw), (zget_lookup _ _ _ Hv).
    rewrite Forall_lookup in Hb. specialize (Hb r rw Hrw).
    rewrite Forall_lookup in Hb. eauto.
  - intros Hc. apply Forall_lookup. intros r rw Hrw.
    apply Forall_lookup. intros c v Hv.
    assert (Hr : (r < Z.to_nat size)%nat).
    { destruct Hsq as [<- _]. eapply lookup_lt_Some; eassumption. }
    destruct (square_row size g r Hsq Hr) as (rw' & Hrw' & Hlen).
    assert (rw' = rw) by congruence. subst rw'.
    assert (Hcl : (c < Z.to_nat size)%nat).
    { rewrite <- Hlen. eapply lookup_lt_Some; eassumption. }
    specialize (Hc r c Hr Hcl). unfold cell, mget in Hc.
    rewrite (row_of_lookup _ _ _ Hrw), (zget_lookup _ _ _ Hv) in Hc. assumption.
Qed.

(** C6: pressing the same in-range cell twice gives back the grid. *)
Theorem apply_move_twice (size : Z) (g : grid) (row col : Z) :
  square size g -> bits g -> 0 <= row < size -> 0 <= col < size ->
  exists g1, apply_move size g row col = Ok g1
             /\ apply_move size g1 row col = Ok g.
Proof.
  intros Hsq _ Hr Hc.
  assert (Hin : in_range size (row, col)) by (split; assumption).
  destruct (apply_move_cells size g row col Hsq Hin) as (g1 & E1 & Hsq1 & C1).
  destruct (apply_move_cells size g1 row col Hsq1 Hin) as (g2 & E2 & Hsq2 & C2).
  exists g1. split; [assumption|]. rewrite E2. f_equal.
  apply (grid_ext size); [assumption..|].
  intros r c Hrr Hcc. rewrite (C2 r c Hrr Hcc), (C1 r c Hrr Hcc).
  destruct (self_or_neighbourb _ _ _ _); lia.
Qed.

Lemma apply_move_twice_witness :
  exists g1, apply_move 3 [[0;1;0];[1;1;0];[0;0;1]] 0 2 = Ok g1
             /\ apply_move 3 g1 0 2 = Ok [[0;1;0];[1;1;0];[0;0;1]].
Proof.
  apply (apply_move_twice 3 [[0;1;0];[1;1;0];[0;0;1]] 0 2).
  - split; [reflexivity|]. repeat constructor.
  - repeat constructor; (left; reflexivity) || (right; reflexivity).
  - lia.
  - lia.
Defined.

Lemma apply_move_keeps_bits (size : Z) (g : grid) (row col : Z) :
  square size g -> bits g -> in_range size (row, col) ->
  exists g', apply_move size g row col = Ok g' /\ square size g' /\ bits g'.
Proof.
  intros Hsq Hb Hin.
  destruct (apply_move_cells size g row col Hsq Hin) as (g' & E & Hsq' & C).
  exists g'. split; [assumption|]. split; [assumption|].
  apply (bits_cells size g' Hsq'). intros r c Hrr Hcc.
  rewrite (C r c Hrr Hcc).
  pose proof (proj1 (bits_cells size g Hsq) Hb r c Hrr Hcc) as Hv.
  unfold is_bit in *. destruct (self_or_neighbourb _ _ _ _); lia.
Qed.

(** C10: [apply_move] keeps the grid [size] by [size] with entries in
    {0, 1}. *)
Theorem apply_move_invariant (size : Z) (g : grid) (row col : Z) :
  square size g -> bits g -> 0 <= row < size -> 0 <= col < size ->
  exists g', apply_move size g row col = Ok g' /\ square size g' /\ bits g'.
Proof.
  intros Hsq Hb Hr Hc. apply apply_move_keeps_bits; [assumption..|].
  split; assumption.
Qed.

Lemma apply_move_invariant_witness :
  exists g', apply_move 2 [[1;0];[0;1]] 1 0 = Ok g' /\ square 2 g' /\ bits g'.
Proof.
  apply (apply_move_invariant 2 [[1;0];[0;1]] 1 0).
  - split; [reflexivity|]. repeat constructor.
  - repeat constructor; (left; reflexivity) || (right; reflexivity).
  - lia.
  - lia.
Defined.

(** ** apply_move on the store *)

Lemma row_at_app_l (h k : store) (l : loc) :
  (l < length h)%nat -> row_at (h ++ k) l = row_at h l.
Proof. intros H. unfold row_at. rewrite lookup_app_l by assumption. reflexivity. Qed.

Lemma read_grid_app_l (h k : store) (g : list loc) :
  allocated h g -> read_grid (h ++ k) g = read_grid h g.
Proof.
  intros H. unfold read_grid. apply map_ext_in. intros l Hl.
  apply row_at_app_l. unfold allocated in H. rewrite List.Forall_forall in H. auto.
Qed.

Lemma copy_rows_spec (g : list loc) :
  forall h : store,
    allocated h g ->
    copy_rows h g = (h ++ read_grid h g, seq (length h) (length g)).
Proof.
  induction g as [|l g IH]; intros h Hall.
  - cbn. rewrite app_nil_r. reflexivity.
  - inversion Hall as [|? ? Hl Hg]; subst. cbn [copy_rows].
    assert (Hall' : allocated (h ++ [row_at h l]) g).
    { unfold allocated in *. eapply Forall_impl; [exact Hg|].
      cbn. intros. rewrite length_app. lia. }
    rewrite (IH _ Hall'). rewrite (read_grid_app_l h [row_at h l] g Hg).
    rewrite length_app. cbn [length read_grid map].
    rewrite <- app_assoc. cbn [app].
    replace (length h + 1)%nat with (S (length h)) by lia. reflexivity.
Qed.

Lemma read_grid_fresh (h : store) (rows : list (list Z)) :
  read_grid (h ++ rows) (seq (length h) (length rows)) = rows.
Proof.
  unfold read_grid. apply list_eq. intros i.
  rewrite list_lookup_fmap.
  destruct (decide (i < length rows)%nat) as [Hlt|Hge].
  - rewrite lookup_seq_lt by assumption. cbn. unfold row_at.
    rewrite lookup_app_r by lia.
    replace (length h + i - length h)%nat with i by lia.
    destruct (lookup_lt_is_Some_2 rows i Hlt) as [rw ->]. reflexivity.
  - rewrite lookup_seq_ge by lia. rewrite lookup_ge_None_2 by lia. reflexivity.
Qed.

Lemma toggle_length (g g' : grid) (rc : Z * Z) :
  toggle g rc = Ok g' -> length g' = length g.
Proof.
  unfold toggle.
  destruct (py_index (length g) (fst rc)); [|discriminate].
  destruct (g !! n) as [rw|]; [|discriminate].
  destruct (py_index (length rw) (snd rc)); [|discriminate].
  destruct (rw !! n0); [|discriminate].
  intros [= <-]. apply length_insert.
Qed.

Lemma toggle_heap_fresh (h : store) (rows : list (list Z)) (rc : Z * Z) :
  toggle_heap (seq (length h) (length rows)) (h ++ rows) rc
  = match toggle rows rc with
    | Ok rows' => Ok (h ++ rows')
    | IndexError => IndexError
    end.
Proof.
  unfold toggle_heap, toggle. rewrite length_seq.
  destruct (py_index (length rows) (fst rc)) as [r|] eqn:Er; [|reflexivity].
  pose proof (py_index_Some_lt _ _ _ Er) as Hr.
  rewrite lookup_seq_lt by assumption.
  destruct (lookup_lt_is_Some_2 rows r Hr) as [rw Hrw]. rewrite Hrw.
  assert (Hat : row_at (h ++ rows) (length h + r) = rw).
  { unfold row_at. rewrite lookup_app_r by lia.
    replace (length h + r - length h)%nat with r by lia. rewrite Hrw. reflexivity. }
  rewrite Hat.
  destruct (py_index (length rw) (snd rc)) as [c|]; [|reflexivity].
  destruct (rw !! c) as [v|]; [|reflexivity].
  rewrite insert_app_r. reflexivity.
Qed.

Lemma toggle_each_heap_fresh (h : store) (ts : list (Z * Z)) :
  forall rows : list (list Z),
  exists rows',
    length rows' = length rows
    /\ fst (toggle_each_heap (seq (length h) (length rows)) (h ++ rows) ts)
       = h ++ rows'
    /\ match toggle_each rows ts with
       | Ok g' =>
           rows' = g'
           /\ snd (toggle_each_heap (seq (length h) (length rows)) (h ++ rows) ts)
              = Ok tt
       | IndexError =>
           snd (toggle_each_heap (seq (length h) (length rows)) (h ++ rows) ts)
           = IndexError
       end.
Proof.
  induction ts as [|t ts IH]; intros rows.
  - exists rows. cbn. auto.
  - cbn [toggle_each_heap toggle_each]. rewrite toggle_heap_fresh.
    destruct (toggle rows t) as [rows1|] eqn:Et.
    + pose proof (toggle_length _ _ _ Et) as Hlen.
      destruct (IH rows1) as (rows' & Hl & Hf & Hs).
      rewrite Hlen in Hf, Hs. exists rows'.
      split; [congruence|]. split; assumption.
    + exists rows. cbn. auto.
Qed.

(** The store after [apply_move] is the old store followed by fresh row
    objects, whatever the arguments; the outcome and the rows of the
    returned grid are those of [apply_move] on values. *)
Lemma apply_move_heap_frame (size : Z) (h : store) (g : list loc) (row col : Z) :
  allocated h g ->
  exists rows',
    fst (apply_move_heap size h g row col) = h ++ rows'
    /\ length rows' = length g
    /\ match apply_move size (read_grid h g) row col with
       | Ok g' =>
           rows' = g'
           /\ snd (apply_move_heap size h g row col)
              = Ok (seq (length h) (length g))
       | IndexError => snd (apply_move_heap size h g row col) = IndexError
       end.
Proof.
  intros Hall. unfold apply_move_heap, apply_move.
  rewrite (copy_rows_spec g h Hall).
  assert (Hlen : length g = length (read_grid h g)).
  { unfold read_grid. rewrite length_map. reflexivity. }
  rewrite Hlen.
  destruct (toggle_each_heap_fresh h (toggles size row col) (read_grid h g))
    as (rows' & Hl & Hf & Hs).
  exists rows'.
  destruct (toggle_each_heap _ _ _) as [h2 [[]|]]; cbn [fst snd] in *.
  - split; [assumption|]. split; [assumption|].
    destruct (toggle_each _ _); [|discriminate]. destruct Hs. auto.
  - split; [assumption|]. split; [assumption|].
    destruct (toggle_each _ _); [|reflexivity]. destruct Hs. discriminate.
Qed.

(** C7: [apply_move] leaves every row object of the caller's store as it
    was (so the caller's grid reads the same after the call), and returns a
    fresh grid in which exactly the pressed cell and its existing orthogonal
    neighbours hold [1 - v] (0 and 1 exchanged) and every other cell holds
    the value [v] it had. *)
Theorem apply_move_does_not_mutate
  (size : Z) (h : store) (g : list loc) (row col : Z) :
  allocated h g -> square size (read_grid h g) ->
  0 <= row < size -> 0 <= col < size ->
  exists h' g',
    apply_move_heap size h g row col = (h', Ok g')
    /\ (forall l, (l < length h)%nat -> h' !! l = h !! l)
    /\ read_grid h' g = read_grid h g
    /\ apply_move size (read_grid h g) row col = Ok (read_grid h' g')
    /\ forall r c, 0 <= r < size -> 0 <= c < size ->
         (self_or_neighbour row col r c ->
          cell (read_grid h' g') (Z.to_nat r) (Z.to_nat c)
          = 1 - cell (read_grid h g) (Z.to_nat r) (Z.to_nat c))
         /\ (~ self_or_neighbour row col r c ->
             cell (read_grid h' g') (Z.to_nat r) (Z.to_nat c)
             = cell (read_grid h g) (Z.to_nat r) (Z.to_nat c)).
Proof.
  intros Hall Hsq Hr Hc.
  assert (Hin : in_range size (row, col)) by (split; assumption).
  destruct (apply_move_heap_frame size h g row col Hall) as (rows' & Hf & Hl & Hs).
  destruct (apply_move_cells size (read_grid h g) row col Hsq Hin)
    as (g' & E & Hsq' & C).
  rewrite E in Hs. destruct Hs as [-> Hs].
  exists (h ++ g'), (seq (length h) (length g)).
  split; [rewrite <- Hf, <- Hs; apply surjective_pairing|].
  split; [intros l Hlt; apply lookup_app_l; assumption|].
  split; [apply read_grid_app_l; assumption|].
  rewrite <- Hl, read_grid_fresh.
  split; [assumption|].
  intros r c Hrr Hcc.
  rewrite (C (Z.to_nat r) (Z.to_nat c)) by lia. rewrite !Z2Nat.id by lia.
  pose proof (self_or_neighbourb_spec row col r c) as Hspec.
  destruct (self_or_neighbourb row col r c).
  - split; [reflexivity|]. intros Hn. exfalso. apply Hn, Hspec. reflexivity.
  - split; [|reflexivity]. intros Hy. apply Hspec in Hy. discriminate.
Qed.

(** Both rows of the caller's grid are the same object here. *)
Lemma apply_move_does_not_mutate_witness :
  exists h' g',
    apply_move_heap 2 [[0;1]; [1;0]; [0;1]] [2%nat; 2%nat] 0 1 = (h', Ok g')
    /\ (forall l, (l < 3)%nat -> h' !! l = [[0;1]; [1;0]; [0;1]] !! l)
    /\ read_grid h' [2%nat; 2%nat] = [[0;1]; [0;1]]
    /\ apply_move 2 [[0;1]; [0;1]] 0 1 = Ok (read_grid h' g')
    /\ forall r c, 0 <= r < 2 -> 0 <= c < 2 ->
         (self_or_neighbour 0 1 r c ->
          cell (read_grid h' g') (Z.to_nat r) (Z.to_nat c)
          = 1 - cell [[0;1]; [0;1]] (Z.to_nat r) (Z.to_nat c))
         /\ (~ self_or_neighbour 0 1 r c ->
             cell (read_grid h' g') (Z.to_nat r) (Z.to_nat c)
             = cell [[0;1]; [0;1]] (Z.to_nat r) (Z.to_nat c)).
Proof.
  apply (apply_move_does_not_mutate 2 [[0;1]; [1;0]; [0;1]] [2%nat; 2%nat] 0 1).
  - repeat constructor.
  - split; [reflexivity|]. repeat constructor.
  - lia.
  - lia.
Defined.

(** ** Coordinates outside the grid *)

Lemma py_index_wraps (len : nat) (i : Z) :
  - Z.of_nat len <= i < Z.of_nat len ->
  exists k, py_index len i = Some k /\ (k < len)%nat.
Proof.
  intros H. destruct (Z_lt_le_dec i 0).
  - rewrite py_index_negative by lia. eexists. split; [reflexivity|lia].
  - rewrite py_index_in_range by lia. eexists. split; [reflexivity|lia].
Qed.

Lemma toggle_subscriptable (size : Z) (g : grid) (rc : Z * Z) :
  square size g -> subscriptable size rc ->
  exists g', toggle g rc = Ok g' /\ square size g'.
Proof.
  intros Hsq [Hr Hc]. unfold toggle.
  destruct (py_index_wraps (length g) (fst rc)) as (r & -> & Hrl);
    [destruct Hsq; lia|].
  destruct (square_row size g r Hsq) as (rw & Hrw & Hlen); [destruct Hsq; lia|].
  rewrite Hrw.
  destruct (py_index_wraps (length rw) (snd rc)) as (c & -> & Hcl); [lia|].
  destruct (lookup_lt_is_Some_2 rw c Hcl) as [v Hv]. rewrite Hv.
  eexists. split; [reflexivity|].
  pose proof (square_flip_cell size g r c Hsq) as Hf.
  unfold flip_cell, cell, mget in Hf.
  rewrite (row_of_lookup _ _ _ Hrw), (zget_lookup _ _ _ Hv) in Hf. exact Hf.
Qed.

Lemma toggle_each_subscriptable (size : Z) (ts : list (Z * Z)) :
  forall g : grid,
    square size g -> Forall (subscriptable size) ts ->
    exists g', toggle_each g ts = Ok g' /\ square size g'.
Proof.
  induction ts as [|t ts IH]; intros g Hsq Hall.
  - exists g. cbn. auto.
  - inversion Hall as [|? ? Ht Hts]; subst. cbn [toggle_each].
    destruct (toggle_subscriptable size g t Hsq Ht) as (g1 & -> & Hsq1).
    apply IH; assumption.
Qed.

Lemma toggles_subscriptable (size row col : Z) :
  subscriptable size (row, col) -> Forall (subscriptable size) (toggles size row col).
Proof.
  intros [Hr Hc]. cbn [fst snd] in *. unfold toggles.
  repeat (apply Forall_app; split);
    repeat match goal with |- context [Z.ltb ?a ?b] => destruct (Z.ltb_spec a b) end;
    repeat constructor; cbn [fst snd]; lia.
Qed.

Lemma apply_move_raises_iff (size : Z) (g : grid) (row col : Z) :
  square size g ->
  apply_move size g row col = IndexError <-> ~ subscriptable size (row, col).
Proof.
  intros Hsq. split.
  - intros E Hsub.
    destruct (toggle_each_subscriptable size (toggles size row col) g Hsq
                (toggles_subscriptable size row col Hsub)) as (g' & Hg' & _).
    unfold apply_move in E. congruence.
  - intros Hn. unfold apply_move, toggles. cbn [app toggle_each].
    assert (Et : toggle g (row, col) = IndexError).
    { unfold toggle. cbn [fst snd].
      destruct (py_index (length g) row) as [r|] eqn:Er; [|reflexivity].
      pose proof (py_index_Some_lt _ _ _ Er) as Hrl.
      destruct (square_row size g r Hsq) as (rw & Hrw & Hlen); [destruct Hsq; lia|].
      rewrite Hrw.
      destruct (Z_lt_le_dec row (- size)) as [Hlo|Hlo].
      { rewrite py_index_outside in Er by (destruct Hsq; lia). discriminate. }
      destruct (Z_lt_le_dec row size) as [Hhi|Hhi].
      2:{ rewrite py_index_outside in Er by (destruct Hsq; lia). discriminate. }
      rewrite py_index_outside; [reflexivity|].
      unfold subscriptable in Hn. cbn [fst snd] in Hn. lia. }
    rewrite Et. reflexivity.
Qed.

(** C8, as the code behaves: [apply_move] has no coordinate check of its
    own.  Called with [row] or [col] outside [0, size) it never changes a
    row object of the caller's store, and it raises (the [IndexError] of the
    list subscript) exactly when [row] or [col] is outside [-size, size); a
    negative coordinate down to [-size] wraps around and a grid is
    returned. *)
Theorem apply_move_unchecked_coordinates
  (size : Z) (h : store) (g : list loc) (row col : Z) :
  allocated h g -> square size (read_grid h g) ->
  ~ (0 <= row < size /\ 0 <= col < size) ->
  (forall l, (l < length h)%nat ->
             fst (apply_move_heap size h g row col) !! l = h !! l)
  /\ read_grid (fst (apply_move_heap size h g row col)) g = read_grid h g
  /\ (snd (apply_move_heap size h g row col) = IndexError
      <-> ~ (- size <= row < size /\ - size <= col < size)).
Proof.
  intros Hall Hsq _.
  destruct (apply_move_heap_frame size h g row col Hall) as (rows' & Hf & Hl & Hs).
  rewrite Hf.
  split; [intros l Hlt; apply lookup_app_l; assumption|].
  split; [apply read_grid_app_l; assumption|].
  pose proof (apply_move_raises_iff size (read_grid h g) row col Hsq) as Hiff.
  unfold subscriptable in Hiff. cbn [fst snd] in Hiff. rewrite <- Hiff.
  destruct (apply_move size (read_grid h g) row col).
  - destruct Hs as [_ ->]. split; discriminate.
  - split; auto.
Qed.

Lemma apply_move_unchecked_coordinates_witness :
  (forall l, (l < 2)%nat ->
             fst (apply_move_heap 2 [[0;0]; [0;0]] [0%nat; 1%nat] 2 0) !! l
             = [[0;0]; [0;0]] !! l)
  /\ read_grid (fst (apply_move_heap 2 [[0;0]; [0;0]] [0%nat; 1%nat] 2 0))
               [0%nat; 1%nat] = [[0;0]; [0;0]]
  /\ (snd (apply_move_heap 2 [[0;0]; [0;0]] [0%nat; 1%nat] 2 0) = IndexError
      <-> ~ (- 2 <= 2 < 2 /\ - 2 <= 0 < 2)).
Proof.
  apply (apply_move_unchecked_coordinates 2 [[0;0]; [0;0]] [0%nat; 1%nat] 2 0).
  - repeat constructor.
  - split; [reflexivity|]. repeat constructor.
  - lia.
Defined.

(** C8 fails as stated: row [-1] is outside [0, 3), yet the call returns a
    grid in which three cells have been toggled. *)
Lemma apply_move_negative_row_accepted :
  apply_move_heap 3 [[0;0;0]; [0;0;0]; [0;0;0]] [0%nat; 1%nat; 2%nat] (-1) 0
  = ([[0;0;0]; [0;0;0]; [0;0;0]; [1;0;0]; [0;0;0]; [1;1;0]],
     Ok [3%nat; 4%nat; 5%nat])
  /\ apply_move 3 [[0;0;0]; [0;0;0]; [0;0;0]] (-1) 0
     = Ok [[1;0;0]; [0;0;0]; [1;1;0]]
  /\ snd (apply_move_heap 3 [[0;0;0]; [0;0;0]; [0;0;0]]
                          [0%nat; 1%nat; 2%nat] (-1) 0) <> IndexError.
Proof. split; [|split]; [reflexivity | reflexivity | discriminate]. Qed.

(** ** The transition matrix *)

Lemma shape_row (r c : nat) (M : list (list Z)) (i : nat) :
  shape r c M -> (i < r)%nat -> exists rw, M !! i = Some rw /\ length rw = c.
Proof.
  intros [Hl Hr] Hlt.
  destruct (lookup_lt_is_Some_2 M i) as [rw Hrw]; [lia|].
  exists rw. split; [assumption|]. rewrite Forall_lookup in Hr. eauto.
Qed.

Lemma shape_row_of (r c : nat) (M : list (list Z)) (i : nat) :
  shape r c M -> (i < r)%nat -> length (row_of M i) = c.
Proof.
  intros Hs Hlt. destruct (shape_row r c M i Hs Hlt) as (rw & Hrw & Hlen).
  rewrite (row_of_lookup _ _ _ Hrw). assumption.
Qed.

Lemma shape_insert (r c : nat) (M : list (list Z)) (i : nat) (rw : list Z) :
  shape r c M -> length rw = c -> shape r c (<[i := rw]> M).
Proof.
  intros [Hl Hr] Hlen. split.
  - rewrite length_insert. assumption.
  - destruct (decide (i < length M)%nat).
    + apply Forall_insert; assumption.
    + rewrite list_insert_ge by lia. assumption.
Qed.

Lemma shape_zeros (r c : nat) : shape r c (np_zeros2 r c).
Proof.
  unfold np_zeros2. split.
  - apply length_replicate.
  - apply Forall_replicate. apply length_replicate.
Qed.

Lemma mget_zeros (r c i j : nat) : mget (np_zeros2 r c) i j = 0.
Proof.
  unfold mget, row_of, zget, np_zeros2.
  destruct (replicate r (replicate c 0) !! i) as [rw|] eqn:Ei;
    cbn [default from_option id].
  - apply lookup_replicate_1 in Ei as [-> _].
    destruct (replicate c 0 !! j) as [v|] eqn:Ej; cbn [default from_option id];
      [|reflexivity].
    apply lookup_replicate_1 in Ej as [-> _]. reflexivity.
  - reflexivity.
Qed.

Lemma mset_insert (A : list (list Z)) (i j : nat) (v : Z) :
  mset A i j v = <[i := <[j := v]> (row_of A i)]> A.
Proof.
  unfold mset, row_of. apply list_eq. intros k.
  destruct (decide (i = k)) as [->|Hne].
  - rewrite list_lookup_alter_eq.
    destruct (A !! k) as [rw|] eqn:E.
    + rewrite list_lookup_insert_eq by (eapply lookup_lt_Some; eassumption).
      reflexivity.
    + rewrite list_insert_ge by (apply lookup_ge_None; assumption).
      rewrite E. reflexivity.
  - rewrite list_lookup_alter_ne, list_lookup_insert_ne by assumption. reflexivity.
Qed.

Lemma mget_mset (n : nat) (A : list (list Z)) (i j i' j' : nat) (v : Z) :
  shape n n A -> (i < n)%nat -> (j < n)%nat ->
  mget (mset A i j v) i' j'
  = if (i =? i')%nat && (j =? j')%nat then v else mget A i' j'.
Proof.
  intros Hs Hi Hj. rewrite mset_insert. unfold mget.
  rewrite row_of_insert.
  destruct (Nat.eqb_spec i i') as [<-|Hne]; cbn [andb].
  - rewrite decide_True by (destruct Hs; split; [reflexivity|lia]).
    rewrite zget_insert. rewrite (shape_row_of n n A i Hs Hi).
    destruct (Nat.eqb_spec j j') as [<-|Hne].
    + rewrite decide_True by auto. reflexivity.
    + rewrite decide_False by (intros [? _]; auto). reflexivity.
  - rewrite decide_False by (intros [? _]; auto). reflexivity.
Qed.

Lemma shape_mset (n : nat) (A : list (list Z)) (i j : nat) (v : Z) :
  shape n n A -> (i < n)%nat -> shape n n (mset A i j v).
Proof.
  intros Hs Hi. rewrite mset_insert. apply shape_insert; [assumption|].
  rewrite length_insert. apply (shape_row_of n n A i Hs Hi).
Qed.

Lemma build_toggles_fold (size : Z) (n i : nat) (ts : list (Z * Z)) :
  (i < n)%nat ->
  Forall (fun rc => (Z.to_nat (_pos_to_idx size (fst rc) (snd rc)) < n)%nat) ts ->
  forall A : list (list Z),
    shape n n A ->
    let A' := foldl (fun A rc =>
                       mset A i (Z.to_nat (_pos_to_idx size (fst rc) (snd rc))) 1)
                    A ts in
    shape n n A'
    /\ forall i' j', mget A' i' j'
                     = if (i =? i')%nat && flattens_to size ts j' then 1
                       else mget A i' j'.
Proof.
  intros Hi Hall. induction Hall as [|t ts Ht Hts IH]; intros A Hs.
  - cbn. split; [assumption|]. intros. rewrite andb_false_r. reflexivity.
  - cbn [foldl].
    destruct (IH (mset A i (Z.to_nat (_pos_to_idx size (fst t) (snd t))) 1))
      as [Hs' Hc]; [apply shape_mset; assumption|].
    split; [assumption|]. intros i' j'. cbn zeta in Hc. rewrite Hc.
    rewrite (mget_mset n) by assumption. unfold flattens_to. cbn [existsb].
    fold (flattens_to size ts j').
    destruct (i =? i')%nat, (flattens_to size ts j'),
      (Z.to_nat (_pos_to_idx size (fst t) (snd t)) =? j')%nat; reflexivity.
Qed.

(** *** Row-major indices *)

Lemma idx_to_pos_in_range (size i : Z) :
  0 < size -> 0 <= i < size * size -> in_range size (_idx_to_pos size i).
Proof.
  intros Hs H.
  unfold in_range, _idx_to_pos. cbn [fst snd].
  pose proof (Z.mod_pos_bound i size ltac:(lia)).
  pose proof (Z.div_mod i size ltac:(lia)).
  assert (0 <= i / size) by (apply Z.div_pos; lia).
  assert (i / size < size) by (apply Z.div_lt_upper_bound; lia).
  lia.
Qed.

Lemma pos_to_idx_bounds (size : Z) (rc : Z * Z) :
  in_range size rc -> 0 <= _pos_to_idx size (fst rc) (snd rc) < size * size.
Proof. intros [Hr Hc]. unfold _pos_to_idx. nia. Qed.

Lemma pos_to_idx_to_pos (size i : Z) :
  0 < size ->
  _pos_to_idx size (fst (_idx_to_pos size i)) (snd (_idx_to_pos size i)) = i.
Proof.
  intros H. unfold _pos_to_idx, _idx_to_pos. cbn [fst snd].
  pose proof (Z.div_mod i size ltac:(lia)). lia.
Qed.

Lemma idx_to_pos_to_idx (size : Z) (rc : Z * Z) :
  in_range size rc -> _idx_to_pos size (_pos_to_idx size (fst rc) (snd rc)) = rc.
Proof.
  intros [Hr Hc]. unfold _pos_to_idx, _idx_to_pos. destruct rc as [r c].
  cbn [fst snd] in *. f_equal.
  - rewrite Z.div_add_l by lia. rewrite Z.div_small by lia. lia.
  - rewrite Z.add_comm, Z.mod_add by lia. apply Z.mod_small. lia.
Qed.

Lemma pos_to_idx_eqb (size : Z) (rc : Z * Z) (j : nat) :
  in_range size rc -> Z.of_nat j < size * size ->
  (Z.to_nat (_pos_to_idx size (fst rc) (snd rc)) =? j)%nat
  = (fst rc =? Z.of_nat (Z.to_nat (Z.of_nat j / size)))
    && (snd rc =? Z.of_nat (Z.to_nat (Z.of_nat j mod size))).
Proof.
  intros Hin Hj.
  pose proof (pos_to_idx_bounds size rc Hin) as Hb.
  pose proof (idx_to_pos_to_idx size rc Hin) as Hrt.
  assert (Hs : 0 < size) by (destruct Hin; lia).
  pose proof (idx_to_pos_in_range size (Z.of_nat j) Hs ltac:(lia)) as [Hjr Hjc].
  pose proof (pos_to_idx_to_pos size (Z.of_nat j) Hs) as Hjrt.
  unfold _idx_to_pos in *. cbn [fst snd] in *.
  rewrite !Z2Nat.id by lia.
  destruct (Nat.eqb_spec (Z.to_nat (_pos_to_idx size (fst rc) (snd rc))) j) as [E|E].
  - assert (E' : _pos_to_idx size (fst rc) (snd rc) = Z.of_nat j) by lia.
    rewrite E' in Hrt. rewrite <- Hrt. cbn [fst snd]. rewrite !Z.eqb_refl. reflexivity.
  - destruct (Z.eqb_spec (fst rc) (Z.of_nat j / size)) as [E1|E1]; [|reflexivity].
    destruct (Z.eqb_spec (snd rc) (Z.of_nat j mod size)) as [E2|E2]; [|reflexivity].
    exfalso. apply E. rewrite E1, E2, Hjrt. lia.
Qed.

Lemma flattens_to_hits (size : Z) (ts : list (Z * Z)) (j : nat) :
  Forall (in_range size) ts -> Z.of_nat j < size * size ->
  flattens_to size ts j
  = (0 <? hits ts (Z.to_nat (Z.of_nat j / size)) (Z.to_nat (Z.of_nat j mod size)))%nat.
Proof.
  intros Hall Hj. induction Hall as [|t ts Ht Hts IH].
  - reflexivity.
  - unfold flattens_to in *. cbn [existsb hits]. rewrite IH.
    rewrite (pos_to_idx_eqb size t j Ht Hj).
    destruct (_ && _); cbn [orb Nat.add]; reflexivity.
Qed.

(** The predicate of the statement of C5 on linear indices. *)
Lemma flattens_to_toggles (size : Z) (i j : nat) :
  0 < size -> Z.of_nat i < size * size -> Z.of_nat j < size * size ->
  flattens_to size (toggles size (fst (_idx_to_pos size (Z.of_nat i)))
                            (snd (_idx_to_pos size (Z.of_nat i)))) j
  = self_or_neighbourb (fst (_idx_to_pos size (Z.of_nat i)))
                       (snd (_idx_to_pos size (Z.of_nat i)))
                       (fst (_idx_to_pos size (Z.of_nat j)))
                       (snd (_idx_to_pos size (Z.of_nat j))).
Proof.
  intros Hs Hi Hj.
  pose proof (idx_to_pos_in_range size (Z.of_nat i) Hs ltac:(lia)) as Hin.
  pose proof (idx_to_pos_in_range size (Z.of_nat j) Hs ltac:(lia)) as [Hjr Hjc].
  destruct (_idx_to_pos size (Z.of_nat i)) as [row col] eqn:Ei.
  unfold _idx_to_pos in Hjr, Hjc |- *. cbn [fst snd] in *.
  rewrite (flattens_to_hits size _ j (toggles_in_range size row col Hin) Hj).
  rewrite (hits_toggles size row col _ _ Hin) by lia.
  rewrite !Z2Nat.id by lia.
  destruct (self_or_neighbourb _ _ _ _); reflexivity.
Qed.

Lemma toggles_idx_in_range (size : Z) (i : nat) :
  0 < size -> Z.of_nat i < size * size ->
  Forall (fun rc => (Z.to_nat (_pos_to_idx size (fst rc) (snd rc))
                     < Z.to_nat (size * size))%nat)
         (toggles_of size i).
Proof.
  intros Hs Hi. unfold toggles_of.
  pose proof (idx_to_pos_in_range size (Z.of_nat i) Hs ltac:(lia)) as Hin.
  destruct (_idx_to_pos size (Z.of_nat i)) as [row col]. cbn [fst snd].
  eapply Forall_impl; [apply (toggles_in_range size row col Hin)|].
  intros rc Hrc. pose proof (pos_to_idx_bounds size rc Hrc). lia.
Qed.

Lemma build_row_spec (size : Z) (A : list (list Z)) (i : nat) :
  0 < size -> Z.of_nat i < size * size ->
  shape (Z.to_nat (size * size)) (Z.to_nat (size * size)) A ->
  shape (Z.to_nat (size * size)) (Z.to_nat (size * size)) (build_row size A i)
  /\ forall i' j', mget (build_row size A i) i' j'
                   = if (i =? i')%nat && flattens_to size (toggles_of size i) j'
                     then 1 else mget A i' j'.
Proof.
  intros Hs Hi Hsh.
  pose proof (build_toggles_fold size (Z.to_nat (size * size)) i
                (toggles_of size i) ltac:(lia)
                (toggles_idx_in_range size i Hs Hi) A Hsh) as H.
  cbn zeta in H. unfold build_row, toggles_of in *.
  destruct (_idx_to_pos size (Z.of_nat i)) as [row col]. exact H.
Qed.

Lemma build_rows_spec (size : Z) (rows : list nat) :
  0 < size -> Forall (fun i => Z.of_nat i < size * size) rows ->
  forall A : list (list Z),
    shape (Z.to_nat (size * size)) (Z.to_nat (size * size)) A ->
    shape (Z.to_nat (size * size)) (Z.to_nat (size * size))
          (foldl (build_row size) A rows)
    /\ forall i' j', mget (foldl (build_row size) A rows) i' j'
                     = if existsb (Nat.eqb i') rows
                          && flattens_to size (toggles_of size i') j'
                       then 1 else mget A i' j'.
Proof.
  intros Hs Hall. induction Hall as [|i rows Hi Hrows IH]; intros A Hsh.
  - cbn. auto.
  - cbn [foldl existsb].
    destruct (build_row_spec size A i Hs Hi Hsh) as [Hsh1 Hc1].
    destruct (IH _ Hsh1) as [Hsh2 Hc2].
    split; [assumption|]. intros i' j'. rewrite Hc2, Hc1.
    rewrite (Nat.eqb_sym i i').
    destruct (Nat.eqb_spec i' i) as [->|Hne]; cbn [orb andb].
    + destruct (existsb _ rows), (flattens_to _ _ _); reflexivity.
    + reflexivity.
Qed.

Lemma existsb_eqb_seq (n i : nat) : (i < n)%nat -> existsb (Nat.eqb i) (seq 0 n) = true.
Proof.
  intros H. apply existsb_exists. exists i. split.
  - apply in_seq. lia.
  - apply Nat.eqb_refl.
Qed.

Lemma transition_matrix_cells (size : Z) :
  0 < size ->
  shape (Z.to_nat (size * size)) (Z.to_nat (size * size))
        (_build_transition_matrix size)
  /\ forall i j, Z.of_nat i < size * size -> Z.of_nat j < size * size ->
                 mget (_build_transition_matrix size) i j
                 = if self_or_neighbourb (fst (_idx_to_pos size (Z.of_nat i)))
                                         (snd (_idx_to_pos size (Z.of_nat i)))
                                         (fst (_idx_to_pos size (Z.of_nat j)))
                                         (snd (_idx_to_pos size (Z.of_nat j)))
                   then 1 else 0.
Proof.
  intros Hs. unfold _build_transition_matrix.
  destruct (build_rows_spec size (seq 0 (Z.to_nat (size * size))) Hs) with
    (A := np_zeros2 (Z.to_nat (size * size)) (Z.to_nat (size * size)))
    as [Hsh Hc].
  { apply List.Forall_forall. intros i Hi. apply in_seq in Hi. lia. }
  { apply shape_zeros. }
  split; [assumption|]. intros i j Hi Hj.
  rewrite Hc, mget_zeros. rewrite existsb_eqb_seq by lia. cbn [andb].
  unfold toggles_of. rewrite (flattens_to_toggles size i j Hs Hi Hj). reflexivity.
Qed.

(** C5: for [size >= 1] the transition matrix is [size * size] square, its
    entry [(i, j)] is 1 exactly when the cell of index [j] is the cell of
    index [i] or one of its orthogonal neighbours (and 0 otherwise), where
    [_idx_to_pos] and [_pos_to_idx] are the row-major bijection between
    in-range cells and indices; and it is symmetric. *)
Theorem transition_matrix_spec (size : Z) (i j : nat) :
  1 <= size -> Z.of_nat i < size * size -> Z.of_nat j < size * size ->
  let A := _build_transition_matrix size in
  let pi := _idx_to_pos size (Z.of_nat i) in
  let pj := _idx_to_pos size (Z.of_nat j) in
  shape (Z.to_nat (size * size)) (Z.to_nat (size * size)) A
  /\ in_range size pi /\ _pos_to_idx size (fst pi) (snd pi) = Z.of_nat i
  /\ in_range size pj /\ _pos_to_idx size (fst pj) (snd pj) = Z.of_nat j
  /\ (mget A i j = 1 <-> self_or_neighbour (fst pi) (snd pi) (fst pj) (snd pj))
  /\ (mget A i j = 0 <-> ~ self_or_neighbour (fst pi) (snd pi) (fst pj) (snd pj))
  /\ mget A i j = mget A j i.
Proof.
  intros Hs Hi Hj A pi pj.
  destruct (transition_matrix_cells size ltac:(lia)) as [Hsh Hc].
  split; [assumption|].
  split; [apply idx_to_pos_in_range; lia|].
  split; [apply pos_to_idx_to_pos; lia|].
  split; [apply idx_to_pos_in_range; lia|].
  split; [apply pos_to_idx_to_pos; lia|].
  subst A pi pj. rewrite (Hc i j Hi Hj), (Hc j i Hj Hi).
  set (pi := _idx_to_pos size (Z.of_nat i)).
  set (pj := _idx_to_pos size (Z.of_nat j)).
  rewrite (self_or_neighbourb_sym (fst pj)).
  pose proof (self_or_neighbourb_spec (fst pi) (snd pi) (fst pj) (snd pj)) as Hspec.
  destruct (self_or_neighbourb (fst pi) (snd pi) (fst pj) (snd pj)).
  - split; [split; [intros _; apply Hspec|]; reflexivity|]. split; [|reflexivity].
    split; [discriminate|]. intros Hn. exfalso. apply Hn, Hspec. reflexivity.
  - split; [|split; [|reflexivity]].
    + split; [discriminate|]. intros Hy. apply Hspec in Hy. discriminate.
    + split; [|reflexivity]. intros _ Hy. apply Hspec in Hy. discriminate.
Qed.

Lemma transition_matrix_spec_witness :
  let A := _build_transition_matrix 3 in
  let pi := _idx_to_pos 3 (Z.of_nat 4) in
  let pj := _idx_to_pos 3 (Z.of_nat 7) in
  shape (Z.to_nat (3 * 3)) (Z.to_nat (3 * 3)) A
  /\ in_range 3 pi /\ _pos_to_idx 3 (fst pi) (snd pi) = Z.of_nat 4
  /\ in_range 3 pj /\ _pos_to_idx 3 (fst pj) (snd pj) = Z.of_nat 7
  /\ (mget A 4 7 = 1 <-> self_or_neighbour (fst pi) (snd pi) (fst pj) (snd pj))
  /\ (mget A 4 7 = 0 <-> ~ self_or_neighbour (fst pi) (snd pi) (fst pj) (snd pj))
  /\ mget A 4 7 = mget A 7 4.
Proof.
  apply (transition_matrix_spec 3 4 7); lia.
Defined.

(** ** Sums *)

Lemma sumZ_ext (n : nat) (f g : nat -> Z) :
  (forall j, (j < n)%nat -> f j = g j) -> sumZ n f = sumZ n g.
Proof.
  induction n as [|n IH]; intros H; cbn [sumZ].
  - reflexivity.
  - rewrite IH by (intros; apply H; lia). rewrite (H n) by lia. reflexivity.
Qed.

Lemma sumZ_add (n : nat) (f g : nat -> Z) :
  sumZ n (fun j => f j + g j) = sumZ n f + sumZ n g.
Proof. induction n as [|n IH]; cbn [sumZ]; lia. Qed.

Lemma sumZ_zero (n : nat) (f : nat -> Z) :
  (forall j, (j < n)%nat -> f j = 0) -> sumZ n f = 0.
Proof.
  induction n as [|n IH]; intros H; cbn [sumZ].
  - reflexivity.
  - rewrite IH by (intros; apply H; lia). rewrite (H n) by lia. reflexivity.
Qed.

Lemma sumZ_single (n p : nat) (f : nat -> Z) :
  (p < n)%nat -> (forall j, (j < n)%nat -> j <> p -> f j = 0) -> sumZ n f = f p.
Proof.
  induction n as [|n IH]; intros Hp H; [lia|]. cbn [sumZ].
  destruct (decide (p = n)) as [->|Hne].
  - rewrite sumZ_zero by (intros; apply H; lia). lia.
  - rewrite IH by (try lia; intros; apply H; lia).
    rewrite (H n) by lia. lia.
Qed.

Lemma sumZ_mod2 (n : nat) (f g : nat -> Z) :
  (forall j, (j < n)%nat -> f j mod 2 = g j mod 2) ->
  sumZ n f mod 2 = sumZ n g mod 2.
Proof.
  induction n as [|n IH]; intros H; cbn [sumZ].
  - reflexivity.
  - rewrite Z.add_mod by lia. rewrite IH by (intros; apply H; lia).
    rewrite (H n) by lia. rewrite <- Z.add_mod by lia. reflexivity.
Qed.

Lemma sumZ_swap (n m : nat) (f : nat -> nat -> Z) :
  sumZ n (fun i => sumZ m (fun j => f i j))
  = sumZ m (fun j => sumZ n (fun i => f i j)).
Proof.
  induction n as [|n IH]; cbn [sumZ].
  - symmetry. apply sumZ_zero. reflexivity.
  - rewrite IH. rewrite <- sumZ_add. reflexivity.
Qed.

(** ** Rows of bits *)

Lemma int64_small (z : Z) : 0 <= z <= 2 -> int64 z = z.
Proof.
  intros H. unfold int64.
  rewrite Z.mod_small; [lia|].
  assert (2 ^ 63 > 2) by reflexivity.
  assert (2 ^ 64 = 2 * 2 ^ 63) by reflexivity. lia.
Qed.

Lemma is_bit_zget (rw : list Z) (j : nat) : Forall is_bit rw -> is_bit (zget rw j).
Proof.
  intros H. unfold zget. destruct (rw !! j) as [v|] eqn:E; cbn.
  - rewrite Forall_lookup in H. eauto.
  - left. reflexivity.
Qed.

Lemma bits_row_of (M : list (list Z)) (r : nat) : bits M -> Forall is_bit (row_of M r).
Proof.
  intros H. unfold row_of. destruct (M !! r) as [rw|] eqn:E; cbn.
  - unfold bits in H. rewrite Forall_lookup in H. eauto.
  - constructor.
Qed.

Lemma is_bit_mget (M : list (list Z)) (r j : nat) : bits M -> is_bit (mget M r j).
Proof. intros H. apply is_bit_zget, bits_row_of, H. Qed.

Lemma bits_insert (M : list (list Z)) (i : nat) (rw : list Z) :
  bits M -> Forall is_bit rw -> bits (<[i := rw]> M).
Proof.
  intros HM Hrw. unfold bits. destruct (decide (i < length M)%nat).
  - apply Forall_insert; assumption.
  - rewrite list_insert_ge by lia. assumption.
Qed.

Lemma add_mod2_length (a b : list Z) (m : nat) :
  length a = m -> length b = m -> length (add_mod2 a b) = m.
Proof. intros Ha Hb. unfold add_mod2. rewrite length_zip_with. lia. Qed.

Lemma add_mod2_zget (a b : list Z) (j : nat) :
  length a = length b -> Forall is_bit a -> Forall is_bit b ->
  zget (add_mod2 a b) j = (zget a j + zget b j) mod 2.
Proof.
  intros Hl Ha Hb. unfold add_mod2, zget. rewrite lookup_zip_with.
  destruct (a !! j) as [u|] eqn:Eu; cbn.
  - destruct (lookup_lt_is_Some_2 b j) as [v Ev].
    { rewrite <- Hl. eapply lookup_lt_Some; eassumption. }
    rewrite Ev. cbn. rewrite int64_small; [reflexivity|].
    rewrite Forall_lookup in Ha, Hb.
    destruct (Ha _ _ Eu), (Hb _ _ Ev); lia.
  - rewrite lookup_ge_None_2; [reflexivity|].
    rewrite <- Hl. apply lookup_ge_None. assumption.
Qed.

Lemma add_mod2_bits (a b : list Z) : Forall is_bit (add_mod2 a b).
Proof.
  unfold add_mod2. apply Forall_lookup. intros j v Hv.
  rewrite lookup_zip_with in Hv.
  destruct (a !! j); cbn in Hv; [|discriminate].
  destruct (b !! j); cbn in Hv; [|discriminate].
  injection Hv as <-. unfold is_bit.
  pose proof (Z.mod_pos_bound (int64 (z + z0)) 2 ltac:(lia)). lia.
Qed.

(** ** Row operations *)

Lemma foldl_seq_S {A : Type} (f : A -> nat -> A) (a : A) (t : nat) :
  foldl f a (seq 0 (S t)) = f (foldl f a (seq 0 t)) t.
Proof. rewrite seq_S. cbn [Nat.add]. apply foldl_snoc. Qed.

Lemma row_of_swap_rows (M : list (list Z)) (i j r : nat) :
  (i < length M)%nat -> (j < length M)%nat ->
  row_of (swap_rows M i j) r
  = if decide (r = i) then row_of M j
    else if decide (r = j) then row_of M i else row_of M r.
Proof.
  intros Hi Hj. unfold swap_rows. rewrite !row_of_insert, length_insert.
  destruct (decide (r = i)) as [->|Hri].
  - rewrite decide_True by auto. reflexivity.
  - rewrite decide_False by (intros [? _]; auto).
    destruct (decide (r = j)) as [->|Hrj].
    + rewrite decide_True by auto. reflexivity.
    + rewrite decide_False by (intros [? _]; auto). reflexivity.
Qed.

Lemma swap_rows_shape (n m : nat) (M : list (list Z)) (i j : nat) :
  shape n m M -> (i < n)%nat -> (j < n)%nat -> shape n m (swap_rows M i j).
Proof.
  intros Hs Hi Hj. unfold swap_rows.
  apply shape_insert; [apply shape_insert; [assumption|]|];
    eapply shape_row_of; eassumption.
Qed.

Lemma swap_rows_bits (M : list (list Z)) (i j : nat) :
  bits M -> bits (swap_rows M i j).
Proof.
  intros Hb. unfold swap_rows.
  apply bits_insert; [apply bits_insert; [assumption|]|]; apply bits_row_of, Hb.
Qed.

Lemma eliminate_row_length (col row : nat) (M : list (list Z)) (r : nat) :
  length (eliminate_row col row M r) = length M.
Proof.
  unfold eliminate_row. destruct (_ && _); [apply length_insert|reflexivity].
Qed.

(** After the rows [0 .. t-1] have been visited, exactly those among them
    that had a 1 in column [col] (the pivot row apart) have received the
    pivot row; the pivot row itself never changes. *)
Lemma eliminate_prefix (M : list (list Z)) (col row n : nat) (t : nat) :
  (t <= n)%nat -> length M = n ->
  length (foldl (eliminate_row col row) M (seq 0 t)) = n
  /\ forall r,
      row_of (foldl (eliminate_row col row) M (seq 0 t)) r
      = if (r <? t)%nat && negb (r =? row)%nat && (mget M r col =? 1)
        then add_mod2 (row_of M r) (row_of M row)
        else row_of M r.
Proof.
  intros Ht Hlen. induction t as [|t IH].
  - cbn. split; [assumption|]. reflexivity.
  - destruct IH as [IHl IHr]; [lia|]. rewrite foldl_seq_S.
    set (Mt := foldl (eliminate_row col row) M (seq 0 t)) in *.
    split; [rewrite eliminate_row_length; assumption|].
    intros r. unfold eliminate_row.
    assert (Ett : row_of Mt t = row_of M t).
    { rewrite IHr. rewrite Nat.ltb_irrefl. reflexivity. }
    assert (Erow : row_of Mt row = row_of M row).
    { rewrite IHr. rewrite Nat.eqb_refl, andb_false_r. reflexivity. }
    unfold mget at 1. rewrite Ett. fold (mget M t col).
    destruct (Nat.eqb_spec r t) as [->|Hne].
    + replace (t <? S t)%nat with true by (symmetry; apply Nat.ltb_lt; lia).
      cbn [andb].
      destruct (negb (t =? row)%nat && (mget M t col =? 1)).
      * rewrite row_of_insert. rewrite decide_True by (split; [reflexivity|lia]).
        rewrite Erow. reflexivity.
      * apply Ett.
    + replace (r <? S t)%nat with (r <? t)%nat.
      2:{ destruct (Nat.ltb_spec r t), (Nat.ltb_spec r (S t)); try reflexivity; lia. }
      destruct (negb (t =? row)%nat && (mget M t col =? 1)).
      * rewrite row_of_insert. rewrite decide_False by (intros [? _]; auto).
        apply IHr.
      * apply IHr.
Qed.

Lemma row_of_eliminate (M : list (list Z)) (col row n r : nat) :
  length M = n ->
  row_of (eliminate M col row n) r
  = if (r <? n)%nat && negb (r =? row)%nat && (mget M r col =? 1)
    then add_mod2 (row_of M r) (row_of M row)
    else row_of M r.
Proof.
  intros Hlen. unfold eliminate.
  apply (eliminate_prefix M col row n n (Nat.le_refl n) Hlen).
Qed.

Lemma eliminate_shape (n m : nat) (M : list (list Z)) (col row : nat) :
  shape n m M -> (row < n)%nat -> shape n m (eliminate M col row n).
Proof.
  intros Hs Hrow. pose proof Hs as [Hl Hr]. split.
  - unfold eliminate. apply (eliminate_prefix M col row n n (Nat.le_refl n) Hl).
  - apply Forall_lookup. intros r rw Hrw.
    pose proof (row_of_lookup _ _ _ Hrw) as E.
    rewrite (row_of_eliminate M col row n r Hl) in E. subst rw.
    assert (Hrn : (r < n)%nat).
    { apply lookup_lt_Some in Hrw. unfold eliminate in Hrw.
      rewrite (proj1 (eliminate_prefix M col row n n (Nat.le_refl n) Hl)) in Hrw.
      assumption. }
    destruct (_ && _).
    + apply add_mod2_length; eapply shape_row_of; eassumption.
    + eapply shape_row_of; eassumption.
Qed.

Lemma eliminate_bits (n : nat) (M : list (list Z)) (col row : nat) :
  length M = n -> bits M -> bits (eliminate M col row n).
Proof.
  intros Hl Hb. unfold bits. apply Forall_lookup. intros r rw Hrw.
  pose proof (row_of_lookup _ _ _ Hrw) as E.
  rewrite (row_of_eliminate M col row n r Hl) in E. subst rw.
  destruct (_ && _); [apply add_mod2_bits|apply bits_row_of, Hb].
Qed.

(** Entries after the elimination of column [col] with pivot row [row]. *)
Lemma mget_eliminate (n m : nat) (M : list (list Z)) (col row r j : nat) :
  shape n m M -> bits M -> (row < n)%nat ->
  mget (eliminate M col row n) r j
  = if (r <? n)%nat && negb (r =? row)%nat && (mget M r col =? 1)
    then (mget M r j + mget M row j) mod 2
    else mget M r j.
Proof.
  intros Hs Hb Hrow. unfold mget at 1.
  rewrite (row_of_eliminate M col row n r (proj1 Hs)).
  destruct (Nat.ltb_spec r n) as [Hr|Hr]; cbn [andb]; [|reflexivity].
  destruct (negb (r =? row)%nat && (mget M r col =? 1)); [|reflexivity].
  rewrite add_mod2_zget; [reflexivity| |apply bits_row_of, Hb..].
  rewrite (shape_row_of n m M r Hs Hr), (shape_row_of n m M row Hs Hrow).
  reflexivity.
Qed.

(** ** Row operations keep the solutions *)

Lemma row_sat_add_mod2 (n : nat) (x a b : list Z) :
  length a = length b -> Forall is_bit a -> Forall is_bit b ->
  row_sat n x b ->
  row_sat n x (add_mod2 a b) <-> row_sat n x a.
Proof.
  intros Hl Ha Hb Hsb. unfold row_sat in *.
  rewrite (add_mod2_zget a b n Hl Ha Hb).
  assert (E : sumZ n (fun j => zget (add_mod2 a b) j * zget x j) mod 2
              = (sumZ n (fun j => zget a j * zget x j)
                 + sumZ n (fun j => zget b j * zget x j)) mod 2).
  { rewrite <- sumZ_add. apply sumZ_mod2. intros j _.
    rewrite (add_mod2_zget a b j Hl Ha Hb).
    rewrite Z.mul_mod_idemp_l by lia. f_equal. lia. }
  rewrite E. clear E.
  set (Sa := sumZ n (fun j => zget a j * zget x j)) in *.
  set (Sb := sumZ n (fun j => zget b j * zget x j)) in *.
  generalize dependent (zget b n). generalize dependent (zget a n).
  intros an bn Hsb. clearbody Sa Sb.
  rewrite Z.mod_mod by lia.
  split; intros H; Z.div_mod_to_equations; lia.
Qed.

Lemma sat_swap_rows (n : nat) (M : list (list Z)) (i j : nat) (x : list Z) :
  length M = n -> (i < n)%nat -> (j < n)%nat ->
  sat n (swap_rows M i j) x <-> sat n M x.
Proof.
  intros Hl Hi Hj. unfold sat. split; intros H r Hr.
  - destruct (decide (r = i)) as [->|Hri].
    + specialize (H j Hj). rewrite row_of_swap_rows in H by lia.
      destruct (decide (j = i)) as [->|]; [assumption|].
      rewrite decide_True in H by reflexivity. assumption.
    + destruct (decide (r = j)) as [->|Hrj].
      * specialize (H i Hi). rewrite row_of_swap_rows in H by lia.
        rewrite decide_True in H by reflexivity. assumption.
      * specialize (H r Hr). rewrite row_of_swap_rows in H by lia.
        rewrite !decide_False in H by assumption. assumption.
  - rewrite row_of_swap_rows by lia.
    destruct (decide (r = i)); [auto|]. destruct (decide (r = j)); auto.
Qed.

Lemma sat_eliminate (n : nat) (M : list (list Z)) (col row : nat) (x : list Z) :
  shape n (S n) M -> bits M -> (row < n)%nat ->
  sat n (eliminate M col row n) x <-> sat n M x.
Proof.
  intros Hs Hb Hrow. pose proof (proj1 Hs) as Hl.
  assert (Epiv : row_of (eliminate M col row n) row = row_of M row).
  { rewrite (row_of_eliminate M col row n row Hl).
    rewrite Nat.eqb_refl, andb_false_r. reflexivity. }
  assert (Hadd : forall r, (r < n)%nat -> row_sat n x (row_of M row) ->
             (row_sat n x (row_of (eliminate M col row n) r)
              <-> row_sat n x (row_of M r))).
  { intros r Hr Hp. rewrite (row_of_eliminate M col row n r Hl).
    destruct (_ && _); [|reflexivity].
    apply row_sat_add_mod2; [|apply bits_row_of, Hb..|assumption].
    rewrite (shape_row_of n (S n) M r Hs Hr), (shape_row_of n (S n) M row Hs Hrow).
    reflexivity. }
  unfold sat. split; intros H r Hr.
  - apply Hadd; [assumption| |apply H; assumption].
    rewrite <- Epiv. apply H. assumption.
  - apply Hadd; [assumption|apply H; assumption..].
Qed.

(** ** Forward elimination *)

Lemma find_pivot_Some (M : list (list Z)) (col row n p : nat) :
  find_pivot M col row n = Some p ->
  (row <= p < n)%nat /\ mget M p col = 1.
Proof.
  unfold find_pivot. intros H. apply find_some in H as [Hin Hp].
  apply in_seq in Hin. apply Z.eqb_eq in Hp. split; [lia|assumption].
Qed.

Lemma find_pivot_None (M : list (list Z)) (col row n r : nat) :
  find_pivot M col row n = None -> (row <= r < n)%nat -> mget M r col <> 1.
Proof.
  unfold find_pivot. intros H Hr E.
  pose proof (find_none _ _ H r) as Hn. cbv beta in Hn.
  rewrite E in Hn. discriminate Hn. apply in_seq. lia.
Qed.

Lemma mget_swap_rows (M : list (list Z)) (i j r c : nat) :
  (i < length M)%nat -> (j < length M)%nat ->
  mget (swap_rows M i j) r c
  = if decide (r = i) then mget M j c
    else if decide (r = j) then mget M i c else mget M r c.
Proof.
  intros Hi Hj. unfold mget. rewrite row_of_swap_rows by assumption.
  destruct (decide (r = i)); [reflexivity|]. destruct (decide (r = j)); reflexivity.
Qed.

(** Below the pivot rows the processed columns are zero. *)
Lemma reduced_zero_below (n c : nat) (M : list (list Z)) (k : nat) (pivs : list nat)
  (r j : nat) :
  reduced n c M k pivs -> (k <= r < n)%nat -> (j < c)%nat -> mget M r j = 0.
Proof.
  intros (Hs & Hb & Hlen & Hk & HP & HQ) Hr Hj.
  destruct (is_bit_mget M r j Hb) as [E|E]; [assumption|].
  destruct (HQ r j ltac:(lia) Hj E) as (p & Hp & _).
  apply lookup_lt_Some in Hp. lia.
Qed.

Lemma reduced_no_pivot (n c : nat) (M : list (list Z)) (k : nat) (pivs : list nat) :
  reduced n c M k pivs -> find_pivot M c k n = None ->
  reduced n (S c) M k pivs.
Proof.
  intros (Hs & Hb & Hlen & Hk & HP & HQ) Hnone.
  split; [assumption|]. split; [assumption|]. split; [assumption|].
  split; [assumption|]. split.
  - intros i p Hp. destruct (HP i p Hp) as (Hlt & H1 & H0). auto with lia.
  - intros r j Hr Hj E. destruct (decide (j = c)) as [->|Hne].
    + destruct (decide (r < k)%nat) as [Hrk|Hrk].
      * destruct (lookup_lt_is_Some_2 pivs r) as [p Hp]; [lia|].
        exists p. split; [assumption|]. destruct (HP r p Hp). lia.
      * exfalso. apply (find_pivot_None M c k n r Hnone); [lia|assumption].
    + apply HQ; [assumption|lia|assumption].
Qed.

Lemma reduced_pivot (n c : nat) (M : list (list Z)) (k : nat) (pivs : list nat)
  (p : nat) :
  reduced n c M k pivs -> (k <= p < n)%nat -> mget M p c = 1 ->
  reduced n (S c) (eliminate (swap_rows M k p) c k n) (S k) (pivs ++ [c]).
Proof.
  intros Hred Hp Hpc.
  pose proof (reduced_zero_below n c M k pivs) as F1.
  specialize (fun r j => F1 r j Hred).
  destruct Hred as (Hs & Hb & Hlen & Hk & HP & HQ).
  pose proof (proj1 Hs) as Hl.
  assert (Hs1 : shape n (S n) (swap_rows M k p)) by (apply swap_rows_shape; [assumption|lia..]).
  assert (Hb1 : bits (swap_rows M k p)) by (apply swap_rows_bits; assumption).
  assert (F2 : forall r j, (j < c)%nat -> mget (swap_rows M k p) r j = mget M r j).
  { intros r j Hj. rewrite mget_swap_rows by lia.
    destruct (decide (r = k)) as [->|]; [rewrite !F1 by lia; reflexivity|].
    destruct (decide (r = p)) as [->|]; [rewrite !F1 by lia; reflexivity|].
    reflexivity. }
  assert (F3 : mget (swap_rows M k p) k c = 1).
  { rewrite mget_swap_rows by lia. rewrite decide_True by reflexivity. assumption. }
  assert (F4 : forall r j, (j < c)%nat ->
                           mget (eliminate (swap_rows M k p) c k n) r j = mget M r j).
  { intros r j Hj. rewrite (mget_eliminate n (S n)) by (assumption || lia).
    rewrite (F2 r j Hj), (F2 k j Hj). rewrite (F1 k j) by lia.
    destruct (_ && _); [|reflexivity].
    destruct (is_bit_mget M r j Hb) as [->| ->]; reflexivity. }
  assert (F5 : mget (eliminate (swap_rows M k p) c k n) k c = 1).
  { rewrite (mget_eliminate n (S n)) by (assumption || lia).
    rewrite Nat.eqb_refl, andb_false_r. assumption. }
  assert (F6 : forall r, (r < n)%nat -> r <> k ->
                         mget (eliminate (swap_rows M k p) c k n) r c = 0).
  { intros r Hr Hne. rewrite (mget_eliminate n (S n)) by (assumption || lia).
    replace (r <? n)%nat with true by (symmetry; apply Nat.ltb_lt; assumption).
    replace (r =? k)%nat with false by (symmetry; apply Nat.eqb_neq; assumption).
    cbn [andb negb]. rewrite F3.
    destruct (Z.eqb_spec (mget (swap_rows M k p) r c) 1) as [->|Hn1]; [reflexivity|].
    destruct (is_bit_mget _ r c Hb1); [assumption|contradiction]. }
  split; [apply eliminate_shape; [assumption|lia]|].
  split; [apply (eliminate_bits n); [apply Hs1|assumption]|].
  split; [rewrite length_app; cbn; lia|].
  split; [lia|]. split.
  - intros i q Hq. apply lookup_app_Some in Hq as [Hq|[Hge Hq]].
    + destruct (HP i q Hq) as (Hlt & H1 & H0).
      split; [lia|]. split; [rewrite F4 by assumption; assumption|].
      intros r Hr Hne. rewrite F4 by assumption. auto.
    + destruct (i - length pivs)%nat as [|?] eqn:Ei; [|discriminate].
      injection Hq as <-. assert (i = k) by lia. subst i.
      split; [lia|]. split; [assumption|]. intros r Hr Hne. apply F6; assumption.
  - intros r j Hr Hj E. destruct (decide (j = c)) as [->|Hne].
    + destruct (decide (r = k)) as [->|Hrk].
      * exists c. split; [|lia]. rewrite lookup_app_r by lia.
        replace (k - length pivs)%nat with 0%nat by lia. reflexivity.
      * rewrite F6 in E by assumption. discriminate.
    + rewrite F4 in E by lia. destruct (HQ r j Hr ltac:(lia) E) as (q & Hq & Hle).
      exists q. split; [|assumption]. apply lookup_app_l_Some. assumption.
Qed.

Lemma elim_step_trace_reduced (n c : nat) (st : list (list Z) * nat * list nat) :
  reduced n c (fst (fst st)) (snd (fst st)) (snd st) ->
  reduced n (S c) (fst (fst (elim_step_trace n st c)))
          (snd (fst (elim_step_trace n st c))) (snd (elim_step_trace n st c))
  /\ forall x, sat n (fst (fst (elim_step_trace n st c))) x
               <-> sat n (fst (fst st)) x.
Proof.
  destruct st as [[M k] pivs]. cbn [fst snd]. intros Hred.
  unfold elim_step_trace. cbn [fst snd].
  destruct (find_pivot M c k n) as [p|] eqn:Ep; cbn [fst snd].
  - destruct (find_pivot_Some _ _ _ _ _ Ep) as [Hp Hpc].
    split; [apply reduced_pivot; assumption|].
    intros x. destruct Hred as (Hs & Hb & _).
    rewrite sat_eliminate;
      [|apply swap_rows_shape; [assumption|lia..]
       |apply swap_rows_bits; assumption|lia].
    apply sat_swap_rows; [apply Hs|lia..].
  - split; [apply reduced_no_pivot; assumption|]. reflexivity.
Qed.

Lemma elim_trace_prefix (n : nat) (M0 : list (list Z)) (c : nat) :
  shape n (S n) M0 -> bits M0 ->
  let st := foldl (elim_step_trace n) (M0, 0%nat, []) (seq 0 c) in
  reduced n c (fst (fst st)) (snd (fst st)) (snd st)
  /\ forall x, sat n (fst (fst st)) x <-> sat n M0 x.
Proof.
  intros Hs Hb. induction c as [|c IH].
  - cbn. split; [|reflexivity].
    split; [assumption|]. split; [assumption|]. split; [reflexivity|].
    split; [lia|]. split.
    + intros i p Hp. discriminate.
    + intros r j _ Hj. lia.
  - cbn zeta in *. rewrite foldl_seq_S. destruct IH as [IHr IHs].
    destruct (elim_step_trace_reduced n c _ IHr) as [Hr' Hs'].
    split; [assumption|]. intros x. rewrite Hs'. apply IHs.
Qed.

(** The ghost list does not influence the computation. *)
Lemma forward_elimination_trace_fst (n : nat) (M0 : list (list Z)) :
  fst (forward_elimination_trace n M0) = forward_elimination n M0.
Proof.
  unfold forward_elimination_trace, forward_elimination.
  generalize (seq 0 n). intros cols.
  change (M0, 0%nat) with (fst (M0, 0%nat, @nil nat)) at 2.
  generalize (M0, 0%nat, @nil nat). induction cols as [|c cols IH]; intros st.
  - reflexivity.
  - cbn [foldl]. rewrite IH. f_equal.
    unfold elim_step_trace, elim_step.
    destruct (find_pivot _ _ _ _); reflexivity.
Qed.

Lemma forward_elimination_reduced (n : nat) (M0 : list (list Z)) :
  shape n (S n) M0 -> bits M0 ->
  reduced n n (fst (forward_elimination n M0)) (snd (forward_elimination n M0))
          (pivot_columns n M0)
  /\ forall x, sat n (fst (forward_elimination n M0)) x <-> sat n M0 x.
Proof.
  intros Hs Hb. rewrite <- forward_elimination_trace_fst.
  apply (elim_trace_prefix n M0 n Hs Hb).
Qed.

(** ** The augmented column, the consistency check, back substitution *)

Lemma augmented_row (n : nat) (rw : list Z) :
  length rw = S n ->
  aug rw = zget rw n /\ length (coeffs rw) = n
  /\ forall j, (j < n)%nat -> zget (coeffs rw) j = zget rw j.
Proof.
  intros Hl. destruct (@exists_last _ rw) as (l & a & ->).
  { intros ->. discriminate. }
  rewrite length_app in Hl. cbn in Hl. assert (Hn : length l = n) by lia.
  unfold aug, coeffs. rewrite List.last_last, List.removelast_last.
  split; [|split; [assumption|]].
  - unfold zget. rewrite lookup_app_r by lia.
    replace (n - length l)%nat with 0%nat by lia. reflexivity.
  - intros j Hj. unfold zget. rewrite lookup_app_l by lia. reflexivity.
Qed.

Lemma coeffs_all_zero (n : nat) (rw : list Z) :
  length rw = S n ->
  forallb (fun v => v =? 0) (coeffs rw) = true
  <-> forall j, (j < n)%nat -> zget rw j = 0.
Proof.
  intros Hl. destruct (augmented_row n rw Hl) as (_ & Hcl & Hc).
  rewrite forallb_forall. split.
  - intros H j Hj. rewrite <- Hc by assumption.
    destruct (lookup_lt_is_Some_2 (coeffs rw) j) as [v Hv]; [lia|].
    rewrite (zget_lookup _ _ _ Hv). apply Z.eqb_eq, H.
    apply list_elem_of_In. eapply list_elem_of_lookup_2. eassumption.
  - intros H v Hv. apply list_elem_of_In, list_elem_of_lookup in Hv as [j Hj].
    apply Z.eqb_eq. rewrite <- (zget_lookup _ _ _ Hj).
    pose proof (lookup_lt_Some _ _ _ Hj). rewrite Hc by lia. apply H. lia.
Qed.

Lemma inconsistent_spec (n : nat) (M : list (list Z)) (k : nat) :
  shape n (S n) M ->
  inconsistent M k n = true
  <-> exists r, (k <= r < n)%nat /\ mget M r n = 1
                /\ forall j, (j < n)%nat -> mget M r j = 0.
Proof.
  intros Hs. unfold inconsistent. rewrite existsb_exists. split.
  - intros (r & Hin & H). apply in_seq in Hin. apply andb_true_iff in H as [Ha Hc].
    assert (Hl : length (row_of M r) = S n) by (apply (shape_row_of n _ M r Hs); lia).
    exists r. split; [lia|]. split.
    + unfold mget. rewrite <- (proj1 (augmented_row n _ Hl)). apply Z.eqb_eq, Ha.
    + apply (coeffs_all_zero n _ Hl), Hc.
  - intros (r & Hr & Ha & Hc).
    assert (Hl : length (row_of M r) = S n) by (apply (shape_row_of n _ M r Hs); lia).
    exists r. split; [apply in_seq; lia|]. apply andb_true_iff. split.
    + rewrite (proj1 (augmented_row n _ Hl)). apply Z.eqb_eq, Ha.
    + apply (coeffs_all_zero n _ Hl), Hc.
Qed.

Lemma filter_seq_first (P : nat -> Prop) `{forall j, Decision (P j)} (n : nat) :
  forall s p, (s <= p < s + n)%nat -> P p ->
              (forall j, (s <= j < p)%nat -> ~ P j) ->
              exists tl, filter P (seq s n) = p :: tl.
Proof.
  induction n as [|n IH]; intros s p Hp HP Hfirst; [lia|].
  cbn [seq]. destruct (decide (s = p)) as [->|Hne].
  - rewrite filter_cons_True by assumption. eauto.
  - rewrite filter_cons_False by (apply Hfirst; lia).
    apply IH; [lia|assumption|]. intros j Hj. apply Hfirst. lia.
Qed.

Lemma pivots_distinct (n c : nat) (M : list (list Z)) (k : nat) (pivs : list nat)
  (i i' p : nat) :
  reduced n c M k pivs -> pivs !! i = Some p -> pivs !! i' = Some p -> i = i'.
Proof.
  intros (Hs & Hb & Hlen & Hk & HP & HQ) Hi Hi'.
  destruct (decide (i = i')) as [|Hne]; [assumption|exfalso].
  destruct (HP i p Hi) as (_ & H1 & _). destruct (HP i' p Hi') as (_ & _ & H0).
  rewrite H0 in H1; [discriminate| |assumption].
  apply lookup_lt_Some in Hi. lia.
Qed.

(** In a pivot row the first 1 is in the pivot column. *)
Lemma back_step_pivot (n : nat) (M : list (list Z)) (k : nat) (pivs : list nat)
  (x : list Z) (i p : nat) :
  reduced n n M k pivs -> pivs !! i = Some p ->
  back_step M k x i = <[p := mget M i n]> x.
Proof.
  intros Hred Hp. pose proof Hred as (Hs & Hb & Hlen & Hk & HP & HQ).
  pose proof (lookup_lt_Some _ _ _ Hp) as Hik.
  unfold back_step. replace (i <? k)%nat with true by (symmetry; apply Nat.ltb_lt; lia).
  assert (Hl : length (row_of M i) = S n) by (apply (shape_row_of n _ M i Hs); lia).
  destruct (augmented_row n _ Hl) as (Ha & Hcl & Hc).
  destruct (HP i p Hp) as (Hpn & H1 & _).
  unfold np_where_eq1. rewrite Hcl.
  destruct (filter_seq_first (fun j => zget (coeffs (row_of M i)) j = 1) n 0 p)
    as [tl ->].
  - lia.
  - rewrite Hc by assumption. exact H1.
  - intros j Hj E. rewrite Hc in E by lia.
    destruct (HQ i j ltac:(lia) ltac:(lia) E) as (q & Hq & Hle).
    assert (q = p) by congruence. lia.
  - rewrite Ha. reflexivity.
Qed.

Lemma back_step_free (M : list (list Z)) (k : nat) (x : list Z) (i : nat) :
  (k <= i)%nat -> back_step M k x i = x.
Proof.
  intros H. unfold back_step.
  replace (i <? k)%nat with false by (symmetry; apply Nat.ltb_ge; lia). reflexivity.
Qed.

Lemma back_substitution_prefix (n : nat) (M : list (list Z)) (k : nat)
  (pivs : list nat) (t : nat) :
  reduced n n M k pivs ->
  let x := foldl (back_step M k) (replicate n 0) (seq 0 t) in
  length x = n
  /\ (forall i p, (i < t)%nat -> pivs !! i = Some p -> zget x p = mget M i n)
  /\ (forall j, (forall i, (i < t)%nat -> pivs !! i <> Some j) -> zget x j = 0).
Proof.
  intros Hred. induction t as [|t IH]; cbn zeta in *.
  - cbn [seq foldl]. split; [apply length_replicate|]. split; [intros; lia|].
    intros j _. unfold zget.
    destruct (replicate n 0 !! j) as [v|] eqn:E; [|reflexivity].
    apply lookup_replicate_1 in E as [-> _]. reflexivity.
  - rewrite foldl_seq_S. destruct IH as (IHl & IHp & IHf).
    set (x := foldl (back_step M k) (replicate n 0) (seq 0 t)) in *.
    destruct (pivs !! t) as [q|] eqn:Eq.
    + rewrite (back_step_pivot n M k pivs x t q Hred Eq).
      pose proof Hred as (_ & _ & _ & _ & HP & _).
      destruct (HP t q Eq) as (Hqn & _ & _).
      split; [rewrite length_insert; assumption|]. split.
      * intros i p Hi Hp. rewrite zget_insert.
        destruct (decide (q = p /\ (q < length x)%nat)) as [[-> _]|Hn].
        -- rewrite (pivots_distinct n n M k pivs i t p Hred Hp Eq). reflexivity.
        -- apply IHp; [|assumption].
           destruct (decide (i = t)) as [->|]; [|lia].
           exfalso. apply Hn. split; [congruence|lia].
      * intros j Hj. rewrite zget_insert.
        rewrite decide_False.
        -- apply IHf. intros i Hi. apply Hj. lia.
        -- intros [-> _]. apply (Hj t); [lia|assumption].
    + rewrite back_step_free.
      2:{ apply lookup_ge_None in Eq. destruct Hred as (_ & _ & Hlen & _). lia. }
      split; [assumption|]. split.
      * intros i p Hi Hp. apply IHp; [|assumption].
        destruct (decide (i = t)) as [->|]; [congruence|lia].
      * intros j Hj. apply IHf. intros i Hi. apply Hj. lia.
Qed.

Lemma back_substitution_spec (n : nat) (M : list (list Z)) (k : nat)
  (pivs : list nat) :
  reduced n n M k pivs ->
  length (back_substitution M k n) = n
  /\ (forall i p, pivs !! i = Some p ->
                  zget (back_substitution M k n) p = mget M i n)
  /\ (forall j, j ∉ pivs -> zget (back_substitution M k n) j = 0).
Proof.
  intros Hred.
  destruct (back_substitution_prefix n M k pivs n Hred) as (Hl & Hp & Hf).
  fold (back_substitution M k n) in *.
  split; [assumption|]. split.
  - intros i p Hip. apply Hp; [|assumption].
    apply lookup_lt_Some in Hip. destruct Hred as (_ & _ & Hlen & Hk & _). lia.
  - intros j Hj. apply Hf. intros i _ E. apply Hj.
    eapply list_elem_of_lookup_2. eassumption.
Qed.

(** ** The augmented matrix *)

Lemma hstack_lookup (A : list (list Z)) (b : list Z) (r : nat) :
  (r < length A)%nat -> (r < length b)%nat ->
  row_of (hstack A b) r = row_of A r ++ [zget b r].
Proof.
  intros HA Hb. unfold row_of, hstack, zget. rewrite lookup_zip_with.
  destruct (lookup_lt_is_Some_2 A r HA) as [rw ->].
  destruct (lookup_lt_is_Some_2 b r Hb) as [v ->]. reflexivity.
Qed.

Lemma hstack_shape (n : nat) (A : list (list Z)) (b : list Z) :
  shape n n A -> length b = n -> shape n (S n) (hstack A b).
Proof.
  intros Hs Hb. pose proof Hs as [Hl Hr]. split.
  - unfold hstack. rewrite length_zip_with. lia.
  - apply Forall_lookup. intros r rw Hrw.
    assert (Hrn : (r < n)%nat).
    { apply lookup_lt_Some in Hrw. unfold hstack in Hrw.
      rewrite length_zip_with in Hrw. lia. }
    pose proof (row_of_lookup _ _ _ Hrw) as E.
    rewrite hstack_lookup in E by lia. subst rw.
    rewrite length_app, (shape_row_of n n A r Hs Hrn). cbn. lia.
Qed.

Lemma hstack_bits (A : list (list Z)) (b : list Z) :
  bits A -> Forall is_bit b -> bits (hstack A b).
Proof.
  intros HA Hb. unfold bits, hstack. apply Forall_lookup. intros r rw Hrw.
  apply lookup_zip_with_Some in Hrw as (ra & v & -> & Hra & Hv).
  apply Forall_app. split.
  - unfold bits in HA. rewrite Forall_lookup in HA. eauto.
  - constructor; [|constructor]. rewrite Forall_lookup in Hb. eauto.
Qed.

Lemma hstack_mget (n : nat) (A : list (list Z)) (b : list Z) (r : nat) :
  shape n n A -> length b = n -> (r < n)%nat ->
  mget (hstack A b) r n = zget b r
  /\ forall j, (j < n)%nat -> mget (hstack A b) r j = mget A r j.
Proof.
  intros Hs Hb Hr. unfold mget.
  rewrite hstack_lookup by (destruct Hs; lia).
  pose proof (shape_row_of n n A r Hs Hr) as Hl. split.
  - unfold zget at 1. rewrite lookup_app_r by lia.
    replace (n - length (row_of A r))%nat with 0%nat by lia. reflexivity.
  - intros j Hj. unfold zget. rewrite lookup_app_l by lia. reflexivity.
Qed.

Lemma sat_hstack (A : list (list Z)) (b x : list Z) :
  shape (length b) (length b) A ->
  sat (length b) (hstack A b) x <-> solves A b x.
Proof.
  intros Hs. unfold sat, solves, row_sat.
  split; intros H r Hr; specialize (H r Hr);
    destruct (hstack_mget (length b) A b r Hs eq_refl Hr) as [Ha Hc];
    unfold mget in Ha, Hc.
  - rewrite Ha in H. rewrite <- H. f_equal. apply sumZ_ext.
    intros j Hj. unfold mget. rewrite Hc by assumption. reflexivity.
  - rewrite Ha. rewrite <- H. f_equal. apply sumZ_ext.
    intros j Hj. unfold mget. rewrite Hc by assumption. reflexivity.
Qed.

(** ** _solve_gf2 *)

Lemma solve_gf2_unfold (A : list (list Z)) (b : list Z) :
  _solve_gf2 A b
  = if inconsistent (fst (forward_elimination (length b) (hstack A b)))
                    (snd (forward_elimination (length b) (hstack A b))) (length b)
    then None
    else Some (back_substitution
                 (fst (forward_elimination (length b) (hstack A b)))
                 (snd (forward_elimination (length b) (hstack A b))) (length b)).
Proof.
  unfold _solve_gf2. destruct (forward_elimination _ _) as [M k]. reflexivity.
Qed.

(** A row of zero coefficients with right-hand side 1 can only be a
    non-pivot row. *)
Lemma reduced_inconsistent_row (n : nat) (M : list (list Z)) (k : nat)
  (pivs : list nat) (r : nat) :
  reduced n n M k pivs -> (r < n)%nat ->
  (forall j, (j < n)%nat -> mget M r j = 0) -> (k <= r)%nat.
Proof.
  intros (Hs & Hb & Hlen & Hk & HP & HQ) Hr Hz.
  destruct (decide (k <= r)%nat) as [|Hlt]; [assumption|exfalso].
  destruct (lookup_lt_is_Some_2 pivs r) as [p Hp]; [lia|].
  destruct (HP r p Hp) as (Hpn & H1 & _). rewrite Hz in H1 by assumption.
  discriminate.
Qed.

(** The vector built by back substitution solves the reduced system. *)
Lemma back_substitution_sat (n : nat) (M : list (list Z)) (k : nat)
  (pivs : list nat) :
  reduced n n M k pivs -> inconsistent M k n = false ->
  sat n M (back_substitution M k n).
Proof.
  intros Hred Hcons. pose proof Hred as (Hs & Hb & Hlen & Hk & HP & HQ).
  destruct (back_substitution_spec n M k pivs Hred) as (Hxl & Hxp & Hxf).
  set (x := back_substitution M k n) in *.
  intros r Hr. unfold row_sat. fold (mget M r n).
  destruct (decide (r < k)%nat) as [Hrk|Hrk].
  - destruct (lookup_lt_is_Some_2 pivs r) as [p Hp]; [lia|].
    destruct (HP r p Hp) as (Hpn & H1 & H0).
    assert (Hsum : sumZ n (fun j => zget (row_of M r) j * zget x j)
                   = zget (row_of M r) p * zget x p).
    { apply (sumZ_single n p); [assumption|]. intros j Hj Hne.
      fold (mget M r j). destruct (decide (j ∈ pivs)) as [Hin|Hout].
      - apply list_elem_of_lookup in Hin as [i Hi].
        destruct (HP i j Hi) as (_ & _ & Hz).
        rewrite Hz; [lia|assumption|]. intros ->. congruence.
      - rewrite (Hxf j Hout). lia. }
    rewrite Hsum.
    fold (mget M r p). rewrite H1, (Hxp r p Hp). f_equal. lia.
  - assert (Hz : forall j, (j < n)%nat -> mget M r j = 0).
    { intros j Hj. apply (reduced_zero_below n n M k pivs r j Hred); lia. }
    rewrite sumZ_zero by (intros j Hj; fold (mget M r j); rewrite Hz by assumption; lia).
    destruct (is_bit_mget M r n Hb) as [->|E]; [reflexivity|exfalso].
    assert (Hinc : inconsistent M k n = true).
    { apply (inconsistent_spec n M k Hs). exists r. split; [lia|]. auto. }
    congruence.
Qed.

Lemma inconsistent_unsat (n : nat) (M : list (list Z)) (k : nat) (x : list Z) :
  shape n (S n) M -> inconsistent M k n = true -> ~ sat n M x.
Proof.
  intros Hs Hinc Hsat.
  apply (inconsistent_spec n M k Hs) in Hinc as (r & Hr & Ha & Hz).
  specialize (Hsat r ltac:(lia)). unfold row_sat in Hsat.
  fold (mget M r n) in Hsat. rewrite Ha in Hsat.
  rewrite sumZ_zero in Hsat; [discriminate|].
  intros j Hj. fold (mget M r j). rewrite Hz by assumption. lia.
Qed.

(** Soundness and completeness of the solver on square systems of bits. *)
Lemma solve_gf2_sound (A : list (list Z)) (b x : list Z) :
  shape (length b) (length b) A -> bits A -> Forall is_bit b ->
  _solve_gf2 A b = Some x -> solves A b x.
Proof.
  intros Hs HA Hb E. rewrite solve_gf2_unfold in E.
  destruct (forward_elimination_reduced (length b) (hstack A b))
    as [Hred Hsat]; [apply hstack_shape; auto|apply hstack_bits; auto|].
  destruct (inconsistent _ _ _) eqn:Hinc; [discriminate|]. injection E as <-.
  apply sat_hstack; [assumption|]. apply Hsat.
  eapply back_substitution_sat; eassumption.
Qed.

Lemma solve_gf2_complete (A : list (list Z)) (b x : list Z) :
  shape (length b) (length b) A -> bits A -> Forall is_bit b ->
  solves A b x -> _solve_gf2 A b <> None.
Proof.
  intros Hs HA Hb Hx E. rewrite solve_gf2_unfold in E.
  destruct (forward_elimination_reduced (length b) (hstack A b))
    as [Hred Hsat]; [apply hstack_shape; auto|apply hstack_bits; auto|].
  destruct (inconsistent _ _ _) eqn:Hinc; [|discriminate].
  apply (inconsistent_unsat (length b) _ _ x (proj1 Hred) Hinc).
  apply Hsat. apply sat_hstack; assumption.
Qed.

Lemma back_substitution_bits (n : nat) (M : list (list Z)) (k : nat)
  (pivs : list nat) :
  reduced n n M k pivs -> Forall is_bit (back_substitution M k n).
Proof.
  intros Hred. destruct (back_substitution_spec n M k pivs Hred) as (_ & Hxp & Hxf).
  apply Forall_lookup. intros j v Hv. rewrite <- (zget_lookup _ _ _ Hv).
  destruct (decide (j ∈ pivs)) as [Hin|Hout].
  - apply list_elem_of_lookup in Hin as [i Hi]. rewrite (Hxp i j Hi).
    apply is_bit_mget. apply Hred.
  - rewrite (Hxf j Hout). left. reflexivity.
Qed.

(** C3: on a square system of bits [_solve_gf2] returns [None] exactly when
    the matrix left by the forward elimination has a row whose coefficients
    are all 0 and whose augmented entry is 1; in every case it returns,
    either [None] or a vector of [len(b)] bits that solves [A x = b]
    modulo 2. *)
Theorem solve_gf2_fails_iff (A : list (list Z)) (b : list Z) :
  shape (length b) (length b) A -> bits A -> Forall is_bit b ->
  let n := length b in
  let M := fst (forward_elimination n (hstack A b)) in
  (_solve_gf2 A b = None
   <-> exists r, (r < n)%nat /\ (forall j, (j < n)%nat -> mget M r j = 0)
                 /\ mget M r n = 1)
  /\ (_solve_gf2 A b = None
      \/ exists x, _solve_gf2 A b = Some x /\ length x = n /\ Forall is_bit x
                   /\ solves A b x).
Proof.
  intros Hs HA Hb n M.
  pose proof (fun x => solve_gf2_sound A b x Hs HA Hb) as Hsound.
  destruct (forward_elimination_reduced n (hstack A b))
    as [Hred _]; [apply hstack_shape; auto|apply hstack_bits; auto|].
  fold M in Hred. rewrite solve_gf2_unfold in Hsound |- *. fold n M in Hsound |- *.
  set (k := snd (forward_elimination n (hstack A b))) in *.
  pose proof (inconsistent_spec n M k (proj1 Hred)) as Hspec.
  destruct (inconsistent M k n).
  - split; [|left; reflexivity]. split; [|reflexivity]. intros _.
    destruct (proj1 Hspec eq_refl) as (r & Hr & Ha & Hz).
    exists r. split; [lia|]. auto.
  - split.
    + split; [discriminate|]. intros (r & Hr & Hz & Ha).
      assert (true = false); [|discriminate]. symmetry. apply Hspec.
      exists r. split; [|auto]. split; [|assumption].
      eapply reduced_inconsistent_row; eassumption.
    + right. eexists. split; [reflexivity|]. split; [|split].
      * apply (back_substitution_spec n M k _ Hred).
      * apply (back_substitution_bits n M k _ Hred).
      * apply Hsound. reflexivity.
Qed.

Lemma solve_gf2_fails_iff_witness :
  let n := length [1; 0] in
  let M := fst (forward_elimination n (hstack [[1; 1]; [1; 1]] [1; 0])) in
  (_solve_gf2 [[1; 1]; [1; 1]] [1; 0] = None
   <-> exists r, (r < n)%nat /\ (forall j, (j < n)%nat -> mget M r j = 0)
                 /\ mget M r n = 1)
  /\ (_solve_gf2 [[1; 1]; [1; 1]] [1; 0] = None
      \/ exists x, _solve_gf2 [[1; 1]; [1; 1]] [1; 0] = Some x /\ length x = n
                   /\ Forall is_bit x /\ solves [[1; 1]; [1; 1]] [1; 0] x).
Proof.
  apply (solve_gf2_fails_iff [[1; 1]; [1; 1]] [1; 0]).
  - split; [reflexivity|]. repeat constructor.
  - repeat constructor; (left; reflexivity) || (right; reflexivity).
  - repeat constructor; (left; reflexivity) || (right; reflexivity).
Defined.

(** C4: in a returned solution every non-pivot column holds 0, every pivot
    column holds the augmented entry of the row whose pivot (its first 1)
    lies in that column, and so every 1 of the solution is in a pivot
    column. *)
Theorem solve_gf2_free_variables_zero (A : list (list Z)) (b x : list Z) :
  shape (length b) (length b) A -> bits A -> Forall is_bit b ->
  _solve_gf2 A b = Some x ->
  let n := length b in
  let M := fst (forward_elimination n (hstack A b)) in
  let pivs := pivot_columns n (hstack A b) in
  length pivs = snd (forward_elimination n (hstack A b))
  /\ (forall i p, pivs !! i = Some p ->
                  (p < n)%nat /\ mget M i p = 1
                  /\ (forall j, (j < p)%nat -> mget M i j = 0)
                  /\ zget x p = mget M i n)
  /\ (forall j, (j < n)%nat -> j ∉ pivs -> zget x j = 0)
  /\ (forall j, zget x j = 1 -> j ∈ pivs).
Proof.
  intros Hs HA Hb E n M pivs.
  destruct (forward_elimination_reduced n (hstack A b))
    as [Hred _]; [apply hstack_shape; auto|apply hstack_bits; auto|].
  fold M pivs in Hred. rewrite solve_gf2_unfold in E. fold n M in E.
  set (k := snd (forward_elimination n (hstack A b))) in *.
  destruct (inconsistent M k n); [discriminate|]. injection E as <-.
  destruct (back_substitution_spec n M k pivs Hred) as (Hxl & Hxp & Hxf).
  pose proof Hred as (Hsh & Hbits & Hlen & Hk & HP & HQ).
  split; [assumption|]. split; [|split].
  - intros i p Hp. destruct (HP i p Hp) as (Hpn & H1 & _).
    split; [assumption|]. split; [assumption|]. split; [|apply Hxp; assumption].
    intros j Hj. destruct (is_bit_mget M i j Hbits) as [|E1]; [assumption|].
    pose proof (lookup_lt_Some _ _ _ Hp).
    destruct (HQ i j ltac:(lia) ltac:(lia) E1) as (q & Hq & Hle).
    assert (q = p) by congruence. lia.
  - intros j _ Hout. apply Hxf. assumption.
  - intros j E1. destruct (decide (j ∈ pivs)) as [|Hout]; [assumption|].
    rewrite (Hxf j Hout) in E1. discriminate.
Qed.

Lemma solve_gf2_free_variables_zero_witness :
  let n := length [1; 1] in
  let M := fst (forward_elimination n (hstack [[1; 1]; [1; 1]] [1; 1])) in
  let pivs := pivot_columns n (hstack [[1; 1]; [1; 1]] [1; 1]) in
  length pivs = snd (forward_elimination n (hstack [[1; 1]; [1; 1]] [1; 1]))
  /\ (forall i p, pivs !! i = Some p ->
                  (p < n)%nat /\ mget M i p = 1
                  /\ (forall j, (j < p)%nat -> mget M i j = 0)
                  /\ zget [1; 0] p = mget M i n)
  /\ (forall j, (j < n)%nat -> j ∉ pivs -> zget [1; 0] j = 0)
  /\ (forall j, zget [1; 0] j = 1 -> j ∈ pivs).
Proof.
  apply (solve_gf2_free_variables_zero [[1; 1]; [1; 1]] [1; 1] [1; 0]).
  - split; [reflexivity|]. repeat constructor.
  - repeat constructor; (left; reflexivity) || (right; reflexivity).
  - repeat constructor; (left; reflexivity) || (right; reflexivity).
  - reflexivity.
Defined.

(** ** Sequences of moves *)

Lemma presses_app (size : Z) (ms1 ms2 : list (Z * Z)) (r c : nat) :
  presses size (ms1 ++ ms2) r c
  = (presses size ms1 r c + presses size ms2 r c)%nat.
Proof. induction ms1 as [|m ms1 IH]; cbn [app presses]; lia. Qed.

Lemma presses_Permutation (size : Z) (ms ms' : list (Z * Z)) (r c : nat) :
  Permutation ms ms' -> presses size ms r c = presses size ms' r c.
Proof. induction 1; cbn [presses]; lia. Qed.

Lemma apply_moves_cells (size : Z) (ms : list (Z * Z)) :
  forall g : grid,
    square size g -> Forall (in_range size) ms ->
    exists g', apply_moves size g ms = Ok g' /\ square size g'
               /\ forall r c, (r < Z.to_nat size)%nat -> (c < Z.to_nat size)%nat ->
                              cell g' r c
                              = Nat.iter (presses size ms r c) flip (cell g r c).
Proof.
  induction ms as [|m ms IH]; intros g Hsq Hall.
  - exists g. cbn. auto.
  - inversion Hall as [|? ? Hm Hms]; subst. cbn [apply_moves]. unfold apply_move.
    assert (Hin : in_range size (fst m, snd m)) by (destruct m; exact Hm).
    destruct (toggle_each_in_range size _ g Hsq
                (toggles_in_range size (fst m) (snd m) Hin))
      as (g1 & -> & Hsq1 & C1).
    destruct (IH g1 Hsq1 Hms) as (g' & Hg' & Hsq' & C').
    exists g'. split; [assumption|]. split; [assumption|].
    intros r c Hr Hc. rewrite (C' r c Hr Hc), (C1 r c Hr Hc).
    cbn [presses]. rewrite Nat.add_comm, Nat.iter_add. reflexivity.
Qed.

Lemma iter_flip_bit (k : nat) (v : Z) :
  is_bit v -> Nat.iter k flip v = (v + Z.of_nat k) mod 2.
Proof.
  intros Hv. rewrite iter_flip_even.
  destruct (Nat.even k) eqn:E.
  - apply Nat.even_spec in E as [q ->]. unfold is_bit in Hv.
    rewrite Nat2Z.inj_mul. Z.div_mod_to_equations. lia.
  - assert (Ho : Nat.odd k = true) by (rewrite <- Nat.negb_even, E; reflexivity).
    apply Nat.odd_spec in Ho as [q ->]. unfold flip, is_bit in *.
    rewrite Nat2Z.inj_add, Nat2Z.inj_mul. Z.div_mod_to_equations. lia.
Qed.

Lemma is_solved_cells (size : Z) (g : grid) :
  square size g ->
  (forall r c, (r < Z.to_nat size)%nat -> (c < Z.to_nat size)%nat -> cell g r c = 0) ->
  is_solved g = true.
Proof.
  intros Hsq Hz. unfold is_solved. apply forallb_forall. intros rw Hrw.
  apply forallb_forall. intros v Hv.
  apply list_elem_of_In, list_elem_of_lookup in Hrw as [r Hr].
  apply list_elem_of_In, list_elem_of_lookup in Hv as [c Hc].
  assert (Hrn : (r < Z.to_nat size)%nat).
  { destruct Hsq as [<- _]. eapply lookup_lt_Some; eassumption. }
  destruct (square_row size g r Hsq Hrn) as (rw' & Hrw' & Hlen).
  assert (rw' = rw) by congruence. subst rw'.
  assert (Hcn : (c < Z.to_nat size)%nat).
  { rewrite <- Hlen. eapply lookup_lt_Some; eassumption. }
  specialize (Hz r c Hrn Hcn). unfold cell, mget in Hz.
  rewrite (row_of_lookup _ _ _ Hr), (zget_lookup _ _ _ Hc) in Hz.
  apply Z.eqb_eq. assumption.
Qed.

(** ** The flattened grid *)

Lemma concat_length (m : nat) (g : list (list Z)) :
  Forall (fun rw => length rw = m) g -> length (concat g) = (length g * m)%nat.
Proof.
  induction 1 as [|rw g Hrw Hg IH]; cbn [concat length].
  - reflexivity.
  - rewrite length_app, IH, Hrw. lia.
Qed.

Lemma concat_zget (m : nat) (g : list (list Z)) :
  Forall (fun rw => length rw = m) g ->
  forall r c, (c < m)%nat -> zget (concat g) (r * m + c) = mget g r c.
Proof.
  induction 1 as [|rw g Hrw Hg IH]; intros r c Hc.
  - reflexivity.
  - cbn [concat]. destruct r as [|r].
    + unfold mget, row_of, zget. cbn [lookup list_lookup default from_option id].
      rewrite lookup_app_l by lia. reflexivity.
    + unfold zget at 1. rewrite lookup_app_r by lia.
      replace (S r * m + c - length rw)%nat with (r * m + c)%nat by lia.
      fold (zget (concat g) (r * m + c)). rewrite IH by assumption. reflexivity.
Qed.

Lemma concat_bits (g : list (list Z)) : bits g -> Forall is_bit (concat g).
Proof.
  induction 1 as [|rw g Hrw Hg IH]; cbn [concat].
  - constructor.
  - apply Forall_app. split; assumption.
Qed.

Lemma shape_bits (n m : nat) (M : list (list Z)) :
  shape n m M ->
  (forall i j, (i < n)%nat -> (j < m)%nat -> is_bit (mget M i j)) -> bits M.
Proof.
  intros Hs Hc. apply Forall_lookup. intros r rw Hrw.
  apply Forall_lookup. intros c v Hv.
  assert (Hr : (r < n)%nat).
  { destruct Hs as [<- _]. eapply lookup_lt_Some; eassumption. }
  destruct (shape_row n m M r Hs Hr) as (rw' & Hrw' & Hlen).
  assert (rw' = rw) by congruence. subst rw'.
  assert (Hcl : (c < m)%nat).
  { rewrite <- Hlen. eapply lookup_lt_Some; eassumption. }
  specialize (Hc r c Hr Hcl). unfold mget in Hc.
  rewrite (row_of_lookup _ _ _ Hrw), (zget_lookup _ _ _ Hv) in Hc. assumption.
Qed.

Lemma transition_matrix_bits (size : Z) :
  0 < size -> bits (_build_transition_matrix size).
Proof.
  intros Hs. destruct (transition_matrix_cells size Hs) as [Hsh Hc].
  apply (shape_bits _ _ _ Hsh). intros i j Hi Hj.
  rewrite Hc by lia. destruct (self_or_neighbourb _ _ _ _); [right|left]; reflexivity.
Qed.

(** ** The move list of solve *)

Lemma collect_moves_snoc (size : Z) (x : list Z) (a : Z) :
  collect_moves size (x ++ [a])
  = if a =? 1
    then collect_moves size x ++ [_idx_to_pos size (Z.of_nat (length x))]
    else collect_moves size x.
Proof.
  unfold collect_moves, enumerate. rewrite length_app. cbn [length].
  rewrite Nat.add_1_r, seq_S. cbn [Nat.add].
  rewrite zip_with_app by (rewrite length_seq; reflexivity).
  cbn [zip_with]. rewrite foldl_snoc. reflexivity.
Qed.

Lemma collect_moves_spec (size : Z) (x : list Z) :
  0 < size -> Forall is_bit x -> Z.of_nat (length x) <= size * size ->
  Forall (in_range size) (collect_moves size x)
  /\ forall r c, (r < Z.to_nat size)%nat -> (c < Z.to_nat size)%nat ->
       Z.of_nat (presses size (collect_moves size x) r c)
       = sumZ (length x)
              (fun i => zget x i
                        * if self_or_neighbourb
                               (fst (_idx_to_pos size (Z.of_nat i)))
                               (snd (_idx_to_pos size (Z.of_nat i)))
                               (Z.of_nat r) (Z.of_nat c)
                          then 1 else 0).
Proof.
  intros Hs. induction x as [|a x IH] using rev_ind; intros Hb Hl.
  - split; [constructor|]. reflexivity.
  - apply Forall_app in Hb as [Hbx Hba]. inversion Hba as [|? ? Ha _]; subst.
    rewrite length_app in Hl |- *. cbn [length] in Hl |- *.
    destruct IH as [IHr IHp]; [assumption|lia|].
    pose proof (idx_to_pos_in_range size (Z.of_nat (length x)) Hs ltac:(lia)) as Hin.
    rewrite collect_moves_snoc. rewrite Nat.add_1_r. split.
    + destruct (a =? 1); [|assumption].
      apply Forall_app. split; [assumption|]. constructor; [assumption|constructor].
    + intros r c Hr Hc. cbn [sumZ].
      rewrite (sumZ_ext (length x) _
                 (fun i => zget x i
                           * if self_or_neighbourb
                                  (fst (_idx_to_pos size (Z.of_nat i)))
                                  (snd (_idx_to_pos size (Z.of_nat i)))
                                  (Z.of_nat r) (Z.of_nat c)
                             then 1 else 0)).
      2:{ intros i Hi. unfold zget. rewrite lookup_app_l by assumption. reflexivity. }
      rewrite <- (IHp r c Hr Hc).
      assert (Ea : zget (x ++ [a]) (length x) = a).
      { unfold zget. rewrite lookup_app_r by lia.
        rewrite Nat.sub_diag. reflexivity. }
      rewrite Ea. destruct Ha as [-> | ->]; cbn [Z.eqb Pos.eqb].
      * lia.
      * rewrite presses_app. cbn [presses].
        destruct (_idx_to_pos size (Z.of_nat (length x))) as [row col] eqn:Epos.
        cbn [fst snd]. rewrite (hits_toggles size row col r c Hin) by lia.
        destruct (self_or_neighbourb row col _ _); lia.
Qed.

(** The number of presses of a cell is the product of the solution with
    the column of the transition matrix that belongs to the cell. *)
Lemma presses_solution (size : Z) (x : list Z) (r c : nat) :
  0 < size -> Forall is_bit x -> Z.of_nat (length x) = size * size ->
  (r < Z.to_nat size)%nat -> (c < Z.to_nat size)%nat ->
  Z.of_nat (presses size (collect_moves size x) r c)
  = sumZ (length x)
         (fun i => mget (_build_transition_matrix size)
                        (r * Z.to_nat size + c) i * zget x i).
Proof.
  intros Hs Hb Hl Hr Hc.
  destruct (collect_moves_spec size x Hs Hb ltac:(lia)) as [_ Hp].
  rewrite (Hp r c Hr Hc). apply sumZ_ext. intros i Hi.
  destruct (transition_matrix_cells size Hs) as [_ Hcell].
  assert (Hj : Z.of_nat (r * Z.to_nat size + c) < size * size) by nia.
  rewrite (Hcell _ i Hj ltac:(lia)).
  assert (Epos : _idx_to_pos size (Z.of_nat (r * Z.to_nat size + c))
                 = (Z.of_nat r, Z.of_nat c)).
  { pose proof (idx_to_pos_to_idx size (Z.of_nat r, Z.of_nat c)) as E.
    cbn [fst snd] in E. unfold _pos_to_idx in E.
    replace (Z.of_nat (r * Z.to_nat size + c)) with (Z.of_nat r * size + Z.of_nat c)
      by lia.
    apply E. split; cbn [fst snd]; lia. }
  rewrite Epos. cbn [fst snd].
  rewrite (self_or_neighbourb_sym (Z.of_nat r)). lia.
Qed.

Lemma solve_gf2_Some (A : list (list Z)) (b x : list Z) :
  shape (length b) (length b) A -> bits A -> Forall is_bit b ->
  _solve_gf2 A b = Some x -> length x = length b /\ Forall is_bit x.
Proof.
  intros Hs HA Hb E. rewrite solve_gf2_unfold in E.
  destruct (forward_elimination_reduced (length b) (hstack A b))
    as [Hred _]; [apply hstack_shape; auto|apply hstack_bits; auto|].
  destruct (inconsistent _ _ _); [discriminate|]. injection E as <-. split.
  - apply (back_substitution_spec _ _ _ _ Hred).
  - apply (back_substitution_bits _ _ _ _ Hred).
Qed.

Lemma flattened_grid (size : Z) (g : grid) :
  0 < size -> square size g ->
  length (concat g) = Z.to_nat (size * size)
  /\ forall r c, (r < Z.to_nat size)%nat -> (c < Z.to_nat size)%nat ->
                 zget (concat g) (r * Z.to_nat size + c) = cell g r c.
Proof.
  intros Hs [Hl Hr]. split.
  - rewrite (concat_length (Z.to_nat size) g Hr), Hl. lia.
  - intros r c _ Hc. apply (concat_zget (Z.to_nat size) g Hr r c Hc).
Qed.

(** Pressing, in any order, the cells selected by a solution of
    [A x = b] turns every light off. *)
Lemma pressing_a_solution (size : Z) (g : grid) (x : list Z) (ms : list (Z * Z)) :
  0 < size -> square size g -> bits g ->
  Forall is_bit x -> length x = Z.to_nat (size * size) ->
  solves (_build_transition_matrix size) (concat g) x ->
  Permutation (collect_moves size x) ms ->
  exists g', apply_moves size g ms = Ok g' /\ is_solved g' = true.
Proof.
  intros Hs Hsq Hb Hx Hxl Hsol Hperm.
  destruct (collect_moves_spec size x Hs Hx ltac:(lia)) as [Hin _].
  assert (Hin' : Forall (in_range size) ms).
  { apply List.Forall_forall. intros m Hm. rewrite List.Forall_forall in Hin.
    apply Hin. eapply Permutation_in; [symmetry|]; eassumption. }
  destruct (apply_moves_cells size ms g Hsq Hin') as (g' & Hg' & Hsq' & C).
  exists g'. split; [assumption|].
  apply (is_solved_cells size g' Hsq'). intros r c Hr Hc.
  rewrite (C r c Hr Hc).
  rewrite iter_flip_bit by (apply (bits_cells size g Hsq); assumption).
  rewrite <- (presses_Permutation size _ _ r c Hperm).
  rewrite (presses_solution size x r c Hs Hx ltac:(lia) Hr Hc).
  destruct (flattened_grid size g Hs Hsq) as [Hbl Hbz].
  assert (Hj : (r * Z.to_nat size + c < length (concat g))%nat) by (rewrite Hbl; nia).
  specialize (Hsol _ Hj). rewrite (Hbz r c Hr Hc) in Hsol.
  rewrite Hbl, <- Hxl in Hsol.
  pose proof (proj1 (bits_cells size g Hsq) Hb r c Hr Hc) as Hv.
  set (P := sumZ (length x) _) in *. clearbody P.
  unfold is_bit in Hv. Z.div_mod_to_equations. lia.
Qed.

(** C1: if [solve] returns a move list for a [size] by [size] grid of
    bits, pressing every move of the list, in any order, gives a grid on
    which [is_solved] is true. *)
Theorem solve_correct (size : Z) (g : grid) (moves ms : list (Z * Z)) :
  1 <= size -> square size g -> bits g ->
  solve size g = Some moves -> Permutation moves ms ->
  exists g', apply_moves size g ms = Ok g' /\ is_solved g' = true.
Proof.
  intros Hs Hsq Hb E Hperm. unfold solve in E.
  destruct (_solve_gf2 _ _) as [x|] eqn:Ex; [|discriminate]. injection E as <-.
  destruct (flattened_grid size g ltac:(lia) Hsq) as [Hbl _].
  destruct (transition_matrix_cells size ltac:(lia)) as [HA _].
  rewrite <- Hbl in HA.
  pose proof (transition_matrix_bits size ltac:(lia)) as HAb.
  pose proof (concat_bits g Hb) as Hbb.
  destruct (solve_gf2_Some _ _ _ HA HAb Hbb Ex) as [Hxl Hxb].
  apply (pressing_a_solution size g x ms); try assumption; try lia.
  apply (solve_gf2_sound _ _ _ HA HAb Hbb Ex).
Qed.

Lemma solve_correct_witness :
  exists g', apply_moves 3 [[0;0;0]; [0;1;0]; [0;0;0]]
                         [(1,0); (0,1); (1,1); (1,2); (2,1)] = Ok g'
             /\ is_solved g' = true.
Proof.
  apply (solve_correct 3 [[0;0;0]; [0;1;0]; [0;0;0]]
                       [(0,1); (1,0); (1,1); (1,2); (2,1)]
                       [(1,0); (0,1); (1,1); (1,2); (2,1)]).
  - lia.
  - split; [reflexivity|]. repeat constructor.
  - repeat constructor; (left; reflexivity) || (right; reflexivity).
  - vm_compute. reflexivity.
  - apply perm_swap.
Defined.

(** ** Generated puzzles *)

Lemma zeros_square (size : Z) :
  square size (replicate (Z.to_nat size) (replicate (Z.to_nat size) 0)).
Proof. apply (shape_zeros (Z.to_nat size) (Z.to_nat size)). Qed.

Lemma zeros_bits (size : Z) :
  bits (replicate (Z.to_nat size) (replicate (Z.to_nat size) 0)).
Proof.
  apply (shape_bits _ _ _ (zeros_square size)). intros i j _ _.
  change (replicate _ _) with (np_zeros2 (Z.to_nat size) (Z.to_nat size)).
  rewrite mget_zeros. left. reflexivity.
Qed.

Lemma linear_index (size : Z) (j : nat) :
  0 < size -> Z.of_nat j < size * size ->
  exists r c, (r < Z.to_nat size)%nat /\ (c < Z.to_nat size)%nat
              /\ j = (r * Z.to_nat size + c)%nat.
Proof.
  intros Hs Hj.
  exists (j / Z.to_nat size)%nat, (j mod Z.to_nat size)%nat.
  assert (Hpos : Z.to_nat size <> 0%nat) by lia.
  pose proof (Nat.mod_upper_bound j (Z.to_nat size) Hpos).
  pose proof (Nat.div_mod_eq j (Z.to_nat size)).
  split; [|split; [assumption|lia]].
  apply Nat.Div0.div_lt_upper_bound. nia.
Qed.

Lemma zeros_solvable (size : Z) :
  0 < size ->
  solvable size (replicate (Z.to_nat size) (replicate (Z.to_nat size) 0)).
Proof.
  intros Hs. exists (replicate (Z.to_nat (size * size)) 0).
  split; [apply length_replicate|]. intros j Hj.
  destruct (flattened_grid size _ Hs (zeros_square size)) as [Hbl Hbz].
  rewrite Hbl in Hj |- *.
  destruct (linear_index size j Hs ltac:(lia)) as (r & c & Hr & Hc & ->).
  rewrite (Hbz r c Hr Hc). unfold cell.
  change (replicate _ (replicate _ 0)) with (np_zeros2 (Z.to_nat size) (Z.to_nat size)).
  rewrite mget_zeros. rewrite sumZ_zero; [reflexivity|].
  intros i _. unfold zget.
  destruct (replicate _ 0 !! i) as [v|] eqn:E; cbn; [|lia].
  apply lookup_replicate_1 in E as [-> _]. lia.
Qed.

(** A press keeps the grid solvable: flip the entry of the pressed cell in
    the press vector. *)
Lemma apply_move_solvable (size : Z) (g g' : grid) (row col : Z) :
  0 < size -> square size g -> bits g -> in_range size (row, col) ->
  apply_move size g row col = Ok g' -> solvable size g -> solvable size g'.
Proof.
  intros Hs Hsq Hb Hin E (x & Hxl & Hsol).
  destruct (apply_move_cells size g row col Hsq Hin) as (g1 & E1 & Hsq1 & C).
  assert (g1 = g') by congruence. subst g1.
  pose proof (pos_to_idx_bounds size (row, col) Hin) as Hidx. cbn [fst snd] in Hidx.
  set (p := Z.to_nat (_pos_to_idx size row col)) in *.
  exists (<[p := zget x p + 1]> x). split; [rewrite length_insert; assumption|].
  destruct (flattened_grid size g Hs Hsq) as [Hbl Hbz].
  destruct (flattened_grid size g' Hs Hsq1) as [Hbl' Hbz'].
  destruct (transition_matrix_cells size Hs) as [_ Hcell].
  intros j Hj. rewrite Hbl' in Hj |- *.
  destruct (linear_index size j Hs ltac:(lia)) as (r & c & Hr & Hc & ->).
  specialize (Hsol (r * Z.to_nat size + c)%nat ltac:(lia)).
  rewrite Hbl, (Hbz r c Hr Hc) in Hsol.
  rewrite (Hbz' r c Hr Hc), (C r c Hr Hc).
  set (j := (r * Z.to_nat size + c)%nat) in *.
  rewrite (sumZ_ext _ _
             (fun i => mget (_build_transition_matrix size) j i * zget x i
                       + if decide (i = p)
                         then mget (_build_transition_matrix size) j p else 0)).
  2:{ intros i Hi. rewrite zget_insert.
      destruct (decide (i = p)) as [->|Hne].
      - rewrite decide_True by (split; [reflexivity|lia]). lia.
      - rewrite decide_False by (intros [? _]; auto). lia. }
  rewrite sumZ_add.
  rewrite (sumZ_single _ p (fun i => if decide (i = p) then _ else 0)).
  2:{ lia. }
  2:{ intros i _ Hne. rewrite decide_False by assumption. reflexivity. }
  rewrite decide_True by reflexivity.
  assert (Hjn : Z.of_nat j < size * size) by (subst j; nia).
  rewrite (Hcell j p Hjn ltac:(lia)).
  assert (Ej : _idx_to_pos size (Z.of_nat j) = (Z.of_nat r, Z.of_nat c)).
  { pose proof (idx_to_pos_to_idx size (Z.of_nat r, Z.of_nat c)) as Ert.
    cbn [fst snd] in Ert. unfold _pos_to_idx in Ert.
    replace (Z.of_nat j) with (Z.of_nat r * size + Z.of_nat c) by (subst j; lia).
    apply Ert. split; cbn [fst snd]; lia. }
  assert (Ep : _idx_to_pos size (Z.of_nat p) = (row, col)).
  { subst p. rewrite Z2Nat.id by lia.
    apply (idx_to_pos_to_idx size (row, col) Hin). }
  rewrite Ej, Ep. cbn [fst snd].
  rewrite (self_or_neighbourb_sym (Z.of_nat r)).
  pose proof (proj1 (bits_cells size g Hsq) Hb r c Hr Hc) as Hv.
  set (S := sumZ _ _) in *. clearbody S.
  unfold is_bit in Hv.
  destruct (self_or_neighbourb row col _ _); Z.div_mod_to_equations; lia.
Qed.

Lemma solvable_solve (size : Z) (g : grid) :
  0 < size -> square size g -> bits g -> solvable size g ->
  exists moves, solve size g = Some moves.
Proof.
  intros Hs Hsq Hb (x & _ & Hsol). unfold solve.
  destruct (flattened_grid size g Hs Hsq) as [Hbl _].
  destruct (transition_matrix_cells size Hs) as [HA _].
  rewrite <- Hbl in HA.
  pose proof (solve_gf2_complete _ _ x HA (transition_matrix_bits size Hs)
                (concat_bits g Hb) Hsol) as Hne.
  destruct (_solve_gf2 _ _) as [sol|]; [eauto|contradiction].
Qed.

Section RandomSourceFacts.
Variable rng : Type.
Variable np_random_seed : Z -> rng.
Variable np_random_randint : Z -> Z -> rng -> Z * rng.

(** [np.random.randint(lo, hi)] draws from [lo, hi). *)
Hypothesis randint_range :
  forall lo hi st, lo < hi -> lo <= fst (np_random_randint lo hi st) < hi.

Lemma random_presses_solvable (size : Z) (k : nat) :
  0 < size ->
  forall (g : grid) (st : rng),
    square size g -> bits g -> solvable size g ->
    exists g', fst (random_presses rng np_random_randint size k g st) = Ok g'
               /\ square size g' /\ bits g' /\ solvable size g'.
Proof.
  intros Hs. induction k as [|k IH]; intros g st Hsq Hb Hsol.
  - exists g. cbn. auto.
  - cbn [random_presses].
    pose proof (randint_range 0 size st Hs) as Hrow.
    destruct (np_random_randint 0 size st) as [row st1]. cbn [fst] in Hrow.
    pose proof (randint_range 0 size st1 Hs) as Hcol.
    destruct (np_random_randint 0 size st1) as [col st2]. cbn [fst] in Hcol.
    assert (Hin : in_range size (row, col)) by (split; assumption).
    destruct (apply_move_keeps_bits size g row col Hsq Hb Hin)
      as (g1 & E1 & Hsq1 & Hb1).
    rewrite E1. apply IH; try assumption.
    apply (apply_move_solvable size g g1 row col); assumption.
Qed.

(** C2: for every seed (given or not) and every [size >= 1] the generator
    returns a grid, and [solve] returns a move list for it. *)
Theorem generated_puzzle_solvable (size : Z) (seed : option Z) (st : rng) :
  1 <= size ->
  exists g,
    fst (generate_random_puzzle rng np_random_seed np_random_randint
                                size seed st) = Ok g
    /\ square size g /\ bits g
    /\ exists moves, solve size g = Some moves.
Proof.
  intros Hs. unfold generate_random_puzzle.
  destruct (np_random_randint 1 (size * size + 1) _) as [num_moves st1].
  destruct (random_presses_solvable size (Z.to_nat num_moves) ltac:(lia)
              _ st1 (zeros_square size) (zeros_bits size)
              (zeros_solvable size ltac:(lia)))
    as (g & E & Hsq & Hb & Hsol).
  exists g. split; [assumption|]. split; [assumption|]. split; [assumption|].
  apply solvable_solve; try assumption. lia.
Qed.

(** C9: with a seed given, the result does not depend on the state the
    global generator was in: two calls with the same seed and size return
    the same grid (and leave the generator in the same state). *)
Theorem generate_random_puzzle_deterministic
  (size seed : Z) (st1 st2 : rng) :
  generate_random_puzzle rng np_random_seed np_random_randint
                         size (Some seed) st1
  = generate_random_puzzle rng np_random_seed np_random_randint
                           size (Some seed) st2.
Proof. reflexivity. Qed.
End RandomSourceFacts.

Lemma lcg_randint_range (lo hi st : Z) :
  lo < hi -> lo <= fst (lcg_randint lo hi st) < hi.
Proof.
  intros H. unfold lcg_randint. cbn [fst].
  pose proof (Z.mod_pos_bound st (hi - lo) ltac:(lia)). lia.
Qed.

Lemma generated_puzzle_solvable_witness :
  exists g,
    fst (generate_random_puzzle Z lcg_seed lcg_randint 3 (Some 123) 0) = Ok g
    /\ square 3 g /\ bits g
    /\ exists moves, solve 3 g = Some moves.
Proof.
  apply (generated_puzzle_solvable Z lcg_seed lcg_randint lcg_randint_range
                                   3 (Some 123) 0).
  lia.
Defined.

(** Without a seed the result does depend on the generator's state. *)
Example unseeded_depends_on_state :
  fst (generate_random_puzzle Z lcg_seed lcg_randint 3 None 0)
  <> fst (generate_random_puzzle Z lcg_seed lcg_randint 3 None 1).
Proof. vm_compute. discriminate. Qed.

Example generate_with_lcg :
  fst (generate_random_puzzle Z lcg_seed lcg_randint 3 (Some 123) 0)
  = Ok [[0; 1; 1]; [0; 1; 1]; [1; 1; 0]].
Proof. vm_compute. reflexivity. Qed.

(** * Further properties of the puzzle code *)

Ltac prove_bits :=
  repeat match goal with
         | |- bits _ => unfold bits
         | |- Forall _ _ => constructor
         | |- is_bit _ => first [left; reflexivity | right; reflexivity]
         end.

(** ** Index conversion *)

(** X1: [_idx_to_pos] undoes [_pos_to_idx] on the cells of the grid, and the
    index of a cell lies in [0, size * size). *)
Theorem idx_pos_round_trip (size row col : Z) :
  0 <= row < size -> 0 <= col < size ->
  _idx_to_pos size (_pos_to_idx size row col) = (row, col)
  /\ 0 <= _pos_to_idx size row col < size * size.
Proof.
  intros Hr Hc. split.
  - apply (idx_to_pos_to_idx size (row, col)). split; assumption.
  - apply (pos_to_idx_bounds size (row, col)). split; assumption.
Qed.

Lemma idx_pos_round_trip_witness :
  _idx_to_pos 3 (_pos_to_idx 3 2 1) = (2, 1)
  /\ 0 <= _pos_to_idx 3 2 1 < 3 * 3.
Proof. apply (idx_pos_round_trip 3 2 1); lia. Defined.

(** ** Sequences of presses *)

Lemma Forall_in_range_Permutation (size : Z) (ms ms' : list (Z * Z)) :
  Permutation ms ms' -> Forall (in_range size) ms -> Forall (in_range size) ms'.
Proof.
  intros Hp H. apply List.Forall_forall. intros m Hm.
  rewrite List.Forall_forall in H. apply H.
  eapply Permutation_in; [symmetry|]; eassumption.
Qed.

(** X2: the grid reached by a list of in-range presses does not depend on
    the order of the presses. *)
Theorem apply_moves_any_order (size : Z) (g : grid) (ms ms' : list (Z * Z)) :
  square size g -> Forall (in_range size) ms -> Permutation ms ms' ->
  exists g', apply_moves size g ms = Ok g' /\ apply_moves size g ms' = Ok g'.
Proof.
  intros Hsq Hin Hperm.
  destruct (apply_moves_cells size ms g Hsq Hin) as (g1 & E1 & Hsq1 & C1).
  destruct (apply_moves_cells size ms' g Hsq
              (Forall_in_range_Permutation size ms ms' Hperm Hin))
    as (g2 & E2 & Hsq2 & C2).
  exists g1. split; [assumption|]. rewrite E2. f_equal.
  apply (grid_ext size); [assumption..|].
  intros r c Hr Hc. rewrite (C1 r c Hr Hc), (C2 r c Hr Hc).
  rewrite (presses_Permutation size ms ms' r c Hperm). reflexivity.
Qed.

Lemma apply_moves_any_order_witness :
  exists g', apply_moves 3 [[0;5;0]; [1;1;0]; [0;0;1]] [(0,0); (2,1); (1,1)] = Ok g'
             /\ apply_moves 3 [[0;5;0]; [1;1;0]; [0;0;1]] [(2,1); (0,0); (1,1)]
                = Ok g'.
Proof.
  apply (apply_moves_any_order 3 [[0;5;0]; [1;1;0]; [0;0;1]]
                               [(0,0); (2,1); (1,1)] [(2,1); (0,0); (1,1)]).
  - split; [reflexivity|]. repeat constructor.
  - repeat constructor; cbn; lia.
  - apply perm_swap.
Defined.

(** A press is undone by the same press. *)
Lemma apply_move_undo (size : Z) (g g' : grid) (row col : Z) :
  square size g -> in_range size (row, col) ->
  apply_move size g row col = Ok g' -> apply_move size g' row col = Ok g.
Proof.
  intros Hsq Hin E.
  destruct (apply_move_cells size g row col Hsq Hin) as (g1 & E1 & Hsq1 & C1).
  assert (g1 = g') by congruence. subst g1.
  destruct (apply_move_cells size g' row col Hsq1 Hin) as (g2 & E2 & Hsq2 & C2).
  rewrite E2. f_equal. apply (grid_ext size); [assumption..|].
  intros r c Hr Hc. rewrite (C2 r c Hr Hc), (C1 r c Hr Hc).
  destruct (self_or_neighbourb _ _ _ _); lia.
Qed.

(** X3: a press of a cell of the grid never returns an equal grid, and a
    press on a solved grid gives an unsolved one. *)
Theorem apply_move_changes_grid (size : Z) (g : grid) (row col : Z) :
  square size g -> 0 <= row < size -> 0 <= col < size ->
  exists g', apply_move size g row col = Ok g' /\ g' <> g
             /\ (is_solved g = true -> is_solved g' = false).
Proof.
  intros Hsq Hr Hc.
  assert (Hin : in_range size (row, col)) by (split; assumption).
  destruct (apply_move_cells size g row col Hsq Hin) as (g' & E & Hsq' & C).
  exists g'. split; [assumption|].
  specialize (C (Z.to_nat row) (Z.to_nat col) ltac:(lia) ltac:(lia)).
  rewrite !Z2Nat.id in C by lia.
  assert (Hself : self_or_neighbourb row col row col = true).
  { unfold self_or_neighbourb. rewrite !Z.eqb_refl. reflexivity. }
  rewrite Hself in C. split.
  - intros ->. lia.
  - intros Hs. destruct (is_solved g') eqn:Hs'; [exfalso|reflexivity].
    assert (Hz : forall h : grid, square size h -> is_solved h = true ->
                   cell h (Z.to_nat row) (Z.to_nat col) = 0).
    { intros h Hh Hsol.
      destruct (square_row size h (Z.to_nat row) Hh ltac:(lia)) as (rw & Hrw & Hl).
      destruct (lookup_lt_is_Some_2 rw (Z.to_nat col) ltac:(lia)) as [v Hv].
      unfold cell, mget. rewrite (row_of_lookup _ _ _ Hrw), (zget_lookup _ _ _ Hv).
      unfold is_solved in Hsol. rewrite forallb_forall in Hsol.
      specialize (Hsol rw ltac:(apply list_elem_of_In;
                                eapply list_elem_of_lookup_2; eassumption)).
      rewrite forallb_forall in Hsol. apply Z.eqb_eq, Hsol.
      apply list_elem_of_In. eapply list_elem_of_lookup_2. eassumption. }
    rewrite (Hz g Hsq Hs), (Hz g' Hsq' Hs') in C. discriminate.
Qed.

Lemma apply_move_changes_grid_witness :
  exists g', apply_move 2 [[0;0]; [0;0]] 1 1 = Ok g' /\ g' <> [[0;0]; [0;0]]
             /\ (is_solved [[0;0]; [0;0]] = true -> is_solved g' = false).
Proof.
  apply (apply_move_changes_grid 2 [[0;0]; [0;0]] 1 1).
  - split; [reflexivity|]. repeat constructor.
  - lia.
  - lia.
Defined.

(** ** The GF(2) solver on arbitrary square systems *)

(** X4: a vector returned by [_solve_gf2] for an [n] by [n] matrix of bits
    and a right-hand side of [n] bits satisfies every equation of the
    system modulo 2. *)
Theorem solve_gf2_returns_solution (A : list (list Z)) (b x : list Z) :
  shape (length b) (length b) A -> bits A -> Forall is_bit b ->
  _solve_gf2 A b = Some x ->
  forall r, (r < length b)%nat ->
            sumZ (length b) (fun j => mget A r j * zget x j) mod 2 = zget b r.
Proof.
  intros Hs HA Hb E r Hr.
  rewrite (solve_gf2_sound A b x Hs HA Hb E r Hr).
  destruct (is_bit_zget b r Hb) as [-> | ->]; reflexivity.
Qed.

Lemma solve_gf2_returns_solution_witness :
  _solve_gf2 [[1; 1; 0]; [0; 1; 1]; [1; 0; 1]] [1; 0; 1] = Some [1; 0; 0]
  /\ sumZ (length [1; 0; 1])
          (fun j => mget [[1; 1; 0]; [0; 1; 1]; [1; 0; 1]] 2 j
                    * zget [1; 0; 0] j) mod 2
     = zget [1; 0; 1] 2.
Proof.
  split; [vm_compute; reflexivity|].
  apply (solve_gf2_returns_solution [[1; 1; 0]; [0; 1; 1]; [1; 0; 1]]
                                    [1; 0; 1] [1; 0; 0]).
  - split; [reflexivity|]. repeat constructor.
  - prove_bits.
  - prove_bits.
  - vm_compute. reflexivity.
  - cbn. lia.
Defined.

(** X5: [_solve_gf2] returns [None] exactly when the system has no solution
    at all modulo 2. *)
Theorem solve_gf2_none_iff_unsolvable (A : list (list Z)) (b : list Z) :
  shape (length b) (length b) A -> bits A -> Forall is_bit b ->
  _solve_gf2 A b = None <-> ~ exists x, solves A b x.
Proof.
  intros Hs HA Hb. split.
  - intros E [x Hx]. exact (solve_gf2_complete A b x Hs HA Hb Hx E).
  - intros Hn. destruct (_solve_gf2 A b) as [x|] eqn:E; [|reflexivity].
    exfalso. apply Hn. exists x. exact (solve_gf2_sound A b x Hs HA Hb E).
Qed.

Lemma solve_gf2_none_iff_unsolvable_witness :
  _solve_gf2 [[1; 1]; [1; 1]] [0; 1] = None
  <-> ~ exists x, solves [[1; 1]; [1; 1]] [0; 1] x.
Proof.
  apply (solve_gf2_none_iff_unsolvable [[1; 1]; [1; 1]] [0; 1]).
  - split; [reflexivity|]. repeat constructor.
  - prove_bits.
  - prove_bits.
Defined.

Lemma zget_replicate_zero (n j : nat) : zget (replicate n 0) j = 0.
Proof.
  unfold zget. destruct (replicate n 0 !! j) as [v|] eqn:E; [|reflexivity].
  apply lookup_replicate_1 in E as [-> _]. reflexivity.
Qed.

Lemma all_zero_replicate (x : list Z) :
  (forall j, zget x j = 0) -> x = replicate (length x) 0.
Proof.
  intros H. apply list_eq_same_length with (length x);
    [apply length_replicate|reflexivity|].
  intros j u v _ Hu Hv. apply lookup_replicate_1 in Hv as [-> _].
  rewrite <- (zget_lookup _ _ _ Hu). apply H.
Qed.

Lemma solve_gf2_zero_rhs (A : list (list Z)) (n : nat) :
  shape n n A -> bits A ->
  _solve_gf2 A (replicate n 0) = Some (replicate n 0).
Proof.
  intros Hs HA. set (b := replicate n 0).
  assert (Hbl : length b = n) by apply length_replicate.
  assert (Hb : Forall is_bit b) by (apply Forall_replicate; left; reflexivity).
  rewrite <- Hbl in Hs.
  destruct (forward_elimination_reduced (length b) (hstack A b))
    as [Hred Hsat]; [apply hstack_shape; auto|apply hstack_bits; auto|].
  assert (Hzero : sat (length b) (fst (forward_elimination (length b) (hstack A b)))
                      (replicate n 0)).
  { apply Hsat. apply sat_hstack; [assumption|]. intros r Hr.
    rewrite sumZ_zero by (intros j _; rewrite zget_replicate_zero; lia).
    unfold b. rewrite zget_replicate_zero. reflexivity. }
  rewrite solve_gf2_unfold.
  set (M := fst (forward_elimination (length b) (hstack A b))) in *.
  set (k := snd (forward_elimination (length b) (hstack A b))) in *.
  assert (Haug : forall r, (r < length b)%nat -> mget M r (length b) = 0).
  { intros r Hr. specialize (Hzero r Hr). unfold row_sat in Hzero.
    rewrite sumZ_zero in Hzero by (intros j _; rewrite zget_replicate_zero; lia).
    fold (mget M r (length b)) in Hzero.
    destruct (is_bit_mget M r (length b) (proj1 (proj2 Hred))) as [E|E];
      [assumption|rewrite E in Hzero; discriminate]. }
  destruct (inconsistent M k (length b)) eqn:Hinc.
  - exfalso. exact (inconsistent_unsat _ _ _ _ (proj1 Hred) Hinc Hzero).
  - f_equal.
    destruct (back_substitution_spec _ M k _ Hred) as (Hxl & Hxp & Hxf).
    rewrite (all_zero_replicate (back_substitution M k (length b))).
    + rewrite Hxl. f_equal. assumption.
    + intros j. destruct (decide (j ∈ pivot_columns (length b) (hstack A b)))
        as [Hin|Hout].
      * apply list_elem_of_lookup in Hin as [i Hi]. rewrite (Hxp i j Hi).
        apply Haug. apply lookup_lt_Some in Hi.
        destruct Hred as (_ & _ & Hlen & Hk & _). lia.
      * apply Hxf. assumption.
Qed.

(** X6: for a right-hand side of zeros the solver returns the zero vector,
    whatever the matrix (also a singular one). *)
Theorem solve_gf2_homogeneous (A : list (list Z)) (n : nat) :
  shape n n A -> bits A ->
  _solve_gf2 A (replicate n 0) = Some (replicate n 0).
Proof. apply solve_gf2_zero_rhs. Qed.

Lemma solve_gf2_homogeneous_witness :
  _solve_gf2 [[1; 1]; [1; 1]] (replicate 2 0) = Some (replicate 2 0).
Proof.
  apply (solve_gf2_homogeneous [[1; 1]; [1; 1]] 2).
  - split; [reflexivity|]. repeat constructor.
  - prove_bits.
Defined.

(** ** The move list of solve *)

Lemma collect_moves_zeros (size : Z) (n : nat) :
  collect_moves size (replicate n 0) = [].
Proof.
  induction n as [|n IH]; [reflexivity|].
  rewrite replicate_S_end, collect_moves_snoc. exact IH.
Qed.

Lemma is_solved_zero_cells (size : Z) (g : grid) (r c : nat) :
  square size g -> is_solved g = true ->
  (r < Z.to_nat size)%nat -> (c < Z.to_nat size)%nat -> cell g r c = 0.
Proof.
  intros Hsq Hsol Hr Hc.
  destruct (square_row size g r Hsq Hr) as (rw & Hrw & Hl).
  destruct (lookup_lt_is_Some_2 rw c ltac:(lia)) as [v Hv].
  unfold cell, mget. rewrite (row_of_lookup _ _ _ Hrw), (zget_lookup _ _ _ Hv).
  unfold is_solved in Hsol. rewrite forallb_forall in Hsol.
  assert (Hin : In rw g).
  { apply list_elem_of_In. eapply list_elem_of_lookup_2. eassumption. }
  specialize (Hsol rw Hin). rewrite forallb_forall in Hsol.
  apply Z.eqb_eq, Hsol. apply list_elem_of_In.
  eapply list_elem_of_lookup_2. eassumption.
Qed.

Lemma is_solved_bits (size : Z) (g : grid) :
  square size g -> is_solved g = true -> bits g.
Proof.
  intros Hsq Hsol. apply (bits_cells size g Hsq). intros r c Hr Hc.
  left. apply (is_solved_zero_cells size); assumption.
Qed.

Lemma is_solved_flattened (size : Z) (g : grid) :
  0 < size -> square size g -> is_solved g = true ->
  concat g = replicate (Z.to_nat (size * size)) 0.
Proof.
  intros Hs Hsq Hsol.
  destruct (flattened_grid size g Hs Hsq) as [Hbl Hbz].
  rewrite <- Hbl. apply all_zero_replicate. intros j.
  destruct (decide (j < length (concat g))%nat) as [Hlt|Hge].
  - rewrite Hbl in Hlt.
    destruct (linear_index size j Hs ltac:(lia)) as (r & c & Hr & Hc & ->).
    rewrite (Hbz r c Hr Hc). apply (is_solved_zero_cells size); assumption.
  - apply zget_ge. lia.
Qed.

(** X7: on a grid that is already solved [solve] returns the empty move
    list. *)
Theorem solve_solved_grid (size : Z) (g : grid) :
  1 <= size -> square size g -> is_solved g = true -> solve size g = Some [].
Proof.
  intros Hs Hsq Hsol. unfold solve.
  rewrite (is_solved_flattened size g ltac:(lia) Hsq Hsol).
  destruct (transition_matrix_cells size ltac:(lia)) as [HA _].
  rewrite (solve_gf2_zero_rhs _ _ HA (transition_matrix_bits size ltac:(lia))).
  rewrite collect_moves_zeros. reflexivity.
Qed.

Lemma solve_solved_grid_witness :
  solve 4 [[0;0;0;0]; [0;0;0;0]; [0;0;0;0]; [0;0;0;0]] = Some [].
Proof.
  apply (solve_solved_grid 4 [[0;0;0;0]; [0;0;0;0]; [0;0;0;0]; [0;0;0;0]]).
  - lia.
  - split; [reflexivity|]. repeat constructor.
  - reflexivity.
Defined.

Lemma StronglySorted_snoc (l : list Z) (a : Z) :
  StronglySorted Z.lt l -> Forall (fun y => y < a) l ->
  StronglySorted Z.lt (l ++ [a]).
Proof.
  induction 1 as [|y l Hl IH Hy]; intros Hall; cbn [app].
  - repeat constructor.
  - inversion Hall as [|? ? Hya Hla]; subst. constructor.
    + apply IH. assumption.
    + apply Forall_app. split; [assumption|]. constructor; [assumption|constructor].
Qed.

Lemma StronglySorted_lt_NoDup (l : list Z) : StronglySorted Z.lt l -> NoDup l.
Proof.
  induction 1 as [|y l Hl IH Hy]; constructor.
  - intros Hin. apply list_elem_of_In in Hin.
    rewrite List.Forall_forall in Hy. specialize (Hy y Hin). lia.
  - assumption.
Qed.

Lemma collect_moves_sorted (size : Z) (x : list Z) :
  0 < size ->
  StronglySorted Z.lt
    (map (fun m => _pos_to_idx size (fst m) (snd m)) (collect_moves size x))
  /\ Forall (fun k => k < Z.of_nat (length x))
            (map (fun m => _pos_to_idx size (fst m) (snd m))
                 (collect_moves size x)).
Proof.
  intros Hs. induction x as [|a x [IHs IHb]] using rev_ind.
  - split; constructor.
  - rewrite collect_moves_snoc, length_app. cbn [length].
    assert (Hb' : Forall (fun k => k < Z.of_nat (length x + 1))
                    (map (fun m => _pos_to_idx size (fst m) (snd m))
                         (collect_moves size x))).
    { eapply Forall_impl; [exact IHb|]. cbn. intros. lia. }
    destruct (a =? 1); [|split; assumption].
    rewrite map_app. cbn [map]. rewrite (pos_to_idx_to_pos size _ Hs). split.
    + apply StronglySorted_snoc; assumption.
    + apply Forall_app. split; [assumption|].
      constructor; [lia|constructor].
Qed.

(** X8: the moves returned by [solve] are cells of the grid, listed in
    strictly increasing row-major index; no cell is listed twice. *)
Theorem solve_moves_ascending (size : Z) (g : grid) (moves : list (Z * Z)) :
  1 <= size -> square size g -> bits g -> solve size g = Some moves ->
  Forall (fun m => 0 <= fst m < size /\ 0 <= snd m < size) moves
  /\ StronglySorted Z.lt (map (fun m => _pos_to_idx size (fst m) (snd m)) moves)
  /\ NoDup moves.
Proof.
  intros Hs Hsq Hb E. unfold solve in E.
  destruct (_solve_gf2 _ _) as [x|] eqn:Ex; [|discriminate]. injection E as <-.
  destruct (flattened_grid size g ltac:(lia) Hsq) as [Hbl _].
  destruct (transition_matrix_cells size ltac:(lia)) as [HA _].
  rewrite <- Hbl in HA.
  destruct (solve_gf2_Some _ _ _ HA (transition_matrix_bits size ltac:(lia))
              (concat_bits g Hb) Ex) as [Hxl Hxb].
  destruct (collect_moves_spec size x ltac:(lia) Hxb ltac:(lia)) as [Hin _].
  destruct (collect_moves_sorted size x ltac:(lia)) as [Hsorted _].
  split; [exact Hin|]. split; [assumption|].
  apply (NoDup_fmap_1 (fun m => _pos_to_idx size (fst m) (snd m))).
  apply StronglySorted_lt_NoDup. assumption.
Qed.

Lemma solve_moves_ascending_witness :
  Forall (fun m => 0 <= fst m < 3 /\ 0 <= snd m < 3)
         [(0,1); (1,0); (1,1); (1,2); (2,1)]
  /\ StronglySorted Z.lt (map (fun m => _pos_to_idx 3 (fst m) (snd m))
                              [(0,1); (1,0); (1,1); (1,2); (2,1)])
  /\ NoDup [(0,1); (1,0); (1,1); (1,2); (2,1)].
Proof.
  apply (solve_moves_ascending 3 [[0;0;0]; [0;1;0]; [0;0;0]]).
  - lia.
  - split; [reflexivity|]. repeat constructor.
  - prove_bits.
  - vm_compute. reflexivity.
Defined.

(** ** Solvability *)

Lemma solved_solvable (size : Z) (g : grid) :
  0 < size -> square size g -> is_solved g = true -> solvable size g.
Proof.
  intros Hs Hsq Hsol. exists (replicate (Z.to_nat (size * size)) 0).
  split; [apply length_replicate|]. intros r Hr.
  rewrite (is_solved_flattened size g Hs Hsq Hsol).
  rewrite sumZ_zero by (intros j _; rewrite zget_replicate_zero; lia).
  rewrite zget_replicate_zero. reflexivity.
Qed.

Lemma apply_moves_solvable_back (size : Z) (ms : list (Z * Z)) :
  0 < size ->
  forall g g' : grid,
    square size g -> bits g -> Forall (in_range size) ms ->
    apply_moves size g ms = Ok g' -> solvable size g' -> solvable size g.
Proof.
  intros Hs. induction ms as [|m ms IH]; intros g g' Hsq Hb Hall E Hsol.
  - cbn in E. injection E as <-. assumption.
  - inversion Hall as [|? ? Hm Hms]; subst. cbn [apply_moves] in E.
    assert (Hin : in_range size (fst m, snd m)) by (destruct m; exact Hm).
    destruct (apply_move_keeps_bits size g (fst m) (snd m) Hsq Hb Hin)
      as (g1 & E1 & Hsq1 & Hb1).
    rewrite E1 in E.
    apply (apply_move_solvable size g1 g (fst m) (snd m)); try assumption.
    + apply (apply_move_undo size g); assumption.
    + apply (IH g1 g'); assumption.
Qed.

Lemma solve_Some_presses (size : Z) (g : grid) (moves : list (Z * Z)) :
  0 < size -> square size g -> bits g -> solve size g = Some moves ->
  Forall (in_range size) moves
  /\ exists g', apply_moves size g moves = Ok g' /\ is_solved g' = true.
Proof.
  intros Hs Hsq Hb E. unfold solve in E.
  destruct (_solve_gf2 _ _) as [x|] eqn:Ex; [|discriminate]. injection E as <-.
  destruct (flattened_grid size g Hs Hsq) as [Hbl _].
  destruct (transition_matrix_cells size Hs) as [HA _].
  rewrite <- Hbl in HA.
  pose proof (transition_matrix_bits size Hs) as HAb.
  pose proof (concat_bits g Hb) as Hbb.
  destruct (solve_gf2_Some _ _ _ HA HAb Hbb Ex) as [Hxl Hxb].
  split; [apply (collect_moves_spec size x Hs Hxb); lia|].
  apply (pressing_a_solution size g x); try assumption; try lia.
  - apply (solve_gf2_sound _ _ _ HA HAb Hbb Ex).
  - reflexivity.
Qed.

(** X9: [solve] returns [None] exactly for the grids that no sequence of
    presses can turn all off. *)
Theorem solve_none_iff_no_press_sequence (size : Z) (g : grid) :
  1 <= size -> square size g -> bits g ->
  solve size g = None
  <-> ~ exists ms g', Forall (fun m => 0 <= fst m < size /\ 0 <= snd m < size) ms
                      /\ apply_moves size g ms = Ok g' /\ is_solved g' = true.
Proof.
  intros Hs Hsq Hb. split.
  - intros E (ms & g' & Hin & Hg' & Hsol).
    assert (Hsq' : square size g').
    { destruct (apply_moves_cells size ms g Hsq Hin) as (g1 & E1 & Hsq1 & _).
      congruence. }
    destruct (solvable_solve size g ltac:(lia) Hsq Hb) as [moves Hm]; [|congruence].
    apply (apply_moves_solvable_back size ms ltac:(lia) g g'); try assumption.
    apply solved_solvable; try assumption. lia.
  - intros Hn. destruct (solve size g) as [moves|] eqn:E; [|reflexivity].
    exfalso. apply Hn.
    destruct (solve_Some_presses size g moves ltac:(lia) Hsq Hb E)
      as (Hin & g' & Hg' & Hsol).
    exists moves, g'. auto.
Qed.

(** On a 4 by 4 board a single light in a corner cannot be turned off. *)
Example solve_unsolvable_grid :
  solve 4 [[1;0;0;0]; [0;0;0;0]; [0;0;0;0]; [0;0;0;0]] = None.
Proof. vm_compute. reflexivity. Qed.

Lemma solve_none_iff_no_press_sequence_witness :
  solve 4 [[1;0;0;0]; [0;0;0;0]; [0;0;0;0]; [0;0;0;0]] = None
  <-> ~ exists ms g', Forall (fun m => 0 <= fst m < 4 /\ 0 <= snd m < 4) ms
                      /\ apply_moves 4 [[1;0;0;0]; [0;0;0;0]; [0;0;0;0]; [0;0;0;0]]
                                     ms = Ok g'
                      /\ is_solved g' = true.
Proof.
  apply (solve_none_iff_no_press_sequence
           4 [[1;0;0;0]; [0;0;0;0]; [0;0;0;0]; [0;0;0;0]]).
  - lia.
  - split; [reflexivity|]. repeat constructor.
  - prove_bits.
Defined.

Lemma sumZ_scale (n : nat) (f : nat -> Z) (c : Z) :
  sumZ n (fun j => f j * c) = sumZ n f * c.
Proof. induction n as [|n IH]; cbn [sumZ]; [reflexivity|]. rewrite IH. lia. Qed.

(** A right inverse of the matrix modulo 2 gives a solution for every
    right-hand side. *)
Lemma right_inverse_solves (A B : list (list Z)) (b : list Z) :
  (forall r c, (r < length b)%nat -> (c < length b)%nat ->
               sumZ (length b) (fun j => mget A r j * mget B j c) mod 2
               = if (r =? c)%nat then 1 else 0) ->
  solves A b (map (fun j => sumZ (length b) (fun k => mget B j k * zget b k))
                  (seq 0 (length b))).
Proof.
  intros Hinv r Hr. set (n := length b) in *.
  rewrite (sumZ_ext n _
             (fun j => sumZ n (fun k => mget A r j * mget B j k * zget b k))).
  2:{ intros j Hj. unfold zget at 1. rewrite list_lookup_fmap.
      rewrite lookup_seq_lt by assumption. cbn.
      rewrite Z.mul_comm, <- sumZ_scale. apply sumZ_ext. intros k _. lia. }
  rewrite sumZ_swap.
  rewrite (sumZ_mod2 n _ (fun k => (if (r =? k)%nat then 1 else 0) * zget b k)).
  2:{ intros k Hk. rewrite sumZ_scale.
      rewrite <- Z.mul_mod_idemp_l by lia. rewrite (Hinv r k Hr Hk).
      reflexivity. }
  rewrite (sumZ_single n r) by
    (try assumption; intros k _ Hne;
     replace (r =? k)%nat with false by (symmetry; apply Nat.eqb_neq; lia); lia).
  rewrite Nat.eqb_refl. f_equal. lia.
Qed.

(** X10: on the 3 by 3 board, the size the demo uses, [solve] finds a move
    list for every grid of bits (the transition matrix is invertible
    modulo 2). *)
Theorem solve_3x3_always_succeeds (g : grid) :
  square 3 g -> bits g -> exists moves, solve 3 g = Some moves.
Proof.
  intros Hsq Hb. apply solvable_solve; [lia|assumption..|].
  destruct (flattened_grid 3 g ltac:(lia) Hsq) as [Hbl _].
  set (B := [[1; 0; 1; 0; 0; 1; 1; 1; 0]; [0; 0; 0; 0; 1; 0; 1; 1; 1];
             [1; 0; 1; 1; 0; 0; 0; 1; 1]; [0; 0; 1; 0; 1; 1; 0; 0; 1];
             [0; 1; 0; 1; 1; 1; 0; 1; 0]; [1; 0; 0; 1; 1; 0; 1; 0; 0];
             [1; 1; 0; 0; 0; 1; 1; 0; 1]; [1; 1; 1; 0; 1; 0; 0; 0; 0];
             [0; 1; 1; 1; 0; 0; 1; 0; 1]]).
  exists (map (fun j => sumZ (length (concat g))
                             (fun k => mget B j k * zget (concat g) k))
              (seq 0 (length (concat g)))).
  split; [rewrite length_map, length_seq; assumption|].
  apply right_inverse_solves. rewrite Hbl.
  assert (Hcheck :
            forallb (fun r => forallb
              (fun c => sumZ 9 (fun j => mget (_build_transition_matrix 3) r j
                                         * mget B j c) mod 2
                        =? if (r =? c)%nat then 1 else 0)
              (seq 0 9)) (seq 0 9) = true) by (vm_compute; reflexivity).
  intros r c Hr Hc. rewrite forallb_forall in Hcheck.
  specialize (Hcheck r ltac:(apply in_seq; cbn in *; lia)).
  rewrite forallb_forall in Hcheck.
  apply Z.eqb_eq, Hcheck. apply in_seq. cbn in *. lia.
Qed.

Lemma solve_3x3_always_succeeds_witness :
  exists moves, solve 3 [[1;1;0]; [0;1;0]; [1;0;1]] = Some moves.
Proof.
  apply (solve_3x3_always_succeeds [[1;1;0]; [0;1;0]; [1;0;1]]).
  - split; [reflexivity|]. repeat constructor.
  - prove_bits.
Defined.

(** ** A solution pressed on a grid that has moved on *)

(** X11: if the solution computed for [g] is pressed after other presses
    [ms] have been made on [g] (as the demo's auto-solve does after manual
    toggles), the final grid is the one [ms] alone produces from the
    all-off grid. *)
Theorem stale_solution_leaves_presses
  (size : Z) (g : grid) (sol ms : list (Z * Z)) :
  1 <= size -> square size g -> bits g -> solve size g = Some sol ->
  Forall (fun m => 0 <= fst m < size /\ 0 <= snd m < size) ms ->
  exists g1 g2,
    apply_moves size g ms = Ok g1 /\ apply_moves size g1 sol = Ok g2
    /\ apply_moves size (replicate (Z.to_nat size) (replicate (Z.to_nat size) 0)) ms
       = Ok g2.
Proof.
  intros Hs Hsq Hb Esol Hms.
  destruct (solve_Some_presses size g sol ltac:(lia) Hsq Hb Esol)
    as (Hsolin & gs & Egs & Hsolved).
  destruct (apply_moves_cells size sol g Hsq Hsolin) as (gs' & Egs' & Hsqs & Cs).
  assert (gs' = gs) by congruence. subst gs'.
  destruct (apply_moves_cells size ms g Hsq Hms) as (g1 & E1 & Hsq1 & C1).
  destruct (apply_moves_cells size sol g1 Hsq1 Hsolin) as (g2 & E2 & Hsq2 & C2).
  destruct (apply_moves_cells size ms _ (zeros_square size) Hms)
    as (g3 & E3 & Hsq3 & C3).
  exists g1, g2. split; [assumption|]. split; [assumption|].
  rewrite E3. f_equal. apply (grid_ext size); [assumption..|].
  intros r c Hr Hc.
  pose proof (proj1 (bits_cells size g Hsq) Hb r c Hr Hc) as Hv.
  pose proof (is_solved_zero_cells size gs r c Hsqs Hsolved Hr Hc) as Hz.
  rewrite (Cs r c Hr Hc) in Hz. rewrite iter_flip_bit in Hz by assumption.
  rewrite (C3 r c Hr Hc), (C2 r c Hr Hc), (C1 r c Hr Hc).
  change (cell (replicate _ (replicate _ 0)) r c)
    with (mget (np_zeros2 (Z.to_nat size) (Z.to_nat size)) r c).
  rewrite mget_zeros.
  rewrite (iter_flip_bit _ 0) by (left; reflexivity).
  rewrite (iter_flip_bit _ (cell g r c)) by assumption.
  rewrite iter_flip_bit.
  2:{ unfold is_bit.
      pose proof (Z.mod_pos_bound (cell g r c + Z.of_nat (presses size ms r c)) 2
                    ltac:(lia)). lia. }
  set (ps := Z.of_nat (presses size sol r c)) in *.
  set (pm := Z.of_nat (presses size ms r c)) in *.
  clearbody ps pm. unfold is_bit in Hv. Z.div_mod_to_equations. lia.
Qed.

Lemma stale_solution_leaves_presses_witness :
  exists g1 g2,
    apply_moves 3 [[0;0;0]; [0;1;0]; [0;0;0]] [(0,0)] = Ok g1
    /\ apply_moves 3 g1 [(0,1); (1,0); (1,1); (1,2); (2,1)] = Ok g2
    /\ apply_moves 3 (replicate (Z.to_nat 3) (replicate (Z.to_nat 3) 0)) [(0,0)]
       = Ok g2.
Proof.
  apply (stale_solution_leaves_presses 3 [[0;0;0]; [0;1;0]; [0;0;0]]
           [(0,1); (1,0); (1,1); (1,2); (2,1)] [(0,0)]).
  - lia.
  - split; [reflexivity|]. repeat constructor.
  - prove_bits.
  - vm_compute. reflexivity.
  - repeat constructor; cbn; lia.
Defined.

(** ** The rows of the returned grid *)

(** X12: the grid returned by [apply_move] is made of new row objects: its
    rows are pairwise distinct objects, none of them is a row of the grid
    passed in (nor any object that existed before the call), also when the
    rows passed in are one shared object. *)
Theorem apply_move_returns_fresh_rows
  (size : Z) (h : store) (g g' : list loc) (row col : Z) :
  allocated h g ->
  snd (apply_move_heap size h g row col) = Ok g' ->
  length g' = length g /\ NoDup g'
  /\ forall l, l ∈ g' -> (length h <= l)%nat /\ l ∉ g.
Proof.
  intros Hall E.
  destruct (apply_move_heap_frame size h g row col Hall) as (rows' & _ & _ & Hs).
  destruct (apply_move size (read_grid h g) row col); [|congruence].
  destruct Hs as [_ Hs]. rewrite Hs in E. injection E as <-.
  split; [apply length_seq|]. split; [apply NoDup_seq|].
  intros l Hl. apply elem_of_seq in Hl. split; [lia|].
  intros Hin. unfold allocated in Hall. rewrite Forall_forall in Hall.
  specialize (Hall l Hin). lia.
Qed.

Lemma apply_move_returns_fresh_rows_witness :
  length [1%nat; 2%nat] = length [0%nat; 0%nat] /\ NoDup [1%nat; 2%nat]
  /\ forall l, l ∈ [1%nat; 2%nat] -> (length [[0; 1]] <= l)%nat /\ l ∉ [0%nat; 0%nat].
Proof.
  apply (apply_move_returns_fresh_rows 2 [[0; 1]] [0%nat; 0%nat] [1%nat; 2%nat] 0 0).
  - repeat constructor.
  - reflexivity.
Defined.

(** ** print_grid *)

Example test_print_grid :
  print_grid [[1; 0; 1]; [0; 1; 0]]
  = [9608; 32; 9617; 32; 9608; 10; 9617; 32; 9608; 32; 9617].
Proof. reflexivity. Qed.

Lemma str_join_sep (sep : list Z) (parts : list (list Z)) :
  parts <> [] ->
  str_join sep parts ++ sep = concat (map (fun p => p ++ sep) parts).
Proof.
  induction parts as [|p ps IH]; intros Hne; [contradiction|].
  destruct ps as [|q ps].
  - cbn. rewrite app_nil_r. reflexivity.
  - change (str_join sep (p :: q :: ps)) with (p ++ sep ++ str_join sep (q :: ps)).
    rewrite <- !app_assoc. rewrite IH by discriminate.
    cbn [map concat]. rewrite <- !app_assoc. reflexivity.
Qed.

Lemma zget_app_l (x y : list Z) (j : nat) :
  (j < length x)%nat -> zget (x ++ y) j = zget x j.
Proof. intros H. unfold zget. rewrite lookup_app_l by assumption. reflexivity. Qed.

(** The layout of [sep.join(...)] over rows of one-character strings, for
    any rendering [f] of a cell as a character. *)
Lemma join_row_layout (f : Z -> Z) (m : nat) (row : list Z) :
  length row = m -> (1 <= m)%nat ->
  length (str_join [SPACE] (map (fun cell => [f cell]) row)) = (2 * m - 1)%nat
  /\ forall c, (c < m)%nat ->
               zget (str_join [SPACE] (map (fun cell => [f cell]) row)) (2 * c)
               = f (zget row c)
               /\ ((c < m - 1)%nat ->
                   zget (str_join [SPACE] (map (fun cell => [f cell]) row))
                        (2 * c + 1) = SPACE).
Proof.
  intros Hl Hm.
  set (parts := map (fun cell => [f cell]) row).
  assert (Hne : parts <> []).
  { subst parts. destruct row; [cbn in Hl; lia|discriminate]. }
  pose proof (str_join_sep [SPACE] parts Hne) as Hj.
  set (cells := map (fun p => p ++ [SPACE]) parts) in *.
  assert (Hcells : Forall (fun rw => length rw = 2%nat) cells).
  { subst cells parts. rewrite map_map. apply Forall_fmap, Forall_true.
    intros x. reflexivity. }
  assert (Hcl : length cells = m).
  { subst cells parts. rewrite !length_map. assumption. }
  assert (Hlen : length (str_join [SPACE] parts) = (2 * m - 1)%nat).
  { apply (f_equal (@length Z)) in Hj. rewrite length_app in Hj.
    rewrite (concat_length 2 cells Hcells), Hcl in Hj. cbn [length] in Hj. lia. }
  split; [assumption|]. intros c Hc.
  assert (Hrow : row_of cells c = [f (zget row c); SPACE]).
  { subst cells parts. unfold row_of, zget. rewrite !list_lookup_fmap.
    destruct (lookup_lt_is_Some_2 row c ltac:(lia)) as [v ->]. reflexivity. }
  split.
  - rewrite <- (zget_app_l _ [SPACE]) by lia. rewrite Hj.
    replace (2 * c)%nat with (c * 2 + 0)%nat by lia.
    rewrite (concat_zget 2 cells Hcells c 0) by lia.
    unfold mget. rewrite Hrow. reflexivity.
  - intros Hc'. rewrite <- (zget_app_l _ [SPACE]) by lia. rewrite Hj.
    replace (2 * c + 1)%nat with (c * 2 + 1)%nat by lia.
    rewrite (concat_zget 2 cells Hcells c 1) by lia.
    unfold mget. rewrite Hrow. reflexivity.
Qed.

Lemma join_grid_layout (f : Z -> Z) (n m : nat) (g : list (list Z)) (r c : nat) :
  shape n m g -> (1 <= m)%nat -> (r < n)%nat -> (c < m)%nat ->
  let text :=
    str_join [NEWLINE]
             (map (fun row => str_join [SPACE] (map (fun cell => [f cell]) row)) g) in
  length text = (n * (2 * m) - 1)%nat
  /\ zget text (r * (2 * m) + 2 * c) = f (mget g r c)
  /\ ((c < m - 1)%nat -> zget text (r * (2 * m) + 2 * c + 1) = SPACE)
  /\ ((r < n - 1)%nat -> zget text (r * (2 * m) + (2 * m - 1)) = NEWLINE).
Proof.
  intros Hs Hm Hr Hc text. subst text.
  set (line := fun row => str_join [SPACE] (map (fun cell => [f cell]) row)).
  set (lines := map line g).
  assert (Hne : lines <> []).
  { subst lines. destruct g; [destruct Hs as [Hl _]; cbn in Hl; lia|discriminate]. }
  pose proof (str_join_sep [NEWLINE] lines Hne) as Hj.
  set (blocks := map (fun p => p ++ [NEWLINE]) lines) in *.
  assert (Hbl : length blocks = n).
  { subst blocks lines. rewrite !length_map. apply Hs. }
  assert (Hblocks : Forall (fun rw => length rw = (2 * m)%nat) blocks).
  { subst blocks lines. rewrite map_map. apply Forall_fmap.
    destruct Hs as [_ Hrows]. eapply Forall_impl; [exact Hrows|].
    cbn. intros rw Hrw. rewrite length_app. subst line. cbn beta.
    rewrite (proj1 (join_row_layout f m rw Hrw Hm)). cbn. lia. }
  assert (Hlen : length (str_join [NEWLINE] lines) = (n * (2 * m) - 1)%nat).
  { apply (f_equal (@length Z)) in Hj. rewrite length_app in Hj.
    rewrite (concat_length (2 * m) blocks Hblocks), Hbl in Hj.
    cbn [length] in Hj. lia. }
  destruct (shape_row n m g r Hs Hr) as (rw & Hrw & Hrl).
  assert (Hblock : row_of blocks r = line rw ++ [NEWLINE]).
  { subst blocks lines. unfold row_of. rewrite !list_lookup_fmap, Hrw. reflexivity. }
  destruct (join_row_layout f m rw Hrl Hm) as [Hpl Hpc].
  destruct (Hpc c Hc) as [Hglyph Hspace].
  fold (line rw) in Hpl, Hglyph, Hspace.
  assert (Hidx : forall i, (i < 2 * m)%nat ->
                           (r * (2 * m) + i < n * (2 * m) - 1)%nat ->
                           zget (str_join [NEWLINE] lines) (r * (2 * m) + i)
                           = zget (line rw ++ [NEWLINE]) i).
  { intros i Hi Hlt. rewrite <- (zget_app_l _ [NEWLINE]) by lia. rewrite Hj.
    rewrite (concat_zget (2 * m) blocks Hblocks r i Hi).
    unfold mget. rewrite Hblock. reflexivity. }
  split; [assumption|]. split; [|split].
  - rewrite Hidx by nia. rewrite zget_app_l by lia. rewrite Hglyph.
    unfold mget. rewrite (row_of_lookup _ _ _ Hrw). reflexivity.
  - intros Hc'. rewrite <- Nat.add_assoc. rewrite Hidx by nia.
    rewrite zget_app_l by lia. apply Hspace. assumption.
  - intros Hr'. rewrite Hidx by nia. unfold zget.
    rewrite lookup_app_r by lia. rewrite Hpl, Nat.sub_diag. reflexivity.
Qed.

(** X13: for a grid of [n >= 1] rows of [m >= 1] cells, [print_grid] returns
    [n] lines of [2 m - 1] characters separated by single newlines: the
    string has [2 m n - 1] characters, character [2 c] of line [r] is the
    full block when [grid[r][c]] is not 0 and the light shade when it is 0,
    the characters between them are spaces, and each line but the last is
    followed by a newline. *)
Theorem print_grid_layout (n m : nat) (g : grid) (r c : nat) :
  shape n m g -> (1 <= m)%nat -> (r < n)%nat -> (c < m)%nat ->
  length (print_grid g) = (n * (2 * m) - 1)%nat
  /\ zget (print_grid g) (r * (2 * m) + 2 * c)
     = (if mget g r c =? 0 then LIGHT_SHADE else FULL_BLOCK)
  /\ ((c < m - 1)%nat -> zget (print_grid g) (r * (2 * m) + 2 * c + 1) = SPACE)
  /\ ((r < n - 1)%nat ->
      zget (print_grid g) (r * (2 * m) + (2 * m - 1)) = NEWLINE).
Proof.
  intros Hs Hm Hr Hc.
  exact (join_grid_layout glyph n m g r c Hs Hm Hr Hc).
Qed.

Lemma print_grid_layout_witness :
  length (print_grid [[1; 0; 1]; [0; 1; 0]]) = (2 * (2 * 3) - 1)%nat
  /\ zget (print_grid [[1; 0; 1]; [0; 1; 0]]) (1 * (2 * 3) + 2 * 1)
     = (if mget [[1; 0; 1]; [0; 1; 0]] 1 1 =? 0 then LIGHT_SHADE else FULL_BLOCK)
  /\ ((1 < 3 - 1)%nat ->
      zget (print_grid [[1; 0; 1]; [0; 1; 0]]) (1 * (2 * 3) + 2 * 1 + 1) = SPACE)
  /\ ((1 < 2 - 1)%nat ->
      zget (print_grid [[1; 0; 1]; [0; 1; 0]]) (1 * (2 * 3) + (2 * 3 - 1))
      = NEWLINE).
Proof.
  apply (print_grid_layout 2 3 [[1; 0; 1]; [0; 1; 0]] 1 1).
  - split; [reflexivity|]. repeat constructor.
  - lia.
  - lia.
  - lia.
Defined.

(** * The robot controller *)

Example test_robot_move :
  let c := fst (Zspawn (controller_init Z (5, 5) [Position.mk 2 2])
                       (Position.mk 0 0) Direction.NORTH) in
  snd (Zmove c Direction.EAST)
  = inr (mkState (Position.mk 1 0) Direction.EAST 99
                 [Position.mk 0 0; Position.mk 1 0] ∅).
Proof. reflexivity. Qed.

Example test_invalid_move :
  let c := fst (Zspawn (controller_init Z (3, 3) [Position.mk 1 1])
                       (Position.mk 0 0) Direction.NORTH) in
  snd (Zmove c Direction.WEST) = inl ValueError.
Proof. reflexivity. Qed.

Example test_pathfinding :
  let c := fst (Zspawn (controller_init Z (5, 5) [Position.mk 4 4])
                       (Position.mk 0 0) Direction.NORTH) in
  get_path_to 27 c (Position.mk 3 3)
  = inr (Some [Direction.SOUTH; Direction.SOUTH; Direction.SOUTH;
               Direction.EAST; Direction.EAST; Direction.EAST]).
Proof. vm_compute. reflexivity. Qed.

(** ** Positions *)

Lemma manhattan_metric_facts (p q r : Position.t) :
  Position.manhattan_distance p q = Position.manhattan_distance q p
  /\ 0 <= Position.manhattan_distance p q
  /\ (Position.manhattan_distance p q = 0 <-> p = q)
  /\ Position.manhattan_distance p r
     <= Position.manhattan_distance p q + Position.manhattan_distance q r.
Proof.
  unfold Position.manhattan_distance.
  destruct p as [px py], q as [qx qy], r as [rx ry]. cbn [Position.x Position.y].
  split; [lia|]. split; [lia|]. split; [|lia]. split.
  - intros H. f_equal; lia.
  - intros [= -> ->]. lia.
Qed.

(** X14: the Manhattan distance is a metric on positions: symmetric,
    non-negative, zero exactly between equal positions, and it satisfies the
    triangle inequality. *)
Theorem manhattan_distance_metric (p q r : Position.t) :
  Position.manhattan_distance p q = Position.manhattan_distance q p
  /\ 0 <= Position.manhattan_distance p q
  /\ (Position.manhattan_distance p q = 0 <-> p = q)
  /\ Position.manhattan_distance p r
     <= Position.manhattan_distance p q + Position.manhattan_distance q r.
Proof. apply manhattan_metric_facts. Qed.

Lemma manhattan_step (p q : Position.t) (d : Direction.t) :
  Position.manhattan_distance p (Position.move q d)
  = Position.manhattan_distance p q + 1
  \/ Position.manhattan_distance p (Position.move q d)
     = Position.manhattan_distance p q - 1.
Proof.
  unfold Position.manhattan_distance, Position.move.
  destruct p as [px py], q as [qx qy], d; cbn; lia.
Qed.

(** X15: a step leads to a position at distance exactly 1, changes the
    distance to any other position by exactly one, and is undone by the step
    in the opposite direction. *)
Theorem move_is_unit_step (p q : Position.t) (d : Direction.t) :
  Position.manhattan_distance (Position.move p d) p = 1
  /\ (Position.manhattan_distance (Position.move p d) q
      = Position.manhattan_distance p q + 1
      \/ Position.manhattan_distance (Position.move p d) q
         = Position.manhattan_distance p q - 1)
  /\ exists d', Position.move (Position.move p d) d' = p.
Proof.
  split; [|split].
  - unfold Position.manhattan_distance, Position.move.
    destruct p as [px py], d; cbn; lia.
  - unfold Position.manhattan_distance, Position.move.
    destruct p as [px py], q as [qx qy], d; cbn; lia.
  - destruct p as [px py].
    exists (match d with
            | Direction.NORTH => Direction.SOUTH
            | Direction.SOUTH => Direction.NORTH
            | Direction.EAST => Direction.WEST
            | Direction.WEST => Direction.EAST
            end).
    unfold Position.move. destruct d; cbn; f_equal; lia.
Qed.

(** ** Moving the robot *)

Section RobotFacts.
Context {float : Type}.
Variable energy_initial : float.
Variable energy_decrement : float -> float.

Lemma is_valid_position_spec (c : RobotController float) (p : Position.t) :
  is_valid_position c p = true
  <-> 0 <= Position.x p < grid_width c /\ 0 <= Position.y p < grid_height c.
Proof.
  unfold is_valid_position. rewrite !andb_true_iff.
  rewrite !Z.leb_le, !Z.ltb_lt. lia.
Qed.

Lemma is_valid_position_with_state (c : RobotController float)
  (s : option (RobotState float)) (p : Position.t) :
  is_valid_position (with_state c s) p = is_valid_position c p.
Proof. reflexivity. Qed.

(** X16: a move that would leave the grid raises [ValueError] after the
    facing direction has been overwritten: position, trail, energy and solved
    checkpoints are as before the call, the direction is the one asked
    for. *)
Theorem move_out_of_bounds (c : RobotController float) (s : RobotState float)
  (d : Direction.t) :
  state c = Some s ->
  is_valid_position c (Position.move (position s) d) = false ->
  snd (move energy_decrement c d) = inl ValueError
  /\ exists s', state (fst (move energy_decrement c d)) = Some s'
                /\ direction s' = d /\ position s' = position s
                /\ trail s' = trail s /\ energy s' = energy s
                /\ checkpoints_solved s' = checkpoints_solved s.
Proof.
  intros Hs Hv. unfold move. rewrite Hs. cbn [position]. rewrite Hv. cbn.
  split; [reflexivity|]. eexists. split; [reflexivity|]. cbn. auto.
Qed.

Lemma walk_snoc (p : Position.t) (path : list Direction.t) (d : Direction.t) :
  walk p (path ++ [d]) = Position.move (walk p path) d.
Proof. unfold walk. apply foldl_snoc. Qed.

Lemma walk_cons (p : Position.t) (path : list Direction.t) (d : Direction.t) :
  walk p (d :: path) = walk (Position.move p d) path.
Proof. reflexivity. Qed.

Lemma valid_walk_with_state (c : RobotController float)
  (s : option (RobotState float)) (path : list Direction.t) :
  forall p, valid_walk (with_state c s) p path <-> valid_walk c p path.
Proof.
  induction path as [|d path IH]; intros p; cbn [valid_walk]; [reflexivity|].
  rewrite IH, is_valid_position_with_state. reflexivity.
Qed.

Lemma move_inside (c : RobotController float) (s : RobotState float)
  (d : Direction.t) :
  state c = Some s ->
  is_valid_position c (Position.move (position s) d) = true ->
  move energy_decrement c d
  = (with_state c
       (Some (mkState (Position.move (position s) d) d
                      (energy_decrement (energy s))
                      (trail s ++ [Position.move (position s) d])
                      (checkpoints_solved s))),
     inr (mkState (Position.move (position s) d) d
                  (energy_decrement (energy s))
                  (trail s ++ [Position.move (position s) d])
                  (checkpoints_solved s))).
Proof. intros Hs Hv. unfold move. rewrite Hs. cbn [position]. rewrite Hv. reflexivity. Qed.

Lemma move_outside (c : RobotController float) (s : RobotState float)
  (d : Direction.t) :
  state c = Some s ->
  is_valid_position c (Position.move (position s) d) = false ->
  move energy_decrement c d
  = (with_state c
       (Some (mkState (position s) d (energy s) (trail s)
                      (checkpoints_solved s))),
     inl ValueError).
Proof. intros Hs Hv. unfold move. rewrite Hs. cbn [position]. rewrite Hv. reflexivity. Qed.

(** The controller after a list of moves, for any spawned controller:
    [k] moves succeed, then either the list is exhausted or move [k]
    raises [ValueError]. *)
Lemma move_all_spec (path : list Direction.t) :
  forall (c : RobotController float) (s : RobotState float),
    state c = Some s ->
    exists (k : nat) (s' : RobotState float),
      (k <= length path)%nat
      /\ state (fst (move_all energy_decrement c path)) = Some s'
      /\ grid_width (fst (move_all energy_decrement c path)) = grid_width c
      /\ grid_height (fst (move_all energy_decrement c path)) = grid_height c
      /\ checkpoints (fst (move_all energy_decrement c path)) = checkpoints c
      /\ position s' = walk (position s) (take k path)
      /\ trail s' = trail s ++ walk_positions (position s) (take k path)
      /\ energy s' = Nat.iter k energy_decrement (energy s)
      /\ checkpoints_solved s' = checkpoints_solved s
      /\ valid_walk c (position s) (take k path)
      /\ match snd (move_all energy_decrement c path) with
         | None => k = length path
         | Some e =>
             e = ValueError
             /\ exists d, path !! k = Some d /\ direction s' = d
                          /\ is_valid_position c (Position.move (position s') d)
                             = false
         end.
Proof.
  induction path as [|d path IH]; intros c s Hs.
  - exists 0%nat, s. cbn. rewrite app_nil_r. auto 12.
  - cbn [move_all].
    destruct (is_valid_position c (Position.move (position s) d)) eqn:Hv.
    + rewrite (move_inside c s d Hs Hv).
      match goal with
      | |- context [move_all _ ?c1 path] =>
          destruct (IH c1 _ eq_refl)
          as (k & s' & Hk & Hst & Hw & Hh & Hcp & Hpos & Htr & Hen & Hsol
              & Hval & Hres)
      end.
      cbn [position trail energy checkpoints_solved] in *.
      exists (S k), s'. cbn [take length walk_positions valid_walk].
      split; [lia|]. split; [exact Hst|]. split; [exact Hw|].
      split; [exact Hh|]. split; [exact Hcp|]. split; [exact Hpos|].
      split; [rewrite Htr, <- app_assoc; reflexivity|].
      split; [rewrite Hen; symmetry; apply (Nat.iter_succ_r k energy_decrement)|].
      split; [exact Hsol|].
      split; [split; [exact Hv|apply valid_walk_with_state in Hval; exact Hval]|].
      destruct (snd (move_all _ _ path)); [|lia].
      destruct Hres as (-> & d' & Hd' & Hdir & Hinv). split; [reflexivity|].
      exists d'. auto.
    + rewrite (move_outside c s d Hs Hv). eexists 0%nat, _. cbn.
      rewrite app_nil_r.
      split; [lia|]. split; [reflexivity|]. repeat (split; [reflexivity|]).
      exists d. auto.
Qed.
Lemma walk_positions_last (path : list Direction.t) :
  forall p, last (p :: walk_positions p path) = Some (walk p path).
Proof.
  induction path as [|d path IH]; intros p; [reflexivity|].
  cbn [walk_positions]. rewrite last_cons_cons. rewrite IH. reflexivity.
Qed.

Lemma walk_positions_length (path : list Direction.t) :
  forall p, length (walk_positions p path) = length path.
Proof.
  induction path as [|d path IH]; intros p; cbn; [reflexivity|].
  rewrite IH. reflexivity.
Qed.

Lemma walk_positions_valid (c : RobotController float) (path : list Direction.t) :
  forall p, valid_walk c p path ->
            Forall (fun q => is_valid_position c q = true) (walk_positions p path).
Proof.
  induction path as [|d path IH]; intros p Hv; cbn in *; [constructor|].
  destruct Hv as [Hd Hv]. constructor; [assumption|]. apply IH. assumption.
Qed.

Lemma walk_positions_adjacent (path : list Direction.t) :
  forall p i a b,
    (p :: walk_positions p path) !! i = Some a ->
    (p :: walk_positions p path) !! S i = Some b ->
    exists d, b = Position.move a d.
Proof.
  induction path as [|d path IH]; intros p i a b Ha Hb.
  - destruct i; cbn in Hb; discriminate.
  - destruct i as [|i].
    + cbn in Ha, Hb. injection Ha as <-. injection Hb as <-. eauto.
    + cbn [walk_positions] in Ha, Hb. apply (IH (Position.move p d) i); assumption.
Qed.

(** X17: after [spawn] and any list of moves, stopped at the first one that
    raises, the trail is the start followed by the position after each
    successful move, in order: it ends at the current position, consecutive
    entries are one step apart, every entry after the first is inside the
    grid, one unit of energy has been taken per entry after the first, and
    the only exception possible is the [ValueError] of the first move that
    would leave the grid. *)
Theorem trail_records_the_walk (c : RobotController float)
  (start : Position.t) (d0 : Direction.t) (path : list Direction.t) :
  let c0 := fst (spawn energy_initial c start d0) in
  exists (k : nat) (s' : RobotState float),
    (k <= length path)%nat
    /\ state (fst (move_all energy_decrement c0 path)) = Some s'
    /\ trail s' = start :: walk_positions start (take k path)
    /\ length (trail s') = S k
    /\ last (trail s') = Some (position s')
    /\ (forall i a b, trail s' !! i = Some a -> trail s' !! S i = Some b ->
                      Position.manhattan_distance b a = 1)
    /\ Forall (fun q => is_valid_position c q = true)
              (walk_positions start (take k path))
    /\ energy s' = Nat.iter k energy_decrement energy_initial
    /\ match snd (move_all energy_decrement c0 path) with
       | None => k = length path
       | Some e =>
           e = ValueError
           /\ exists d, path !! k = Some d
                        /\ is_valid_position c (Position.move (position s') d)
                           = false
       end.
Proof.
  intros c0.
  destruct (move_all_spec path c0 _ eq_refl)
    as (k & s' & Hk & Hst & _ & _ & _ & Hpos & Htr & Hen & _ & Hval & Hres).
  cbn [position trail energy] in Hpos, Htr, Hen, Hval.
  exists k, s'. split; [assumption|]. split; [assumption|].
  split; [exact Htr|].
  split; [rewrite Htr; cbn [app length]; rewrite walk_positions_length,
            length_take; lia|].
  split; [rewrite Htr, Hpos; apply walk_positions_last|].
  split.
  { intros i a b Ha Hb. rewrite Htr in Ha, Hb. cbn [app] in Ha, Hb.
    destruct (walk_positions_adjacent _ _ _ _ _ Ha Hb) as [d ->].
    unfold Position.manhattan_distance, Position.move.
    destruct a as [ax ay], d; cbn; lia. }
  split.
  { apply walk_positions_valid. subst c0.
    apply (valid_walk_with_state c) in Hval. exact Hval. }
  split; [exact Hen|].
  destruct (snd (move_all _ _ _)); [|assumption].
  destruct Hres as (He & d & Hd & _ & Hinv). split; [assumption|].
  exists d. split; assumption.
Qed.

(** ** Checkpoints *)

Lemma check_checkpoint_solved (c : RobotController float) (s : RobotState float) :
  state c = Some s -> position s ∈ checkpoints_solved s ->
  check_checkpoint c = false.
Proof.
  intros Hs Hin. unfold check_checkpoint. rewrite Hs.
  rewrite (bool_decide_eq_true_2 _ Hin). apply andb_false_r.
Qed.

Lemma solve_checkpoint_spawned (c : RobotController float)
  (s : RobotState float) :
  state c = Some s ->
  solve_checkpoint c
  = (with_state c
       (Some (mkState (position s) (direction s) (energy s) (trail s)
                      ({[position s]} ∪ checkpoints_solved s))),
     inr tt).
Proof. intros Hs. unfold solve_checkpoint. rewrite Hs. reflexivity. Qed.

(** X18: once [solve_checkpoint] has been called at a position,
    [check_checkpoint] is false there, also after any further moves that
    bring the robot back to it; a new [spawn] forgets the solved
    checkpoints, so that a checkpoint position is reported again. *)
Theorem solved_checkpoint_stays_solved (c : RobotController float)
  (s : RobotState float) (path : list Direction.t) (d : Direction.t) :
  state c = Some s ->
  let c1 := fst (solve_checkpoint c) in
  let c2 := fst (move_all energy_decrement c1 path) in
  snd (solve_checkpoint c) = inr tt
  /\ check_checkpoint c1 = false
  /\ (forall s2, state c2 = Some s2 -> position s2 = position s ->
                 check_checkpoint c2 = false)
  /\ check_checkpoint (fst (spawn energy_initial c2 (position s) d))
     = bool_decide (position s ∈ checkpoints c).
Proof.
  intros Hs c1 c2. subst c2 c1. rewrite (solve_checkpoint_spawned c s Hs).
  cbn [fst snd].
  set (c1 := with_state c _).
  set (c2 := fst (move_all energy_decrement c1 path)).
  split; [reflexivity|].
  split.
  { apply (check_checkpoint_solved c1 _ eq_refl). cbn. set_solver. }
  destruct (move_all_spec path c1 _ eq_refl)
    as (k & s' & _ & Hst & _ & _ & Hcp & _ & _ & _ & Hsol & _).
  fold c2 in Hst, Hcp. cbn [checkpoints_solved] in Hsol. split.
  - intros s2 Hs2 Hpos. apply (check_checkpoint_solved c2 s2 Hs2).
    assert (s2 = s') by congruence. subst s2. rewrite Hsol, Hpos.
    apply elem_of_union_l, elem_of_singleton. reflexivity.
  - unfold check_checkpoint, spawn. cbn.
    rewrite Hcp. subst c1. cbn.
    rewrite (bool_decide_eq_false_2 (position s ∈ (∅ : gset Position.t)))
      by set_solver.
    apply andb_true_r.
Qed.
End RobotFacts.

Lemma solved_checkpoint_stays_solved_witness :
  let c := fst (Zspawn (controller_init Z (5, 5) [Position.mk 2 2])
                       (Position.mk 2 2) Direction.NORTH) in
  let s := mkState (Position.mk 2 2) Direction.NORTH 100 [Position.mk 2 2] ∅ in
  let c1 := fst (solve_checkpoint c) in
  let c2 := fst (move_all (fun e => e - 1) c1 [Direction.EAST; Direction.WEST]) in
  snd (solve_checkpoint c) = inr tt
  /\ check_checkpoint c1 = false
  /\ (forall s2, state c2 = Some s2 -> position s2 = position s ->
                 check_checkpoint c2 = false)
  /\ check_checkpoint (fst (spawn 100 c2 (position s) Direction.SOUTH))
     = bool_decide (position s ∈ checkpoints c).
Proof.
  apply (solved_checkpoint_stays_solved
           100 (fun e => e - 1)
           (fst (Zspawn (controller_init Z (5, 5) [Position.mk 2 2])
                        (Position.mk 2 2) Direction.NORTH))
           (mkState (Position.mk 2 2) Direction.NORTH 100 [Position.mk 2 2] ∅)
           [Direction.EAST; Direction.WEST] Direction.SOUTH).
  reflexivity.
Defined.

Lemma move_out_of_bounds_witness :
  snd (Zmove (fst (Zspawn (controller_init Z (3, 3) []) (Position.mk 0 2)
                          Direction.NORTH)) Direction.WEST)
  = inl ValueError
  /\ exists s',
      state (fst (Zmove (fst (Zspawn (controller_init Z (3, 3) [])
                                     (Position.mk 0 2) Direction.NORTH))
                        Direction.WEST)) = Some s'
      /\ direction s' = Direction.WEST
      /\ position s' = Position.mk 0 2
      /\ trail s' = [Position.mk 0 2] /\ energy s' = 100
      /\ checkpoints_solved s' = ∅.
Proof.
  apply (move_out_of_bounds
           (fun e => e - 1)
           (fst (Zspawn (controller_init Z (3, 3) []) (Position.mk 0 2)
                        Direction.NORTH))
           (mkState (Position.mk 0 2) Direction.NORTH 100 [Position.mk 0 2] ∅)
           Direction.WEST).
  - reflexivity.
  - reflexivity.
Defined.

(** ** get_path_to *)

Section PathFacts.
Context {float : Type}.
Variable energy_decrement : float -> float.
Variable c : RobotController float.
Variable target : Position.t.

(** *** The search ends *)

Lemma cell_list_length :
  length (cell_list c)
  = (Z.to_nat (grid_width c) * Z.to_nat (grid_height c))%nat.
Proof.
  unfold cell_list. generalize (Z.to_nat (grid_height c)). intros h.
  generalize 0%nat at 2. induction (Z.to_nat (grid_width c)) as [|w IH]; intros s0.
  - reflexivity.
  - cbn [seq flat_map]. rewrite length_app, length_map, length_seq, IH. lia.
Qed.

Lemma valid_in_cell_list (p : Position.t) :
  is_valid_position c p = true -> p ∈ cell_list c.
Proof.
  intros Hv. apply is_valid_position_spec in Hv as [Hx Hy].
  unfold cell_list. apply list_elem_of_In, in_flat_map.
  exists (Z.to_nat (Position.x p)). split; [apply in_seq; lia|].
  apply in_map_iff. exists (Z.to_nat (Position.y p)).
  split; [|apply in_seq; lia].
  destruct p as [px py]. cbn in *. f_equal; lia.
Qed.

Lemma unvisited_bound (v : gset Position.t) :
  (unvisited c v <= Z.to_nat (grid_width c) * Z.to_nat (grid_height c))%nat.
Proof. unfold unvisited. rewrite <- cell_list_length. apply length_filter. Qed.

Lemma filter_length_insert (l : list Position.t) (v : gset Position.t)
  (p : Position.t) :
  (length (filter (fun q => q ∉ {[p]} ∪ v) l)
   <= length (filter (fun q => q ∉ v) l))%nat
  /\ (p ∈ l -> p ∉ v ->
      (length (filter (fun q => q ∉ {[p]} ∪ v) l)
       < length (filter (fun q => q ∉ v) l))%nat).
Proof.
  induction l as [|a l [IHle IHlt]].
  - split; [reflexivity|]. intros Hin. inversion Hin.
  - rewrite !filter_cons.
    destruct (decide (a ∉ {[p]} ∪ v)) as [Ha|Ha];
      destruct (decide (a ∉ v)) as [Hav|Hav]; cbn [length].
    + split; [lia|]. intros Hin Hp. apply elem_of_cons in Hin as [->|Hin].
      * exfalso. apply Ha. set_solver.
      * specialize (IHlt Hin Hp). lia.
    + exfalso. apply Ha. set_solver.
    + split; [lia|]. intros _ _. lia.
    + split; [assumption|]. intros Hin Hp. apply elem_of_cons in Hin as [->|Hin].
      * contradiction.
      * auto.
Qed.

Lemma expand_measure (current : Position.t) (path : list Direction.t)
  (dirs : list Direction.t) :
  forall queue visited queue' visited',
    expand c target current path dirs queue visited = inr (queue', visited') ->
    (unvisited c visited' + length queue'
     <= unvisited c visited + length queue)%nat.
Proof.
  induction dirs as [|d dirs IH]; intros queue visited queue' visited' E.
  - cbn in E. injection E as <- <-. lia.
  - cbn [expand] in E.
    destruct (bool_decide (Position.move current d ∈ visited)) eqn:Hvis;
      cbn [orb] in E; [apply (IH _ _ _ _ E)|].
    destruct (is_valid_position c (Position.move current d)) eqn:Hval;
      cbn [negb] in E; [|apply (IH _ _ _ _ E)].
    destruct (bool_decide (Position.move current d = target)); [discriminate|].
    apply IH in E. rewrite length_app in E. cbn [length] in E.
    apply bool_decide_eq_false in Hvis.
    pose proof (proj2 (filter_length_insert (cell_list c) visited
                         (Position.move current d))
                      (valid_in_cell_list _ Hval) Hvis) as Hlt.
    unfold unvisited in *. lia.
Qed.

Lemma bfs_loop_terminates (fuel : nat) :
  forall queue visited,
    (unvisited c visited + length queue < fuel)%nat ->
    exists found, bfs_loop fuel c target queue visited = Some found.
Proof.
  induction fuel as [|fuel IH]; intros queue visited Hm; [lia|].
  cbn [bfs_loop]. destruct queue as [|[current path] rest]; [eauto|].
  destruct (expand c target current path Direction.all rest visited)
    as [found|[queue' visited']] eqn:E; [eauto|].
  apply IH. apply expand_measure in E. cbn [length] in Hm. lia.
Qed.

(** *** The path found is a walk inside the grid to the target *)

Lemma valid_walk_snoc (path : list Direction.t) (d : Direction.t) :
  forall p, valid_walk c p (path ++ [d])
            <-> valid_walk c p path
                /\ is_valid_position c (Position.move (walk p path) d) = true.
Proof.
  induction path as [|d' path IH]; intros p; cbn [app valid_walk].
  - unfold walk. cbn. tauto.
  - rewrite IH, walk_cons. tauto.
Qed.

Lemma expand_sound (start current : Position.t) (path : list Direction.t)
  (dirs : list Direction.t) :
  walk start path = current -> valid_walk c start path ->
  forall queue visited,
    Forall (fun e => walk start (snd e) = fst e /\ valid_walk c start (snd e))
           queue ->
    match expand c target current path dirs queue visited with
    | inl found =>
        walk start found = target /\ valid_walk c start found /\ found <> []
    | inr (queue', _) =>
        Forall (fun e => walk start (snd e) = fst e /\ valid_walk c start (snd e))
               queue'
    end.
Proof.
  intros Hw Hv. induction dirs as [|d dirs IH]; intros queue visited HQ.
  - cbn. assumption.
  - cbn [expand].
    destruct (bool_decide (Position.move current d ∈ visited)); cbn [orb];
      [apply IH; assumption|].
    destruct (is_valid_position c (Position.move current d)) eqn:Hval;
      cbn [negb]; [|apply IH; assumption].
    assert (Hnew : walk start (path ++ [d]) = Position.move current d
                   /\ valid_walk c start (path ++ [d])).
    { rewrite walk_snoc, Hw. split; [reflexivity|].
      apply valid_walk_snoc. rewrite Hw. auto. }
    destruct (bool_decide (Position.move current d = target)) eqn:Ht.
    + apply bool_decide_eq_true in Ht. rewrite <- Ht.
      split; [apply Hnew|]. split; [apply Hnew|]. intros E.
      apply app_eq_nil in E as [_ E]. discriminate.
    + apply IH. apply Forall_app. split; [assumption|].
      constructor; [exact Hnew|constructor].
Qed.

Lemma bfs_loop_sound (start : Position.t) (fuel : nat) :
  forall queue visited found,
    Forall (fun e => walk start (snd e) = fst e /\ valid_walk c start (snd e))
           queue ->
    bfs_loop fuel c target queue visited = Some found ->
    found = [] \/ (walk start found = target /\ valid_walk c start found).
Proof.
  induction fuel as [|fuel IH]; intros queue visited found HQ E; [discriminate|].
  cbn [bfs_loop] in E. destruct queue as [|[current path] rest].
  - injection E as <-. left. reflexivity.
  - inversion HQ as [|? ? [Hw Hv] Hrest]. cbn [fst snd] in *.
    pose proof (expand_sound start current path Direction.all Hw Hv rest visited
                  Hrest) as Hexp.
    destruct (expand c target current path Direction.all rest visited)
      as [f|[queue' visited']].
    + injection E as <-. right. split; apply Hexp.
    + apply (IH queue' visited' found Hexp E).
Qed.

Lemma valid_walk_end (path : list Direction.t) :
  forall p, path <> [] -> valid_walk c p path ->
            is_valid_position c (walk p path) = true.
Proof.
  induction path as [|d path IH] using rev_ind; intros p Hne Hv; [contradiction|].
  apply valid_walk_snoc in Hv as [_ Hv]. rewrite walk_snoc. assumption.
Qed.

Lemma move_all_valid_walk (path : list Direction.t) :
  forall (c0 : RobotController float) (s : RobotState float),
    state c0 = Some s ->
    valid_walk c0 (position s) path ->
    snd (move_all energy_decrement c0 path) = None
    /\ exists s', state (fst (move_all energy_decrement c0 path)) = Some s'
                  /\ position s' = walk (position s) path.
Proof.
  induction path as [|d path IH]; intros c0 s Hs Hv.
  - cbn. eauto.
  - cbn [valid_walk] in Hv. destruct Hv as [Hd Hv]. cbn [move_all].
    rewrite (move_inside energy_decrement c0 s d Hs Hd).
    apply IH with (s := mkState (Position.move (position s) d) d
                                (energy_decrement (energy s))
                                (trail s ++ [Position.move (position s) d])
                                (checkpoints_solved s)).
    + reflexivity.
    + apply valid_walk_with_state. exact Hv.
Qed.
End PathFacts.

(** *** The path found is a shortest one *)

Section ShortestPath.
Context {float : Type}.
Variable c : RobotController float.
Variables start target : Position.t.
Hypothesis start_valid : is_valid_position c start = true.

Lemma step_toward (p q : Position.t) :
  is_valid_position c p = true -> is_valid_position c q = true -> q <> p ->
  exists d, is_valid_position c (Position.move q d) = true
            /\ Position.manhattan_distance p (Position.move q d)
               = Position.manhattan_distance p q - 1.
Proof.
  intros Hp Hq Hne.
  apply is_valid_position_spec in Hp as [Hpx Hpy].
  apply is_valid_position_spec in Hq as [Hqx Hqy].
  destruct p as [px py], q as [qx qy]. cbn [Position.x Position.y] in *.
  assert (Hcases : qx < px \/ px < qx \/ (qx = px /\ qy < py)
                   \/ (qx = px /\ py < qy)).
  { destruct (Z.lt_trichotomy qx px) as [|[->|]]; [auto|..|auto].
    destruct (Z.lt_trichotomy qy py) as [|[->|]]; [auto 6| |auto 6].
    exfalso. apply Hne. reflexivity. }
  destruct Hcases as [H|[H|[[-> H]|[-> H]]]];
    [exists Direction.EAST|exists Direction.WEST
     |exists Direction.SOUTH|exists Direction.NORTH];
    (split; [apply is_valid_position_spec|];
     unfold Position.manhattan_distance, Position.move; cbn; lia).
Qed.

Lemma move_back (p : Position.t) (d : Direction.t) :
  exists d', Position.move (Position.move p d) d' = p.
Proof.
  destruct p as [px py].
  exists (match d with
          | Direction.NORTH => Direction.SOUTH
          | Direction.SOUTH => Direction.NORTH
          | Direction.EAST => Direction.WEST
          | Direction.WEST => Direction.EAST
          end).
  unfold Position.move. destruct d; cbn; f_equal; lia.
Qed.

(** A set of cells that contains a cell of the grid and is closed under
    steps inside the grid contains every cell of the grid. *)
Lemma closed_set_is_everything (v : gset Position.t) (q : Position.t) :
  is_valid_position c q = true ->
  (forall p, p ∈ v -> closed_cell c v p) ->
  forall (n : nat) (p : Position.t),
    Position.manhattan_distance q p = Z.of_nat n ->
    is_valid_position c p = true -> p ∈ v -> q ∈ v.
Proof.
  intros Hq Hclosed. induction n as [|n IH]; intros p Hd Hp Hin.
  - assert (q = p) as ->; [|assumption].
    apply (manhattan_metric_facts q p p). assumption.
  - destruct (step_toward q p Hq Hp) as (d & Hv & Hdist).
    { intros ->. pose proof (proj2 (proj1 (proj2 (proj2
        (manhattan_metric_facts q q q)))) eq_refl). lia. }
    apply (IH (Position.move p d)); [lia|assumption|].
    apply (Hclosed p Hin d Hv).
Qed.

Lemma closed_cell_mono (v v' : gset Position.t) (p : Position.t) :
  v ⊆ v' -> closed_cell c v p -> closed_cell c v' p.
Proof. intros Hsub Hc d Hd. apply Hsub, Hc, Hd. Qed.

(** One direction of the inner loop, while [(current, path)] is being
    expanded; [queue] still has it at its head.  [done] are the directions
    whose neighbours have been looked at. *)
Lemma expand_step_inv (L : nat) (current : Position.t)
  (path : list Direction.t) (d : Direction.t)
  (rest : list (Position.t * list Direction.t)) (visited : gset Position.t) :
  bfs_inv c start target L ((current, path) :: rest) visited ->
  is_valid_position c (Position.move current d) = true ->
  Position.move current d ∉ visited ->
  length path = L
  /\ Z.of_nat (length (path ++ [d]))
     = Position.manhattan_distance start (Position.move current d)
  /\ walk start (path ++ [d]) = Position.move current d
  /\ valid_walk c start (path ++ [d])
  /\ (Position.move current d <> target ->
      bfs_inv c start target L
              ((current, path) :: rest ++ [(Position.move current d, path ++ [d])])
              ({[Position.move current d]} ∪ visited)).
Proof.
  intros (Hs & Ht & HA & (q1 & q2 & Hq & H1 & H2 & Hq12) & HD & HC) Hval Hnot.
  inversion HA as [|? ? (Hw & Hv & Hlen & Hcur) HArest]; subst.
  clear HA.
  cbn [fst snd] in *.
  assert (HL : length path = L).
  { destruct q1 as [|e q1].
    - rewrite (Hq12 eq_refl) in Hq. discriminate.
    - cbn in Hq. injection Hq as <- _. inversion H1; subst. reflexivity. }
  assert (Hmd : Position.manhattan_distance start (Position.move current d)
                = Z.of_nat L + 1).
  { destruct (manhattan_step start current d) as [E|E]; [lia|].
    exfalso. apply Hnot. apply HD; [assumption|]. lia. }
  split; [assumption|].
  split; [rewrite length_app; cbn [length]; lia|].
  split; [rewrite walk_snoc, Hw; reflexivity|].
  split; [apply valid_walk_snoc; rewrite Hw; auto|].
  intros Hne.
  split; [apply elem_of_union_r; assumption|].
  split.
  { intros Hin. apply elem_of_union in Hin as [Hin|Hin]; [|contradiction].
    apply elem_of_singleton in Hin. congruence. }
  split; [|split; [|split]].
  - constructor; [cbn; split; [assumption|]; split; [assumption|];
                  split; [assumption|apply elem_of_union_r; assumption]|].
    apply Forall_app. split.
    + eapply Forall_impl; [exact HArest|]. cbn. intros e (? & ? & ? & ?).
      repeat split; try assumption. apply elem_of_union_r. assumption.
    + constructor; [|constructor]. cbn.
      split; [rewrite walk_snoc, Hw; reflexivity|]. split; [apply valid_walk_snoc; rewrite Hw; auto|].
      split; [rewrite length_app; cbn [length]; lia|].
      apply elem_of_union_l, elem_of_singleton. reflexivity.
  - exists q1, (q2 ++ [(Position.move current d, path ++ [d])]).
    split; [rewrite app_assoc, <- Hq; reflexivity|]. split; [assumption|].
    split.
    + apply Forall_app. split; [assumption|]. constructor; [|constructor].
      cbn. rewrite length_app. cbn. lia.
    + intros ->. rewrite (Hq12 eq_refl) in Hq. discriminate.
  - intros q Hq' Hdq. apply elem_of_union_r. apply HD; assumption.
  - intros p Hp. apply elem_of_union in Hp as [Hp|Hp].
    + apply elem_of_singleton in Hp as ->. left. exists (path ++ [d]).
      apply elem_of_cons. right. apply elem_of_app. right.
      apply list_elem_of_singleton. reflexivity.
    + destruct (HC p Hp) as [[pa Hpa]|Hcl].
      * left. exists pa. apply elem_of_cons in Hpa as [Hpa|Hpa];
          [apply elem_of_cons; left; exact Hpa|].
        apply elem_of_cons. right. apply elem_of_app. left. assumption.
      * right. eapply closed_cell_mono; [|exact Hcl].
        intros x Hx. apply elem_of_union_r. assumption.
Qed.
Lemma expand_inv (L : nat) (current : Position.t) (path : list Direction.t)
  (dirs : list Direction.t) :
  forall rest visited,
    bfs_inv c start target L ((current, path) :: rest) visited ->
    (forall d, d ∉ dirs -> is_valid_position c (Position.move current d) = true ->
               Position.move current d ∈ visited) ->
    match expand c target current path dirs rest visited with
    | inl found =>
        walk start found = target /\ valid_walk c start found
        /\ Z.of_nat (length found) = Position.manhattan_distance start target
    | inr (queue', visited') =>
        bfs_inv c start target L ((current, path) :: queue') visited'
        /\ closed_cell c visited' current
    end.
Proof.
  induction dirs as [|d dirs IH]; intros rest visited Hinv Hdone.
  - cbn. split; [assumption|]. intros d Hd. apply Hdone; [|assumption].
    intros Hin. inversion Hin.
  - cbn [expand].
    destruct (bool_decide (Position.move current d ∈ visited)) eqn:Hvis;
      cbn [orb].
    { apply bool_decide_eq_true in Hvis. apply IH; [assumption|].
      intros d' Hd' Hv'. destruct (decide (d' = d)) as [->|Hne]; [assumption|].
      apply Hdone; [|assumption]. intros Hin.
      apply elem_of_cons in Hin as [?|?]; contradiction. }
    apply bool_decide_eq_false in Hvis.
    destruct (is_valid_position c (Position.move current d)) eqn:Hval;
      cbn [negb].
    2:{ apply IH; [assumption|].
        intros d' Hd' Hv'. destruct (decide (d' = d)) as [->|Hne]; [congruence|].
        apply Hdone; [|assumption]. intros Hin.
        apply elem_of_cons in Hin as [?|?]; contradiction. }
    destruct (expand_step_inv L current path d rest visited Hinv Hval Hvis)
      as (HL & Hlen & Hw & Hv & Hpush).
    destruct (bool_decide (Position.move current d = target)) eqn:Ht.
    + apply bool_decide_eq_true in Ht. rewrite <- Ht. auto.
    + apply bool_decide_eq_false in Ht. apply IH; [apply Hpush; assumption|].
      intros d' Hd' Hv'. destruct (decide (d' = d)) as [->|Hne].
      * apply elem_of_union_l, elem_of_singleton. reflexivity.
      * apply elem_of_union_r. apply Hdone; [|assumption]. intros Hin.
        apply elem_of_cons in Hin as [?|?]; contradiction.
Qed.

(** Taking the expanded entry off the queue. *)
Lemma bfs_inv_pop (L : nat) (current : Position.t) (path : list Direction.t)
  (queue : list (Position.t * list Direction.t)) (visited : gset Position.t) :
  bfs_inv c start target L ((current, path) :: queue) visited ->
  closed_cell c visited current ->
  exists L', bfs_inv c start target L' queue visited.
Proof.
  intros (Hs & Ht & HA & (q1 & q2 & Hq & H1 & H2 & Hq12) & HD & HC) Hclosed.
  inversion HA as [|? ? _ HArest]; subst. clear HA.
  assert (HC' : forall p, p ∈ visited ->
                          (exists pa, (p, pa) ∈ queue) \/ closed_cell c visited p).
  { intros p Hp. destruct (HC p Hp) as [[pa Hpa]|Hcl]; [|auto].
    apply elem_of_cons in Hpa as [Hpa|Hpa]; [|eauto].
    injection Hpa as -> ->. auto. }
  destruct q1 as [|e q1]; [rewrite (Hq12 eq_refl) in Hq; discriminate|].
  cbn in Hq. injection Hq as _ Hq. inversion H1 as [|? ? _ H1']; subst.
  destruct q1 as [|e1 q1].
  - exists (S L). cbn [app] in *. unfold bfs_inv.
    split; [assumption|]. split; [assumption|]. split; [assumption|].
    split; [exists q2, []; rewrite app_nil_r; auto|].
    split; [|assumption].
    intros q Hq Hdq.
    destruct (decide (Position.manhattan_distance start q <= Z.of_nat L))
      as [Hle|Hgt];
      [apply HD; assumption|].
    destruct (step_toward start q start_valid Hq) as (d & Hv & Hdist).
    { intros ->. pose proof (proj2 (proj1 (proj2 (proj2
        (manhattan_metric_facts start start start)))) eq_refl). lia. }
    assert (Hn : Position.move q d ∈ visited) by (apply HD; [assumption|lia]).
    destruct (move_back q d) as [d' Hback].
    destruct (HC' _ Hn) as [[pa Hpa]|Hcl].
    + exfalso. rewrite Forall_forall in HArest, H2.
      destruct (HArest _ Hpa) as (_ & _ & Hlen & _).
      specialize (H2 _ Hpa). cbn [fst snd] in *. lia.
    + rewrite <- Hback. apply Hcl. rewrite Hback. assumption.
  - exists L. unfold bfs_inv.
    split; [assumption|]. split; [assumption|]. split; [assumption|].
    split; [|split; assumption].
    exists (e1 :: q1), q2. split; [reflexivity|]. split; [assumption|].
    split; [assumption|]. discriminate.
Qed.

Hypothesis target_valid : is_valid_position c target = true.

Lemma bfs_loop_shortest (fuel : nat) :
  forall L queue visited found,
    bfs_inv c start target L queue visited ->
    bfs_loop fuel c target queue visited = Some found ->
    walk start found = target /\ valid_walk c start found
    /\ Z.of_nat (length found) = Position.manhattan_distance start target.
Proof.
  induction fuel as [|fuel IH]; intros L queue visited found Hinv E;
    [discriminate|].
  cbn [bfs_loop] in E. destruct queue as [|[current path] rest].
  - exfalso. destruct Hinv as (Hs & Ht & _ & _ & _ & HC). apply Ht.
    apply (closed_set_is_everything visited target target_valid) with
      (n := Z.to_nat (Position.manhattan_distance target start)) (p := start);
      [|rewrite Z2Nat.id; [reflexivity|apply manhattan_metric_facts; exact start]
       |assumption|assumption].
    intros p Hp. destruct (HC p Hp) as [[pa Hpa]|Hcl]; [|assumption].
    inversion Hpa.
  - pose proof (expand_inv L current path Direction.all rest visited Hinv) as Hexp.
    destruct (expand c target current path Direction.all rest visited)
      as [f|[queue' visited']].
    + injection E as <-. apply Hexp. intros d Hd. exfalso. apply Hd.
      unfold Direction.all. destruct d; repeat constructor.
    + destruct Hexp as [Hinv' Hclosed].
      { intros d Hd. exfalso. apply Hd.
        unfold Direction.all. destruct d; repeat constructor. }
      destruct (bfs_inv_pop L current path queue' visited' Hinv' Hclosed)
        as [L' HL'].
      apply (IH L' queue' visited' found HL' E).
Qed.

Lemma bfs_inv_initial :
  start <> target -> bfs_inv c start target 0 [(start, [])] {[start]}.
Proof.
  intros Hne. split; [apply elem_of_singleton; reflexivity|].
  split; [intros Hin; apply elem_of_singleton in Hin; congruence|].
  split.
  { constructor; [|constructor]. cbn. split; [reflexivity|].
    split; [exact I|]. split; [|apply elem_of_singleton; reflexivity].
    symmetry. apply (manhattan_metric_facts start start start). reflexivity. }
  split.
  { exists [(start, [])], []. split; [reflexivity|].
    split; [repeat constructor|]. split; [constructor|]. discriminate. }
  split.
  - intros q Hq Hd. apply elem_of_singleton. symmetry.
    apply (manhattan_metric_facts start q q).
    pose proof (proj1 (proj2 (manhattan_metric_facts start q q))). lia.
  - intros p Hp. apply elem_of_singleton in Hp as ->. left.
    exists []. apply list_elem_of_singleton. reflexivity.
Qed.
End ShortestPath.

Section PathTheorems.
Context {float : Type}.
Variable energy_decrement : float -> float.

Lemma initial_measure (c : RobotController float) (start : Position.t)
  (fuel : nat) :
  (Z.to_nat (grid_width c) * Z.to_nat (grid_height c) + 1 < fuel)%nat ->
  (unvisited c {[start]} + length [(start, @nil Direction.t)] < fuel)%nat.
Proof.
  intros H. pose proof (unvisited_bound c {[start]}). cbn [length]. lia.
Qed.

Lemma walk_length_bound (path : list Direction.t) :
  forall p, Position.manhattan_distance p (walk p path) <= Z.of_nat (length path).
Proof.
  induction path as [|d path IH] using rev_ind; intros p.
  - cbn. pose proof (proj2 (proj1 (proj2 (proj2
      (manhattan_metric_facts p p p)))) eq_refl). lia.
  - rewrite walk_snoc, length_app. cbn [length].
    destruct (manhattan_step p (walk p path) d); specialize (IH p); lia.
Qed.

(** X19: with fuel for more iterations than the grid has cells, the search
    of [get_path_to] ends for every start and target.  It returns the empty
    path or a path whose moves all stay inside the grid and end on the
    target; following a returned path with [move] never raises.  For a
    target outside the grid the result is the empty path, the value also
    returned when the robot already stands on the target. *)
Theorem get_path_to_finds_walk (c : RobotController float)
  (s : RobotState float) (target : Position.t) (fuel : nat) :
  state c = Some s ->
  (Z.to_nat (grid_width c) * Z.to_nat (grid_height c) + 1 < fuel)%nat ->
  exists path,
    get_path_to fuel c target = inr (Some path)
    /\ (path = []
        \/ (position s <> target /\ is_valid_position c target = true
            /\ walk (position s) path = target
            /\ valid_walk c (position s) path))
    /\ (position s = target -> path = [])
    /\ (is_valid_position c target = false -> path = [])
    /\ snd (move_all energy_decrement c path) = None
    /\ exists s', state (fst (move_all energy_decrement c path)) = Some s'
                  /\ position s' = walk (position s) path.
Proof.
  intros Hs Hfuel. unfold get_path_to. rewrite Hs.
  destruct (bool_decide (position s = target)) eqn:Heq.
  - exists []. split; [reflexivity|]. split; [left; reflexivity|].
    split; [reflexivity|]. split; [reflexivity|]. cbn. eauto.
  - apply bool_decide_eq_false in Heq.
    destruct (bfs_loop_terminates c target fuel [(position s, [])] {[position s]}
                (initial_measure c (position s) fuel Hfuel)) as [path Hpath].
    exists path. split; [rewrite Hpath; reflexivity|].
    assert (HQ : Forall (fun e => walk (position s) (snd e) = fst e
                                  /\ valid_walk c (position s) (snd e))
                        [(position s, @nil Direction.t)]).
    { constructor; [|constructor]. cbn. auto. }
    destruct (bfs_loop_sound c target (position s) fuel _ _ path HQ Hpath)
      as [->|[Hw Hv]].
    + split; [left; reflexivity|]. split; [reflexivity|].
      split; [reflexivity|]. cbn. eauto.
    + assert (Hne : path <> []) by (intros ->; cbn in Hw; contradiction).
      pose proof (valid_walk_end c path (position s) Hne Hv) as Hend.
      rewrite Hw in Hend.
      split; [right; auto|]. split; [contradiction|].
      split; [congruence|].
      apply (move_all_valid_walk energy_decrement path c s Hs Hv).
Qed.

(** X20: when the robot and the target are both inside the grid,
    [get_path_to] (with fuel for more iterations than the grid has cells)
    returns a path that leads to the target inside the grid and whose length
    is the Manhattan distance; no sequence of steps from the robot to the
    target is shorter. *)
Theorem get_path_to_shortest (c : RobotController float)
  (s : RobotState float) (target : Position.t) (fuel : nat) :
  state c = Some s ->
  is_valid_position c (position s) = true ->
  is_valid_position c target = true ->
  (Z.to_nat (grid_width c) * Z.to_nat (grid_height c) + 1 < fuel)%nat ->
  exists path,
    get_path_to fuel c target = inr (Some path)
    /\ walk (position s) path = target
    /\ valid_walk c (position s) path
    /\ Z.of_nat (length path) = Position.manhattan_distance (position s) target
    /\ (forall other, walk (position s) other = target ->
                      (length path <= length other)%nat)
    /\ snd (move_all energy_decrement c path) = None
    /\ exists s', state (fst (move_all energy_decrement c path)) = Some s'
                  /\ position s' = target.
Proof.
  intros Hs Hstart Htarget Hfuel.
  assert (Hgood : exists path,
             get_path_to fuel c target = inr (Some path)
             /\ walk (position s) path = target
             /\ valid_walk c (position s) path
             /\ Z.of_nat (length path)
                = Position.manhattan_distance (position s) target).
  { unfold get_path_to. rewrite Hs.
    destruct (bool_decide (position s = target)) eqn:Heq.
    - apply bool_decide_eq_true in Heq. exists [].
      split; [reflexivity|]. split; [exact Heq|]. split; [exact I|].
      symmetry. apply (manhattan_metric_facts (position s) target target).
      exact Heq.
    - apply bool_decide_eq_false in Heq.
      destruct (bfs_loop_terminates c target fuel [(position s, [])]
                  {[position s]} (initial_measure c (position s) fuel Hfuel))
        as [path Hpath].
      exists path. split; [rewrite Hpath; reflexivity|].
      apply (bfs_loop_shortest c (position s) target Hstart Htarget fuel 0
               [(position s, [])] {[position s]} path);
        [apply bfs_inv_initial; assumption|assumption]. }
  destruct Hgood as (path & Hget & Hw & Hv & Hlen).
  exists path. split; [assumption|]. split; [assumption|].
  split; [assumption|]. split; [assumption|]. split.
  - intros other Ho. pose proof (walk_length_bound other (position s)) as Hb.
    rewrite Ho in Hb. lia.
  - destruct (move_all_valid_walk energy_decrement path c s Hs Hv)
      as (Hnone & s' & Hs' & Hpos).
    split; [assumption|]. exists s'. split; [assumption|]. congruence.
Qed.
End PathTheorems.

Lemma get_path_to_finds_walk_witness :
  let c := fst (Zspawn (controller_init Z (3, 3) []) (Position.mk 0 0)
                       Direction.NORTH) in
  let s := mkState (Position.mk 0 0) Direction.NORTH 100 [Position.mk 0 0] ∅ in
  exists path,
    get_path_to 11 c (Position.mk 5 1) = inr (Some path)
    /\ (path = []
        \/ (position s <> Position.mk 5 1
            /\ is_valid_position c (Position.mk 5 1) = true
            /\ walk (position s) path = Position.mk 5 1
            /\ valid_walk c (position s) path))
    /\ (position s = Position.mk 5 1 -> path = [])
    /\ (is_valid_position c (Position.mk 5 1) = false -> path = [])
    /\ snd (move_all (fun e => e - 1) c path) = None
    /\ exists s', state (fst (move_all (fun e => e - 1) c path)) = Some s'
                  /\ position s' = walk (position s) path.
Proof.
  apply (get_path_to_finds_walk
           (fun e => e - 1)
           (fst (Zspawn (controller_init Z (3, 3) []) (Position.mk 0 0)
                        Direction.NORTH))
           (mkState (Position.mk 0 0) Direction.NORTH 100 [Position.mk 0 0] ∅)
           (Position.mk 5 1) 11).
  - reflexivity.
  - cbn. lia.
Defined.

Lemma get_path_to_shortest_witness :
  let c := fst (Zspawn (controller_init Z (5, 5) [Position.mk 4 4])
                       (Position.mk 0 0) Direction.NORTH) in
  let s := mkState (Position.mk 0 0) Direction.NORTH 100 [Position.mk 0 0] ∅ in
  exists path,
    get_path_to 27 c (Position.mk 3 3) = inr (Some path)
    /\ walk (position s) path = Position.mk 3 3
    /\ valid_walk c (position s) path
    /\ Z.of_nat (length path)
       = Position.manhattan_distance (position s) (Position.mk 3 3)
    /\ (forall other, walk (position s) other = Position.mk 3 3 ->
                      (length path <= length other)%nat)
    /\ snd (move_all (fun e => e - 1) c path) = None
    /\ exists s', state (fst (move_all (fun e => e - 1) c path)) = Some s'
                  /\ position s' = Position.mk 3 3.
Proof.
  apply (get_path_to_shortest
           (fun e => e - 1)
           (fst (Zspawn (controller_init Z (5, 5) [Position.mk 4 4])
                        (Position.mk 0 0) Direction.NORTH))
           (mkState (Position.mk 0 0) Direction.NORTH 100 [Position.mk 0 0] ∅)
           (Position.mk 3 3) 27).
  - reflexivity.
  - reflexivity.
  - reflexivity.
  - cbn. lia.
Defined.

(** ** get_trail_visualization *)

Example test_trail_visualization :
  let c0 := fst (Zspawn (controller_init Z (3, 2) [Position.mk 2 1])
                        (Position.mk 0 0) Direction.NORTH) in
  let c1 := fst (Zmove_all c0 [Direction.EAST]) in
  get_trail_visualization c1
  = [PLUS; SPACE; LETTER_N; SPACE; DOT; NEWLINE;
     DOT; SPACE; DOT; SPACE; LETTER_C].
Proof. vm_compute. reflexivity. Qed.

Lemma mget_mset_rect (n m : nat) (A : list (list Z)) (i j i' j' : nat) (v : Z) :
  shape n m A -> (i < n)%nat -> (j < m)%nat ->
  mget (mset A i j v) i' j'
  = if (i =? i')%nat && (j =? j')%nat then v else mget A i' j'.
Proof.
  intros Hs Hi Hj. rewrite mset_insert. unfold mget.
  rewrite row_of_insert.
  destruct (Nat.eqb_spec i i') as [<-|Hne]; cbn [andb].
  - rewrite decide_True by (destruct Hs; split; [reflexivity|lia]).
    rewrite zget_insert. rewrite (shape_row_of n m A i Hs Hi).
    destruct (Nat.eqb_spec j j') as [<-|Hne].
    + rewrite decide_True by auto. reflexivity.
    + rewrite decide_False by (intros [? _]; auto). reflexivity.
  - rewrite decide_False by (intros [? _]; auto). reflexivity.
Qed.

Lemma shape_mset_rect (n m : nat) (A : list (list Z)) (i j : nat) (v : Z) :
  shape n m A -> (i < n)%nat -> shape n m (mset A i j v).
Proof.
  intros Hs Hi. rewrite mset_insert. apply shape_insert; [assumption|].
  rewrite length_insert. apply (shape_row_of n m A i Hs Hi).
Qed.

Lemma enumerate_snoc {A : Type} (l : list A) (a : A) :
  enumerate (l ++ [a]) = enumerate l ++ [(length l, a)].
Proof.
  unfold enumerate. rewrite length_app. cbn [length].
  rewrite Nat.add_1_r, seq_S. cbn [Nat.add].
  rewrite zip_with_app by (rewrite length_seq; reflexivity). reflexivity.
Qed.

Lemma enumerate_In {A : Type} (l : list A) (i : nat) (a : A) :
  In (i, a) (enumerate l) -> (i < length l)%nat /\ In a l.
Proof.
  induction l as [|b l IH] using rev_ind; [contradiction|].
  rewrite enumerate_snoc, in_app_iff, length_app. cbn [length In].
  intros [H|[H|[]]].
  - destruct (IH H). split; [lia|]. apply in_or_app. auto.
  - inversion H; subst. split; [lia|]. apply in_or_app. right. left. reflexivity.
Qed.

Section Visualization.
Context {float : Type}.
Variable c : RobotController float.

Lemma draw_spec (g : list (list Z)) (p q : Position.t) (symbol : Z) :
  shape (Z.to_nat (grid_height c)) (Z.to_nat (grid_width c)) g ->
  is_valid_position c p = true -> is_valid_position c q = true ->
  shape (Z.to_nat (grid_height c)) (Z.to_nat (grid_width c)) (draw g p symbol)
  /\ symbol_at (draw g p symbol) q
     = if decide (p = q) then symbol else symbol_at g q.
Proof.
  intros Hs Hp Hq.
  apply is_valid_position_spec in Hp. apply is_valid_position_spec in Hq.
  unfold draw, symbol_at. split.
  - apply shape_mset_rect; [assumption|lia].
  - rewrite (mget_mset_rect (Z.to_nat (grid_height c)) (Z.to_nat (grid_width c))) by (assumption || lia).
    destruct p as [px py], q as [qx qy]. cbn [Position.x Position.y] in *.
    destruct (decide (Position.mk px py = Position.mk qx qy)) as [E|N].
    + inversion E; subst. rewrite !Nat.eqb_refl. reflexivity.
    + destruct (Nat.eqb_spec (Z.to_nat py) (Z.to_nat qy)) as [Ey|]; [|reflexivity].
      destruct (Nat.eqb_spec (Z.to_nat px) (Z.to_nat qx)) as [Ex|]; [|reflexivity].
      exfalso. apply N. f_equal; lia.
Qed.

(** A loop that draws [sym a] at every valid [pos a] leaves at each valid
    position the symbol of the last entry drawn there. *)
Lemma draw_loop_spec {A : Type} (pos : A -> Position.t) (sym : A -> Z)
  (l : list A) (g : list (list Z)) (q : Position.t) :
  shape (Z.to_nat (grid_height c)) (Z.to_nat (grid_width c)) g -> is_valid_position c q = true ->
  let g' := foldl (fun g a => if is_valid_position c (pos a)
                              then draw g (pos a) (sym a) else g) g l in
  shape (Z.to_nat (grid_height c)) (Z.to_nat (grid_width c)) g'
  /\ symbol_at g' q
     = match List.find (fun a => bool_decide (pos a = q)) (rev l) with
       | Some a => sym a
       | None => symbol_at g q
       end.
Proof.
  intros Hs Hq. induction l as [|a l IH] using rev_ind.
  - cbn. auto.
  - cbn zeta in *. rewrite foldl_snoc, rev_app_distr. cbn [rev app List.find].
    destruct IH as [IHs IHq].
    destruct (is_valid_position c (pos a)) eqn:Hv.
    + destruct (draw_spec _ (pos a) q (sym a) IHs Hv Hq) as [Hs' Hq'].
      split; [assumption|]. rewrite Hq'.
      destruct (decide (pos a = q)) as [E|N].
      * rewrite bool_decide_eq_true_2 by assumption. reflexivity.
      * rewrite bool_decide_eq_false_2 by assumption. assumption.
    + split; [assumption|].
      rewrite bool_decide_eq_false_2 by (intros E; congruence). assumption.
Qed.

Lemma initial_grid_shape :
  shape (Z.to_nat (grid_height c)) (Z.to_nat (grid_width c)) (replicate (Z.to_nat (grid_height c)) (replicate (Z.to_nat (grid_width c)) DOT)).
Proof.
  split; [apply length_replicate|].
  apply Forall_replicate, length_replicate.
Qed.

Lemma initial_grid_symbol (q : Position.t) :
  is_valid_position c q = true ->
  symbol_at (replicate (Z.to_nat (grid_height c)) (replicate (Z.to_nat (grid_width c)) DOT)) q = DOT.
Proof.
  intros Hq. apply is_valid_position_spec in Hq.
  unfold symbol_at, mget, row_of, zget.
  rewrite lookup_replicate_2 by lia. cbn [default from_option id].
  rewrite lookup_replicate_2 by lia. reflexivity.
Qed.

Lemma draw_checkpoints_spec (q : Position.t) :
  is_valid_position c q = true ->
  let g := draw_checkpoints c (replicate (Z.to_nat (grid_height c)) (replicate (Z.to_nat (grid_width c)) DOT)) in
  shape (Z.to_nat (grid_height c)) (Z.to_nat (grid_width c)) g
  /\ symbol_at g q = if decide (q ∈ checkpoints c) then LETTER_C else DOT.
Proof.
  intros Hq g. subst g. unfold draw_checkpoints.
  destruct (draw_loop_spec (fun cp => cp) (fun _ => LETTER_C)
              (elements (checkpoints c)) _ q initial_grid_shape Hq) as [Hs Hsym].
  cbn beta zeta in Hs, Hsym. split; [exact Hs|]. rewrite Hsym.
  destruct (List.find _ _) as [a|] eqn:Hf.
  - apply find_some in Hf as [Hin Ha]. apply bool_decide_eq_true_1 in Ha. subst a.
    rewrite decide_True; [reflexivity|].
    apply elem_of_elements, list_elem_of_In, in_rev. assumption.
  - rewrite decide_False; [apply initial_grid_symbol; assumption|].
    intros Hin. apply elem_of_elements, list_elem_of_In, in_rev in Hin.
    pose proof (find_none _ _ Hf q Hin) as Hn.
    apply bool_decide_eq_false_1 in Hn. auto.
Qed.

Lemma draw_trail_spec (tr : list Position.t) (g : list (list Z)) (q : Position.t) :
  shape (Z.to_nat (grid_height c)) (Z.to_nat (grid_width c)) g -> is_valid_position c q = true ->
  symbol_at (draw_trail c tr g) q
  = if decide (last tr = Some q) then LETTER_N
    else if decide (q ∈ tr) then PLUS
         else symbol_at g q.
Proof.
  intros Hs Hq. unfold draw_trail.
  destruct (draw_loop_spec snd
              (fun ip : nat * Position.t =>
                 if (fst ip =? length tr - 1)%nat then LETTER_N else PLUS)
              (enumerate tr) g q Hs Hq) as [_ Hsym].
  cbn beta zeta in Hsym. rewrite Hsym. clear Hsym.
  destruct tr as [|z tr' _] using rev_ind.
  - cbn. rewrite decide_False by discriminate.
    rewrite decide_False by (apply not_elem_of_nil). reflexivity.
  - rewrite enumerate_snoc, rev_app_distr. cbn [rev app List.find snd fst].
    rewrite last_snoc, length_app. cbn [length].
    replace (length tr' + 1 - 1)%nat with (length tr') by lia.
    destruct (decide (z = q)) as [->|Hzq].
    + rewrite bool_decide_eq_true_2 by reflexivity.
      rewrite Nat.eqb_refl. rewrite decide_True by reflexivity. reflexivity.
    + rewrite bool_decide_eq_false_2 by assumption.
      rewrite decide_False by congruence.
      destruct (List.find _ _) as [[i p']|] eqn:Hf.
      * apply find_some in Hf as [Hin Ha]. cbn [snd fst] in *.
        apply bool_decide_eq_true_1 in Ha. subst p'.
        apply in_rev, enumerate_In in Hin as [Hi Hin].
        destruct (Nat.eqb_spec i (length tr')); [lia|].
        rewrite decide_True; [reflexivity|].
        apply elem_of_app. left. apply list_elem_of_In. assumption.
      * rewrite decide_False; [reflexivity|].
        intros Hin. apply elem_of_app in Hin as [Hin|Hin].
        -- apply list_elem_of_lookup in Hin as [i Hi].
           assert (Hin : In (i, q) (rev (enumerate tr'))).
           { apply in_rev. rewrite rev_involutive. apply list_elem_of_In.
             unfold enumerate. apply list_elem_of_lookup. exists i.
             rewrite lookup_zip_with.
             rewrite lookup_seq_lt by (eapply lookup_lt_Some; eassumption).
             rewrite Hi. reflexivity. }
           pose proof (find_none _ _ Hf _ Hin) as Hn. cbn [snd] in Hn.
           apply bool_decide_eq_false_1 in Hn. auto.
        -- apply list_elem_of_singleton in Hin. auto.
Qed.

(** X21: the trail picture has one line per grid row, separated by
    newlines, and on each line one character per column, separated by
    spaces.  The character of a
    position inside the grid is N when the position is the last entry of
    the trail, + when it is another position of the trail, C when it is
    a checkpoint not on the trail, and a dot otherwise; without a spawned
    robot only checkpoints and dots are drawn. *)
Theorem trail_visualization_layout (p : Position.t) :
  is_valid_position c p = true ->
  length (get_trail_visualization c)
  = (Z.to_nat (grid_height c) * (2 * Z.to_nat (grid_width c)) - 1)%nat
  /\ zget (get_trail_visualization c)
          (Z.to_nat (Position.y p) * (2 * Z.to_nat (grid_width c))
           + 2 * Z.to_nat (Position.x p))
     = match state c with
       | Some s =>
           if decide (last (trail s) = Some p) then LETTER_N
           else if decide (p ∈ trail s) then PLUS
                else if decide (p ∈ checkpoints c) then LETTER_C else DOT
       | None => if decide (p ∈ checkpoints c) then LETTER_C else DOT
       end
  /\ (Position.x p < grid_width c - 1 ->
      zget (get_trail_visualization c)
           (Z.to_nat (Position.y p) * (2 * Z.to_nat (grid_width c))
            + 2 * Z.to_nat (Position.x p) + 1) = SPACE)
  /\ (Position.y p < grid_height c - 1 ->
      zget (get_trail_visualization c)
           (Z.to_nat (Position.y p) * (2 * Z.to_nat (grid_width c))
            + (2 * Z.to_nat (grid_width c) - 1)) = NEWLINE).
Proof.
  intros Hp.
  destruct (draw_checkpoints_spec p Hp) as [Hs1 Hsym1]. cbn zeta in Hs1, Hsym1.
  assert (Hs : shape (Z.to_nat (grid_height c)) (Z.to_nat (grid_width c)) (trail_grid c)
               /\ symbol_at (trail_grid c) p
                  = match state c with
                    | Some s =>
                        if decide (last (trail s) = Some p) then LETTER_N
                        else if decide (p ∈ trail s) then PLUS
                             else if decide (p ∈ checkpoints c)
                                  then LETTER_C else DOT
                    | None => if decide (p ∈ checkpoints c) then LETTER_C else DOT
                    end).
  { unfold trail_grid. cbn zeta. destruct (state c) as [s|].
    - split.
      + unfold draw_trail.
        apply (draw_loop_spec snd _ (enumerate (trail s)) _ p Hs1 Hp).
      + rewrite (draw_trail_spec _ _ p Hs1 Hp), Hsym1. reflexivity.
    - split; assumption. }
  destruct Hs as [Hs Hsym].
  pose proof (proj1 (is_valid_position_spec c p) Hp) as Hb.
  destruct (join_grid_layout (fun ch => ch) (Z.to_nat (grid_height c)) (Z.to_nat (grid_width c)) (trail_grid c)
              (Z.to_nat (Position.y p)) (Z.to_nat (Position.x p)) Hs
              ltac:(lia) ltac:(lia) ltac:(lia)) as (Hlen & Hcell & Hsp & Hnl).
  cbn beta zeta in Hlen, Hcell, Hsp, Hnl. unfold get_trail_visualization.
  split; [exact Hlen|]. split; [rewrite Hcell; exact Hsym|]. split.
  - intros Hx. apply Hsp. lia.
  - intros Hy. apply Hnl. lia.
Qed.
End Visualization.

Lemma trail_visualization_layout_witness :
  let c0 := fst (Zspawn (controller_init Z (3, 2) [Position.mk 2 1])
                        (Position.mk 0 0) Direction.NORTH) in
  let c1 := fst (Zmove_all c0 [Direction.EAST]) in
  length (get_trail_visualization c1) = 11%nat
  /\ zget (get_trail_visualization c1) 2 = LETTER_N
  /\ (1 < 3 - 1 -> zget (get_trail_visualization c1) 3 = SPACE)
  /\ (0 < 2 - 1 -> zget (get_trail_visualization c1) 5 = NEWLINE).
Proof.
  cbv zeta.
  exact (trail_visualization_layout
           (fst (Zmove_all
                   (fst (Zspawn (controller_init Z (3, 2) [Position.mk 2 1])
                                (Position.mk 0 0) Direction.NORTH))
                   [Direction.EAST]))
           (Position.mk 1 0) eq_refl).
Defined.
